(** * cink: the classifying lexer and the escape-aware highlighter

    A shallow embedding of [lexer/lexer.go], the token declarations and
    [highlighter/highlighter.go] / [highlighter/theme.go], followed by the
    properties of the specification stated and settled over it.

    Go strings are byte sequences: they are modelled as [list ascii], one
    [ascii] per byte.  The lexer, a Go struct mutated through a pointer
    receiver, becomes a record threaded through the scanning functions. *)

From Stdlib Require Import List Bool Arith Lia Ascii.
From Stdlib Require String DecimalString.
Import ListNotations.
Import String.StringSyntax.

Abbreviation string := String.string.

Set Implicit Arguments.

Open Scope string_scope.
Open Scope list_scope.

(** ** Bytes and Go strings *)

Definition gostring := list ascii.

(** A Go string literal. *)
Definition bytes (s : string) : gostring := String.list_ascii_of_string s.

Definition code (c : ascii) : nat := nat_of_ascii c.

Definition byteIn (lo hi : nat) (c : ascii) : bool :=
  (lo <=? code c) && (code c <=? hi).

Definition byteEq (a b : ascii) : bool := Ascii.eqb a b.

Fixpoint streq (a b : gostring) : bool :=
  match a, b with
  | [], [] => true
  | x :: a', y :: b' => byteEq x y && streq a' b'
  | _, _ => false
  end.

(** Membership in a [map[string]bool] used as a set of keys. *)
Definition inSet (set : list string) (w : gostring) : bool :=
  existsb (fun k => streq w (bytes k)) set.

Definition LF : ascii := "010"%char.
Definition TAB : ascii := "009"%char.
Definition CR : ascii := "013"%char.
Definition ESC : ascii := "027"%char.
Definition DQUOTE : ascii := "034"%char.
Definition BACKSLASH : ascii := "092"%char.

(** The part of [s] before the first byte failing [p], and the rest. *)
Fixpoint span (p : ascii -> bool) (s : gostring) : gostring * gostring :=
  match s with
  | [] => ([], [])
  | c :: s' =>
      if p c then let (a, b) := span p s' in (c :: a, b) else ([], s)
  end.

(** ** The functions of Go's [strings] package the program calls *)

Module strings.

Fixpoint HasPrefix (s prefix : gostring) : bool :=
  match prefix, s with
  | [], _ => true
  | p :: prefix', c :: s' => byteEq c p && HasPrefix s' prefix'
  | _ :: _, [] => false
  end.

Definition HasSuffix (s suffix : gostring) : bool :=
  HasPrefix (rev s) (rev suffix).

Fixpoint Contains (s substr : gostring) : bool :=
  HasPrefix s substr
  || match s with
     | [] => false
     | _ :: s' => Contains s' substr
     end.

(** [ToLower] on its ASCII path: [A]-[Z] are lowered and every other byte
    is kept.  (For a string holding a byte above 0x7f Go switches to the
    Unicode case tables of its runtime; those are not part of this
    model, which keeps such bytes as they are.) *)
Definition lowerByte (c : ascii) : ascii :=
  if byteIn 65 90 c then ascii_of_nat (code c + 32) else c.

Definition ToLower (s : gostring) : gostring := map lowerByte s.

(** The UTF-8 encodings of the runes for which [unicode.IsSpace] holds:
    tab, LF, VT, FF, CR, space, U+0085, U+00A0, U+1680, U+2000..U+200A,
    U+2028, U+2029, U+202F, U+205F and U+3000. *)
Definition spaceRunes : list (list nat) :=
  [ [9]; [10]; [11]; [12]; [13]; [32];
    [194; 133]; [194; 160]; [225; 154; 128];
    [226; 128; 128]; [226; 128; 129]; [226; 128; 130]; [226; 128; 131];
    [226; 128; 132]; [226; 128; 133]; [226; 128; 134]; [226; 128; 135];
    [226; 128; 136]; [226; 128; 137]; [226; 128; 138];
    [226; 128; 168]; [226; 128; 169]; [226; 128; 175];
    [226; 129; 159]; [227; 128; 128] ].

Definition runeBytes (r : list nat) : gostring := map ascii_of_nat r.

(** The length of the first rune of [runes] that passes [f]. *)
Definition firstRune (f : list nat -> bool) (runes : list (list nat))
  : option nat :=
  match filter f runes with
  | r :: _ => Some (length r)
  | [] => None
  end.

(** The length of the space rune [s] starts with, if it starts with one. *)
Definition leadingSpace (s : gostring) : option nat :=
  firstRune (fun r => HasPrefix s (runeBytes r)) spaceRunes.

Fixpoint trimLeft (fuel : nat) (s : gostring) : gostring :=
  match fuel with
  | 0 => s
  | S fuel' =>
      match leadingSpace s with
      | Some n => trimLeft fuel' (skipn n s)
      | None => s
      end
  end.

(** The length of the space rune the reversed string [r] ends with. *)
Definition trailingSpace (r : gostring) : option nat :=
  firstRune (fun e => HasPrefix r (rev (runeBytes e))) spaceRunes.

Fixpoint trimRightRev (fuel : nat) (r : gostring) : gostring :=
  match fuel with
  | 0 => r
  | S fuel' =>
      match trailingSpace r with
      | Some n => trimRightRev fuel' (skipn n r)
      | None => r
      end
  end.

Definition TrimSpace (s : gostring) : gostring :=
  let t := trimLeft (length s) s in
  rev (trimRightRev (length t) (rev t)).

(** Index of the first occurrence of byte [c], as [IndexByte] with [None]
    for -1. *)
Fixpoint IndexByte (s : gostring) (c : ascii) : option nat :=
  match s with
  | [] => None
  | x :: s' =>
      if byteEq x c then Some 0
      else match IndexByte s' c with
           | Some i => Some (S i)
           | None => None
           end
  end.

(** Index of the last occurrence of byte [c]: [LastIndex] with a
    one-byte needle, [None] for -1. *)
Fixpoint LastIndexByte (s : gostring) (c : ascii) : option nat :=
  match s with
  | [] => None
  | x :: s' =>
      match LastIndexByte s' c with
      | Some i => Some (S i)
      | None => if byteEq x c then Some 0 else None
      end
  end.

End strings.

(** ** Regular expressions

    The patterns of the program are compiled by Go's [regexp] package.
    They are written here as terms of [re], one constructor per regular
    operator, and decided by derivatives.  Character classes are
    predicates on bytes: every class the program uses ([\d], [\w], [\s],
    hex digits, literals) is ASCII, and [.] is every byte but LF. *)

Module regexp.

Inductive re : Type :=
| Void : re
| Eps : re
| Cls : (ascii -> bool) -> re
| Cat : re -> re -> re
| Alt : re -> re -> re
| Star : re -> re.

Fixpoint nullable (r : re) : bool :=
  match r with
  | Void => false
  | Eps => true
  | Cls _ => false
  | Cat a b => nullable a && nullable b
  | Alt a b => nullable a || nullable b
  | Star _ => true
  end.

(** Constructors that drop [Void] and [Eps] where they change nothing. *)
Definition cat (a b : re) : re :=
  match a, b with
  | Void, _ => Void
  | _, Void => Void
  | Eps, _ => b
  | _, Eps => a
  | _, _ => Cat a b
  end.

Definition alt (a b : re) : re :=
  match a, b with
  | Void, _ => b
  | _, Void => a
  | _, _ => Alt a b
  end.

Fixpoint deriv (c : ascii) (r : re) : re :=
  match r with
  | Void => Void
  | Eps => Void
  | Cls p => if p c then Eps else Void
  | Cat a b =>
      if nullable a then alt (cat (deriv c a) b) (deriv c b)
      else cat (deriv c a) b
  | Alt a b => alt (deriv c a) (deriv c b)
  | Star a => cat (deriv c a) (Star a)
  end.

Definition isVoid (r : re) : bool :=
  match r with Void => true | _ => false end.

(** [^r$]: the whole string is in the language of [r]. *)
Fixpoint fullMatch (r : re) (s : gostring) : bool :=
  match s with
  | [] => nullable r
  | c :: s' => fullMatch (deriv c r) s'
  end.

(** Some prefix of [s] is in the language of [r]. *)
Fixpoint prefixMatch (r : re) (s : gostring) : bool :=
  nullable r
  || match s with
     | [] => false
     | c :: s' =>
         let d := deriv c r in
         if isVoid d then false else prefixMatch d s'
     end.

(** An unanchored pattern: some substring of [s] is in the language. *)
Fixpoint search (r : re) (s : gostring) : bool :=
  prefixMatch r s
  || match s with
     | [] => false
     | _ :: s' => search r s'
     end.

(** Derived operators. *)
Definition opt (r : re) : re := Alt Eps r.
Definition plus (r : re) : re := Cat r (Star r).

Fixpoint seq (rs : list re) : re :=
  match rs with
  | [] => Eps
  | [r] => r
  | r :: rs' => Cat r (seq rs')
  end.

Fixpoint alts (rs : list re) : re :=
  match rs with
  | [] => Void
  | [r] => r
  | r :: rs' => Alt r (alts rs')
  end.

(** [r{n}] *)
Fixpoint times (n : nat) (r : re) : re :=
  match n with
  | 0 => Eps
  | S n' => Cat r (times n' r)
  end.

(** [r{0,n}] *)
Fixpoint upto (n : nat) (r : re) : re :=
  match n with
  | 0 => Eps
  | S n' => opt (Cat r (upto n' r))
  end.

(** [r{lo,hi}] *)
Definition between (lo hi : nat) (r : re) : re :=
  Cat (times lo r) (upto (hi - lo) r).

(** [r{n,}] *)
Definition atLeast (n : nat) (r : re) : re := Cat (times n r) (Star r).

Definition chr (c : ascii) : re := Cls (byteEq c).

(** A literal, byte for byte. *)
Definition lit (s : string) : re := seq (map chr (bytes s)).

(** One letter under the [(?i)] flag.  Go folds case with the Unicode
    simple folding: a letter matches both of its ASCII cases, [k] also
    matches U+212A (bytes e2 84 aa) and [s] also U+017F (bytes c5 bf). *)
Definition foldChr (c : ascii) : re :=
  let l := strings.lowerByte c in
  if byteIn 97 122 l then
    let both := Cls (fun x => byteEq (strings.lowerByte x) l) in
    if byteEq l "k" then
      Alt both (seq (map chr (strings.runeBytes [226; 132; 170])))
    else if byteEq l "s" then
      Alt both (seq (map chr (strings.runeBytes [197; 191])))
    else both
  else chr c.

Definition litFold (s : string) : re := seq (map foldChr (bytes s)).

(** The classes of the program's patterns. *)
Definition isDigit (c : ascii) : bool := byteIn 48 57 c.
Definition isHex (c : ascii) : bool :=
  byteIn 48 57 c || byteIn 97 102 c || byteIn 65 70 c.
Definition isWordByte (c : ascii) : bool :=
  byteIn 48 57 c || byteIn 65 90 c || byteIn 97 122 c || byteEq c "_".
(** [\s] is [[\t\n\f\r ]]. *)
Definition isSpaceByte (c : ascii) : bool :=
  byteEq c TAB || byteEq c LF || byteEq c "012" || byteEq c CR
  || byteEq c " ".

Definition digit : re := Cls isDigit.
Definition hex : re := Cls isHex.
Definition wordByte : re := Cls isWordByte.
Definition space : re := Cls isSpaceByte.

(** [MatchString] for a pattern written [^...$] (also an alternation
    of such), and for a pattern with no anchor. *)
Definition MatchString (r : re) (x : gostring) : bool := fullMatch r x.
Definition MatchStringUnanchored (r : re) (x : gostring) : bool :=
  search r x.

End regexp.

(** ** Package lexer: tokens *)

Module lexer.

Import regexp.

(** [TokenType], in the order of the [iota] declaration. *)
Inductive TokenType : Type :=
| TokenText | TokenCommand | TokenSection | TokenProtocol | TokenAction
| TokenInterface | TokenIPv4 | TokenIPv4Prefix | TokenIPv6 | TokenIPv6Prefix
| TokenMAC | TokenNumber | TokenString | TokenComment | TokenIdentifier
| TokenKeyword | TokenOperator | TokenASN | TokenCommunity | TokenValue
| TokenNegation
| TokenStateGood | TokenStateBad | TokenStateWarning | TokenStateNeutral
| TokenColumnHeader | TokenStatusSymbol | TokenTimeDuration | TokenPercentage
| TokenByteSize | TokenRouteProtocol
| TokenPromptHost | TokenPromptMode | TokenPromptOper | TokenPromptConf.

Definition TokenType_eq_dec (a b : TokenType) : {a = b} + {a <> b}.
Proof. decide equality. Defined.

Definition tokenTypeEq (a b : TokenType) : bool :=
  if TokenType_eq_dec a b then true else false.

Record Token : Type := mkToken {
  Type_ : TokenType;
  Value : gostring;
  Line : nat;
  Column : nat
}.

Inductive ParseMode : Type :=
| ParseModeAuto | ParseModeConfig | ParseModeShow.

Definition parseModeEq (a b : ParseMode) : bool :=
  match a, b with
  | ParseModeAuto, ParseModeAuto => true
  | ParseModeConfig, ParseModeConfig => true
  | ParseModeShow, ParseModeShow => true
  | _, _ => false
  end.

Definition parseModeDetectionSampleSize : nat := 500.

(** *** Keyword sets *)

Definition commands : list string :=
  [ "interface"; "router"; "ip"; "ipv6";
    "show"; "configure"; "hostname"; "username";
    "enable"; "service"; "line"; "logging";
    "ntp"; "snmp-server"; "crypto"; "aaa";
    "spanning-tree"; "vlan"; "banner";
    "shutdown"; "write"; "copy"; "reload";
    "ping"; "traceroute"; "clock"; "boot";
    "archive"; "errdisable"; "default-gateway";
    "do"; "exit"; "end" ].

Definition sections : list string :=
  [ "interface"; "router"; "line";
    "access-list"; "route-map"; "prefix-list";
    "class-map"; "policy-map"; "crypto";
    "vlan"; "redundancy"; "controller";
    "ip access-list"; "key"; "track";
    "monitor"; "event"; "applet" ].

Definition protocols : list string :=
  [ "ospf"; "bgp"; "eigrp"; "rip";
    "isis"; "mpls"; "hsrp"; "vrrp";
    "stp"; "rstp"; "lacp"; "dot1q";
    "ipsec"; "gre"; "tcp"; "udp";
    "icmp"; "ssh"; "dhcp"; "bfd";
    "cdp"; "lldp"; "evpn"; "vxlan";
    "isakmp"; "nhrp"; "pim"; "igmp";
    "msdp"; "lisp"; "omp"; "snmp";
    "radius"; "tacacs"; "tacacs+";
    "telnet"; "ftp"; "tftp"; "http";
    "https"; "ntp"; "dns"; "syslog";
    "netflow"; "sflow"; "ipfix" ].

Definition actions : list string :=
  [ "permit"; "deny"; "log"; "log-input";
    "established"; "match"; "set";
    "remark"; "evaluate"; "reflect" ].

Definition operators : list string :=
  [ "eq"; "gt"; "lt"; "neq";
    "range"; "ge"; "le"; "any";
    "host" ].

Definition keywords : list string :=
  [ "description"; "address"; "switchport";
    "speed"; "duplex"; "mtu"; "bandwidth";
    "encapsulation"; "channel-group"; "channel-protocol";
    "standby"; "ip address";
    "no-autostate"; "autostate";
    "network"; "neighbor"; "redistribute";
    "area"; "remote-as"; "update-source";
    "route-map"; "access-group"; "nat";
    "inside"; "outside"; "overload";
    "default-information"; "originate";
    "summary-address"; "passive-interface";
    "distance"; "metric"; "weight";
    "local-preference"; "next-hop-self";
    "soft-reconfiguration"; "inbound";
    "prefix-list"; "distribute-list";
    "maximum-paths"; "auto-summary";
    "synchronization"; "log-neighbor-changes";
    "address-family"; "unicast"; "multicast";
    "vpnv4"; "vpnv6";
    "access-class"; "transport"; "input";
    "output"; "login"; "password";
    "secret"; "privilege"; "authentication";
    "authorization"; "accounting"; "group";
    "method"; "local";
    "version"; "source"; "trap";
    "community"; "location"; "contact";
    "default"; "timeout"; "exec-timeout";
    "mask"; "wildcard"; "inverse-mask";
    "mode"; "priority"; "vlan";
    "portfast"; "bpduguard"; "bpdufilter";
    "guard"; "root";
    "name"; "state"; "active"; "suspend";
    "class"; "police"; "shape";
    "queue"; "dscp"; "cos";
    "service-policy"; "policy-map";
    "new-model"; "server"; "key";
    "trunk";
    "native"; "allowed"; "tagging";
    "nonegotiate"; "negotiation"; "auto";
    "half"; "flow-control";
    "send"; "both";
    "storm-control"; "level" ].

(** Keywords that consume the rest of the line as a value. *)
Definition valueKeywords : list string :=
  [ "description"; "hostname"; "banner"; "remark" ].

Definition statesGood : list string :=
  [ "up"; "connected"; "established";
    "full"; "enabled"; "active";
    "forwarding"; "ok"; "online";
    "running"; "ready"; "complete" ].

Definition statesGoodCompound : list string := [ "up/up" ].

Definition statesBad : list string :=
  [ "down"; "notconnect"; "err-disabled";
    "disabled"; "failed"; "idle";
    "connect"; "opensent"; "openconfirm";
    "error"; "offline"; "unreachable" ].

Definition statesBadCompound : list string :=
  [ "down/down"; "administratively" ].

Definition statesWarning : list string :=
  [ "init"; "2way"; "exstart";
    "exchange"; "loading"; "attempt";
    "flapping"; "pending"; "waiting";
    "starting"; "stopping" ].

Definition statesNeutral : list string :=
  [ "inactive"; "standby"; "backup";
    "suspended"; "n/a"; "none" ].

Definition columnHeaders : list string :=
  [ "interface"; "status"; "protocol";
    "address"; "admin"; "link";
    "speed"; "type"; "duplex";
    "neighbor"; "peer"; "state";
    "as"; "inpkt"; "outpkt";
    "uptime"; "dead"; "pri";
    "mtu"; "metric"; "local";
    "remote"; "outq"; "up/dn";
    "flaps"; "prefixes"; "paths";
    "vlan"; "description" ].

Definition statusSymbols : list string :=
  [ "*"; "+"; "-"; ">";
    "B"; "O"; "I"; "S";
    "L"; "D"; "C"; "R" ].

(** *** Patterns *)

(** The interface family names of [interfacePattern], in source order. *)
Definition interfacePrefixes : list string :=
  [ "GigabitEthernet"; "Gi"; "FastEthernet"; "Fa"; "TenGigabitEthernet";
    "TenGigE"; "Te"; "TwentyFiveGigE"; "TwentyFiveGigabitEthernet";
    "FortyGigabitEthernet"; "Fo"; "HundredGigE"; "Hu"; "Ethernet"; "Eth";
    "Loopback"; "Lo"; "Vlan"; "Vl"; "Port-channel"; "Po"; "Tunnel"; "Tu";
    "Serial"; "Se"; "Null"; "BDI"; "mgmt"; "nve"; "NVE"; "Dialer"; "Di";
    "Virtual-Template"; "Vt"; "Virtual-Access"; "Va"; "Multilink"; "Mu";
    "ATM"; "Cellular"; "Async" ].

(** [^(?i)(GigabitEthernet|Gi|...|Async)\d+(/\d+)*(\.\d+)?$] *)
Definition interfacePattern : re :=
  seq [ alts (map litFold interfacePrefixes);
        plus digit;
        Star (Cat (chr "/") (plus digit));
        opt (Cat (chr ".") (plus digit)) ].

(** [(\d{1,3}\.){3}\d{1,3}] *)
Definition ipv4Body : re :=
  Cat (times 3 (Cat (between 1 3 digit) (chr "."))) (between 1 3 digit).

(** [^(\d{1,3}\.){3}\d{1,3}$] *)
Definition ipv4Pattern : re := ipv4Body.

(** [^(\d{1,3}\.){3}\d{1,3}/\d{1,2}$] *)
Definition ipv4PrefixPattern : re :=
  seq [ ipv4Body; chr "/"; between 1 2 digit ].

(** The three alternatives shared by the two IPv6 patterns:
    [([0-9a-fA-F]{0,4}:){2,7}[0-9a-fA-F]{0,4}],
    [::([0-9a-fA-F]{1,4}:)*[0-9a-fA-F]{0,4}] and
    [[0-9a-fA-F]{1,4}::([0-9a-fA-F]{1,4}:)*[0-9a-fA-F]{0,4}]. *)
Definition ipv6Full : re :=
  Cat (between 2 7 (Cat (between 0 4 hex) (chr ":"))) (between 0 4 hex).
Definition ipv6Leading : re :=
  seq [ lit "::"; Star (Cat (between 1 4 hex) (chr ":")); between 0 4 hex ].
Definition ipv6Inner : re :=
  seq [ between 1 4 hex; lit "::";
        Star (Cat (between 1 4 hex) (chr ":")); between 0 4 hex ].

Definition ipv6Pattern : re := alts [ ipv6Full; ipv6Leading; ipv6Inner ].

Definition ipv6PrefixPattern : re :=
  seq [ alts [ ipv6Full; ipv6Leading; ipv6Inner ]; chr "/"; between 1 3 digit ].

(** [^[0-9a-fA-F]{4}\.[0-9a-fA-F]{4}\.[0-9a-fA-F]{4}$] *)
Definition macPatternCisco : re :=
  seq [ times 4 hex; chr "."; times 4 hex; chr "."; times 4 hex ].

(** [^([0-9a-fA-F]{2}:){5}[0-9a-fA-F]{2}$] *)
Definition macPatternColon : re :=
  Cat (times 5 (Cat (times 2 hex) (chr ":"))) (times 2 hex).

(** [^\d+:\d+$] *)
Definition communityPattern : re := seq [ plus digit; chr ":"; plus digit ].

(** [^[Aa][Ss]\d+$] *)
Definition asnPattern : re :=
  seq [ Cls (fun c => byteEq c "A" || byteEq c "a");
        Cls (fun c => byteEq c "S" || byteEq c "s");
        plus digit ].

(** [^(\d+[wdhms])+$|^\d+:\d{2}(:\d{2})?$] *)
Definition timeDurationPattern : re :=
  Alt
    (plus (Cat (plus digit)
               (Cls (fun c => byteEq c "w" || byteEq c "d" || byteEq c "h"
                              || byteEq c "m" || byteEq c "s"))))
    (seq [ plus digit; chr ":"; times 2 digit; opt (Cat (chr ":") (times 2 digit)) ]).

(** [^\d+(\.\d+)?%$] *)
Definition percentagePattern : re :=
  seq [ plus digit; opt (Cat (chr ".") (plus digit)); chr "%" ].

(** [^\d+(\.\d+)?[KMGTP][Bb]?$] *)
Definition byteSizePattern : re :=
  seq [ plus digit; opt (Cat (chr ".") (plus digit));
        Cls (fun c => byteEq c "K" || byteEq c "M" || byteEq c "G"
                      || byteEq c "T" || byteEq c "P");
        opt (Cls (fun c => byteEq c "B" || byteEq c "b")) ].

(** [^\[(BGP|OSPF|EIGRP|RIP|ISIS|Static|Direct|Local|Connected|Aggregate)/\d+\]$] *)
Definition routeProtocolPattern : re :=
  seq [ chr "[";
        alts (map lit [ "BGP"; "OSPF"; "EIGRP"; "RIP"; "ISIS"; "Static";
                        "Direct"; "Local"; "Connected"; "Aggregate" ]);
        chr "/"; plus digit; chr "]" ].

(** [\w+\s{2,}\w+\s{2,}\w+], searched anywhere in the text. *)
Definition tabularPattern : re :=
  seq [ plus wordByte; atLeast 2 space; plus wordByte; atLeast 2 space; plus wordByte ].

(** *** The prompt pattern

    The pattern is anchored at both ends and has five groups:
    group 1 is [[\s\x00-\x1f]] starred, group 2 is [[\w.-]+], the optional
    group 3 is [\([\w-]+\)], group 4 is [[>#]]; then comes [\s] starred,
    group 5 is the lazy [.*?], and an optional LF ends the text.

    [FindStringSubmatch] needs the five groups, so the pattern is followed
    piece by piece.  Each piece has one way to match: the bytes of a
    greedy class run cannot start the piece after it (a host byte is not
    a leading byte, [(], [>] and [#] are not host bytes), the greedy
    [\s*] takes the whole blank run because the lazy group after it
    cannot cross an LF, and the lazy [(.*?)] stops where only an optional
    final LF is left. *)

Record PromptMatch : Type := mkPromptMatch {
  lead : gostring;      (* matches[1] *)
  host : gostring;      (* matches[2] *)
  mode : gostring;      (* matches[3], empty when the group is absent *)
  promptChar : ascii;   (* matches[4] *)
  command : gostring    (* matches[5] *)
}.

(** [[\s\x00-\x1f]] *)
Definition isLeadByte (c : ascii) : bool := isSpaceByte c || byteIn 0 31 c.
(** [[\w.-]] *)
Definition isHostByte (c : ascii) : bool :=
  isWordByte c || byteEq c "." || byteEq c "-".
(** [[\w-]] *)
Definition isModeByte (c : ascii) : bool := isWordByte c || byteEq c "-".
(** [[>#]] *)
Definition isPromptChar (c : ascii) : bool := byteEq c ">" || byteEq c "#".
(** [.] *)
Definition isDot (c : ascii) : bool := negb (byteEq c LF).

(** [(\([\w-]+\))?]: the group and what follows it. *)
Definition promptModeGroup (r : gostring) : option (gostring * gostring) :=
  match r with
  | c :: r' =>
      if byteEq c "(" then
        let (m, r'') := span isModeByte r' in
        match m, r'' with
        | _ :: _, c' :: rest =>
            if byteEq c' ")" then Some (c :: m ++ [c'], rest) else None
        | _, _ => None
        end
      else Some ([], r)
  | [] => Some ([], r)
  end.

Definition FindStringSubmatch_prompt (input : gostring) : option PromptMatch :=
  let (g1, r1) := span isLeadByte input in
  let (g2, r2) := span isHostByte r1 in
  match g2 with
  | [] => None
  | _ :: _ =>
      match promptModeGroup r2 with
      | None => None
      | Some (g3, r3) =>
          match r3 with
          | c :: r4 =>
              if isPromptChar c then
                let (_, r5) := span isSpaceByte r4 in
                let (g5, r6) := span isDot r5 in
                match r6 with
                | [] => Some (mkPromptMatch g1 g2 g3 c g5)
                | [c'] =>
                    if byteEq c' LF then Some (mkPromptMatch g1 g2 g3 c g5)
                    else None
                | _ => None
                end
              else None
          | [] => None
          end
      end
  end.

(** The same pattern as a regular expression, for [MatchString]. *)
Definition promptPattern : re :=
  seq [ Star (Cls isLeadByte);
        plus (Cls isHostByte);
        opt (seq [ chr "("; plus (Cls isModeByte); chr ")" ]);
        Cls isPromptChar;
        Star space;
        Star (Cls isDot);
        opt (chr LF) ].

(** *** The lexer state *)

Record Lexer : Type := mkLexer {
  input : gostring;
  pos : nat;
  line : nat;
  col : nat;
  parseMode : ParseMode;
  detectedMode : bool;
  expectingValue : bool;  (* set after keywords that consume the rest of the line *)
  lastToken : gostring    (* the last remembered word, lower case *)
}.

Definition setMode (l : Lexer) (m : ParseMode) (detected : bool) : Lexer :=
  mkLexer (input l) (pos l) (line l) (col l) m detected
          (expectingValue l) (lastToken l).

Definition setExpectingValue (l : Lexer) (b : bool) : Lexer :=
  mkLexer (input l) (pos l) (line l) (col l) (parseMode l) (detectedMode l)
          b (lastToken l).

Definition setLastToken (l : Lexer) (w : gostring) : Lexer :=
  mkLexer (input l) (pos l) (line l) (col l) (parseMode l) (detectedMode l)
          (expectingValue l) w.

Definition New (input : gostring) : Lexer :=
  mkLexer input 0 1 1 ParseModeAuto false false [].

Definition SetParseMode (l : Lexer) (m : ParseMode) : Lexer :=
  setMode l m true.

Definition GetParseMode (l : Lexer) : ParseMode := parseMode l.

(** [s[i]], read only below [len(s)]. *)
Definition byteAt (s : gostring) (i : nat) : ascii := nth i s zero.

(** [s[lo:hi]] *)
Definition slice (s : gostring) (lo hi : nat) : gostring :=
  firstn (hi - lo) (skipn lo s).

Definition advance (l : Lexer) : Lexer :=
  if pos l <? length (input l) then
    if byteEq (byteAt (input l) (pos l)) LF then
      mkLexer (input l) (S (pos l)) (S (line l)) 1 (parseMode l)
              (detectedMode l) (expectingValue l) (lastToken l)
    else
      mkLexer (input l) (S (pos l)) (line l) (S (col l)) (parseMode l)
              (detectedMode l) (expectingValue l) (lastToken l)
  else l.

Definition isWhitespace (ch : ascii) : bool :=
  byteEq ch " " || byteEq ch TAB || byteEq ch LF || byteEq ch CR.

Fixpoint isAllDigitsFrom (s : gostring) : bool :=
  match s with
  | [] => true
  | c :: s' => if (code c <? 48) || (57 <? code c) then false
               else isAllDigitsFrom s'
  end.

Definition isAllDigits (s : gostring) : bool :=
  match s with
  | [] => false
  | _ => isAllDigitsFrom s
  end.

(** The loop [for l.pos < len(l.input) && cond(l.input[l.pos]) { l.advance() }].
    Every round moves [pos] by one, so [len(l.input) - l.pos] rounds are
    enough; the callers pass that many. *)
Fixpoint advanceWhile (cond : ascii -> bool) (fuel : nat) (l : Lexer) : Lexer :=
  match fuel with
  | 0 => l
  | S fuel' =>
      if (pos l <? length (input l)) && cond (byteAt (input l) (pos l))
      then advanceWhile cond fuel' (advance l)
      else l
  end.

Definition remaining (l : Lexer) : nat := length (input l) - pos l.

Definition scanComment (l : Lexer) : Token * Lexer :=
  let startLine := line l in
  let startCol := col l in
  let start := pos l in
  let l' := advanceWhile (fun ch => negb (byteEq ch LF)) (remaining l) l in
  (mkToken TokenComment (slice (input l) start (pos l')) startLine startCol, l').

(** The loop of [scanString], after the opening quote. *)
Fixpoint scanStringLoop (quote : ascii) (fuel : nat) (l : Lexer) : Lexer :=
  match fuel with
  | 0 => l
  | S fuel' =>
      if pos l <? length (input l) then
        let ch := byteAt (input l) (pos l) in
        if byteEq ch quote then advance l
        else
          let l1 :=
            if byteEq ch BACKSLASH && (pos l + 1 <? length (input l))
            then advance l else l in
          scanStringLoop quote fuel' (advance l1)
      else l
  end.

Definition scanString (quote : ascii) (l : Lexer) : Token * Lexer :=
  let startLine := line l in
  let startCol := col l in
  let start := pos l in
  let l1 := advance l in
  let l' := scanStringLoop quote (remaining l1) l1 in
  (mkToken TokenString (slice (input l) start (pos l')) startLine startCol, l').

Definition scanValueToEndOfLine (l : Lexer) : Token * Lexer :=
  let startLine := line l in
  let startCol := col l in
  let start := pos l in
  let l' := advanceWhile (fun ch => negb (byteEq ch LF)) (remaining l) l in
  (mkToken TokenValue (slice (input l) start (pos l')) startLine startCol, l').

Definition scanWhitespace (l : Lexer) : Token * Lexer :=
  let startLine := line l in
  let startCol := col l in
  let start := pos l in
  let l' := advanceWhile isWhitespace (remaining l) l in
  (mkToken TokenText (slice (input l) start (pos l')) startLine startCol, l').

(** *** Mode detection *)

Definition ConfigIndicators : list string :=
  [ "hostname "; "interface "; "router "; "ip address ";
    "switchport "; "access-list "; "no "; "line vty";
    "line con"; "service "; "enable "; "username ";
    "ip route "; "snmp-server "; "logging "; "ntp ";
    "crypto "; "aaa "; "spanning-tree "; "vlan ";
    "banner "; "ip access-list " ].

Definition ShowIndicators : list string :=
  [ "line protocol"; "up/up"; "down/down";
    "notconnect"; "err-disabled"; "connected";
    "bgp summary"; "ospf neighbor";
    "show "; "last input"; "last output";
    "5 minute"; "input rate"; "output rate";
    "show version"; "cisco ios" ].

(** The number of indicators found in [lower]: the counting loops of
    [detectParseMode]. *)
Fixpoint countIndicators (inds : list string) (lower : gostring) (score : nat) : nat :=
  match inds with
  | [] => score
  | ind :: inds' =>
      countIndicators inds' lower
        (if strings.Contains lower (bytes ind) then S score else score)
  end.

Definition sampleOf (l : Lexer) : gostring :=
  if parseModeDetectionSampleSize <? length (input l)
  then firstn parseModeDetectionSampleSize (input l)
  else input l.

Definition configScore (sample : gostring) : nat :=
  let lower := strings.ToLower sample in
  let score := countIndicators ConfigIndicators lower 0 in
  if strings.Contains sample (LF :: bytes "!" ++ [LF])
     || strings.HasPrefix sample (bytes "!" ++ [LF])
  then score + 2 else score.

Definition showScore (sample : gostring) : nat :=
  let lower := strings.ToLower sample in
  let score := countIndicators ShowIndicators lower 0 in
  if MatchStringUnanchored tabularPattern sample
  then score + 2 else score.

Definition detectParseMode (l : Lexer) : ParseMode :=
  let sample := sampleOf l in
  let configScore := configScore sample in
  let showScore := showScore sample in
  if (2 <=? showScore) && (configScore <? showScore)
  then ParseModeShow
  else ParseModeConfig.

(** *** Word classification *)

Definition classifySharedPatterns (l : Lexer) (word : gostring) : TokenType :=
  if MatchString interfacePattern word then TokenInterface
  else if MatchString ipv4PrefixPattern word then TokenIPv4Prefix
  else if MatchString ipv4Pattern word then TokenIPv4
  else if MatchString macPatternCisco word then TokenMAC
  else if MatchString macPatternColon word then TokenMAC
  else if streq (lastToken l) (bytes "community")
          && MatchString communityPattern word then TokenCommunity
  else if MatchString ipv6PrefixPattern word then TokenIPv6Prefix
  else if MatchString ipv6Pattern word then TokenIPv6
  else if isAllDigits word then TokenNumber
  else TokenIdentifier.

Definition classifyConfigWord (l : Lexer) (word lower : gostring)
  : TokenType * Lexer :=
  if streq lower (bytes "no") then (TokenNegation, setLastToken l lower)
  else if MatchString asnPattern word then (TokenASN, l)
  else if inSet commands lower then (TokenCommand, setLastToken l lower)
  else if inSet sections lower then (TokenSection, setLastToken l lower)
  else if inSet protocols lower then (TokenProtocol, setLastToken l lower)
  else if inSet actions lower then
    let l1 := if inSet valueKeywords lower
              then setExpectingValue l true else l in
    (TokenAction, setLastToken l1 lower)
  else if inSet operators lower then (TokenOperator, setLastToken l lower)
  else if inSet keywords lower then
    let l1 := if inSet valueKeywords lower
              then setExpectingValue l true else l in
    (TokenKeyword, setLastToken l1 lower)
  else (classifySharedPatterns l word, l).

Definition classifyShowWord (l : Lexer) (word lower : gostring)
  : TokenType * Lexer :=
  if inSet statesGoodCompound lower then (TokenStateGood, l)
  else if inSet statesBadCompound lower then (TokenStateBad, l)
  else if inSet statesGood lower then (TokenStateGood, l)
  else if inSet statesBad lower then (TokenStateBad, l)
  else if inSet statesWarning lower then (TokenStateWarning, l)
  else if inSet statesNeutral lower then (TokenStateNeutral, l)
  else if (length word <=? 2) && inSet statusSymbols word
       then (TokenStatusSymbol, l)
  else if MatchString timeDurationPattern word then (TokenTimeDuration, l)
  else if MatchString percentagePattern word then (TokenPercentage, l)
  else if MatchString byteSizePattern word then (TokenByteSize, l)
  else if MatchString routeProtocolPattern word then (TokenRouteProtocol, l)
  else if inSet columnHeaders lower then (TokenColumnHeader, l)
  else (classifySharedPatterns l word, l).

Definition classifyWord (l : Lexer) (word : gostring) : TokenType * Lexer :=
  let l1 :=
    if parseModeEq (parseMode l) ParseModeAuto && negb (detectedMode l)
    then setMode l (detectParseMode l) true
    else l in
  let lower := strings.ToLower word in
  if parseModeEq (parseMode l1) ParseModeShow
  then classifyShowWord l1 word lower
  else classifyConfigWord l1 word lower.

Definition scanWord (l : Lexer) : Token * Lexer :=
  let startLine := line l in
  let startCol := col l in
  let start := pos l in
  let l1 :=
    advanceWhile
      (fun ch => negb (isWhitespace ch || byteEq ch DQUOTE || byteEq ch "'"))
      (remaining l) l in
  let word := slice (input l) start (pos l1) in
  let (tokenType, l2) := classifyWord l1 word in
  (mkToken tokenType word startLine startCol, l2).

Definition withType (t : Token) (ty : TokenType) : Token :=
  mkToken ty (Value t) (Line t) (Column t).

Definition nextToken (l : Lexer) : Token * Lexer :=
  let startLine := line l in
  let startCol := col l in
  if length (input l) <=? pos l then
    (mkToken TokenText [] startLine startCol, l)
  else
    let ch := byteAt (input l) (pos l) in
    if byteEq ch "!" && (col l =? 1) then scanComment l
    else if byteEq ch DQUOTE then
      let isValue := expectingValue l in
      let (token, l') := scanString DQUOTE (setExpectingValue l false) in
      (if isValue then withType token TokenValue else token, l')
    else if byteEq ch "'" then
      let isValue := expectingValue l in
      let (token, l') := scanString "'" (setExpectingValue l false) in
      (if isValue then withType token TokenValue else token, l')
    else if isWhitespace ch then scanWhitespace l
    else if expectingValue l then
      scanValueToEndOfLine (setExpectingValue l false)
    else scanWord l.

(** *** Tokenize *)

(** The scanning loop of [Tokenize]:
    [for l.pos < len(l.input) { token := l.nextToken(); ... }].
    A token is kept unless it is an empty [TokenText]. *)
Fixpoint scanTokens (fuel : nat) (l : Lexer) (tokens : list Token)
  : list Token * Lexer :=
  match fuel with
  | 0 => (tokens, l)
  | S fuel' =>
      if pos l <? length (input l) then
        let (token, l') := nextToken l in
        let tokens' :=
          if negb (tokenTypeEq (Type_ token) TokenText)
             || negb (streq (Value token) [])
          then tokens ++ [token] else tokens in
        scanTokens fuel' l' tokens'
      else (tokens, l)
  end.

(** The loop of [tryTokenizePrompt] over the re-lexed command tokens:
    each token is moved to the running column. *)
Fixpoint appendCommandTokens (cmdTokens tokens : list Token) (col : nat)
  : list Token * nat :=
  match cmdTokens with
  | [] => (tokens, col)
  | tok :: rest =>
      appendCommandTokens rest
        (tokens ++ [mkToken (Type_ tok) (Value tok) (Line tok) col])
        (col + length (Value tok))
  end.

(** [tryTokenizePrompt], with the [Tokenize] it calls on the command
    lexer passed in as [tokenize].  The outer [None] is Go's [nil] (the
    input is no prompt); the inner [None] is handed up from [tokenize]. *)
Definition tryTokenizePrompt
    (tokenize : Lexer -> option (list Token)) (input : gostring)
  : option (option (list Token)) :=
  match FindStringSubmatch_prompt input with
  | None => None
  | Some matches =>
      let tokens := [] in
      let col := 1 in
      let (tokens, col) :=
        match lead matches with
        | [] => (tokens, col)
        | _ => (tokens ++ [mkToken TokenText (lead matches) 1 col],
                col + length (lead matches))
        end in
      let isConfig := byteEq (promptChar matches) "#" in
      let tokens := tokens ++ [mkToken TokenPromptHost (host matches) 1 col] in
      let col := col + length (host matches) in
      let (tokens, col) :=
        match mode matches with
        | [] => (tokens, col)
        | _ => (tokens ++ [mkToken TokenPromptMode (mode matches) 1 col],
                col + length (mode matches))
        end in
      let promptTokenType :=
        if isConfig then TokenPromptConf else TokenPromptOper in
      let tokens :=
        tokens ++ [mkToken promptTokenType [promptChar matches] 1 col] in
      let col := S col in
      let afterCommand : option (list Token * nat) :=
        match command matches with
        | [] => Some (tokens, col)
        | _ =>
            let tokens := tokens ++ [mkToken TokenText (bytes " ") 1 col] in
            let col := S col in
            let cmdLexer := New (strings.TrimSpace (command matches)) in
            match tokenize cmdLexer with
            | Some cmdTokens => Some (appendCommandTokens cmdTokens tokens col)
            | None => None
            end
        end in
      Some
        (match afterCommand with
         | None => None
         | Some (tokens, col) =>
             if strings.HasSuffix input [LF]
             then Some (tokens ++ [mkToken TokenText [LF] 1 col])
             else Some tokens
         end)
  end.

(** [Tokenize], with a bound on the nesting of command lexers: [None]
    when the bound is reached. *)
Fixpoint TokenizeDepth (depth : nat) (l : Lexer) : option (list Token) :=
  match depth with
  | 0 => None
  | S depth' =>
      match tryTokenizePrompt (TokenizeDepth depth') (input l) with
      | Some promptTokens => promptTokens
      | None => Some (fst (scanTokens (remaining l) l []))
      end
  end.

(** Every command lexer works on a shorter input than its caller, so its
    length plus one bounds the nesting ([Tokenize_total] below). *)
Definition Tokenize (l : Lexer) : option (list Token) :=
  TokenizeDepth (S (length (input l))) l.

Definition IsPrompt (input : gostring) : bool :=
  MatchString promptPattern (strings.TrimSpace input).

End lexer.

(** ** Package highlighter *)

Module highlighter.

Import lexer.

(** *** Themes ([theme.go]) *)

Definition Reset : gostring := ESC :: bytes "[0m".
Definition Bold : gostring := ESC :: bytes "[1m".
Definition Dim : gostring := ESC :: bytes "[2m".
Definition Italic : gostring := ESC :: bytes "[3m".

(** [strconv.Itoa] on a natural number. *)
Definition Itoa (n : nat) : gostring :=
  bytes (DecimalString.NilEmpty.string_of_uint (Nat.to_uint n)).

Definition RGB (r g b : nat) : gostring :=
  ESC :: bytes "[38;2;" ++ Itoa r ++ bytes ";" ++ Itoa g ++ bytes ";"
      ++ Itoa b ++ bytes "m".

Record Palette : Type := mkPalette {
  Foreground : gostring; Comment : gostring;
  Command : gostring; Section_ : gostring; Protocol : gostring;
  Action : gostring; Interface : gostring; IP : gostring;
  Number : gostring; String_ : gostring; Keyword : gostring;
  Operator : gostring; ASN : gostring; Community : gostring;
  Value_ : gostring; MAC : gostring; Negation : gostring;
  StateGood : gostring; StateBad : gostring; StateWarning : gostring;
  Duration : gostring; RouteProtocol : gostring;
  PromptHost : gostring; PromptMode : gostring;
  PromptOper : gostring; PromptConf : gostring
}.

(** The [colors] map of a theme, as the list of its entries. *)
Record Theme : Type := mkTheme {
  colors : list (TokenType * gostring)
}.

Definition buildTheme (p : Palette) : Theme :=
  mkTheme
    [ (TokenCommand, Bold ++ Command p);
      (TokenSection, Bold ++ Section_ p);
      (TokenProtocol, Protocol p);
      (TokenAction, Bold ++ Action p);
      (TokenInterface, Bold ++ Interface p);
      (TokenIPv4, IP p);
      (TokenIPv4Prefix, IP p);
      (TokenIPv6, IP p);
      (TokenIPv6Prefix, IP p);
      (TokenMAC, MAC p);
      (TokenNumber, Number p);
      (TokenString, String_ p);
      (TokenComment, Italic ++ Comment p);
      (TokenIdentifier, Foreground p);
      (TokenKeyword, Keyword p);
      (TokenOperator, Operator p);
      (TokenASN, ASN p);
      (TokenCommunity, Community p);
      (TokenValue, Value_ p);
      (TokenNegation, Bold ++ Negation p);
      (TokenText, []);
      (TokenStateGood, Bold ++ StateGood p);
      (TokenStateBad, Bold ++ StateBad p);
      (TokenStateWarning, Bold ++ StateWarning p);
      (TokenStateNeutral, Dim ++ Comment p);
      (TokenColumnHeader, Bold ++ Foreground p);
      (TokenStatusSymbol, Bold ++ Protocol p);
      (TokenTimeDuration, Duration p);
      (TokenPercentage, StateGood p);
      (TokenByteSize, Protocol p);
      (TokenRouteProtocol, Bold ++ RouteProtocol p);
      (TokenPromptHost, Bold ++ PromptHost p);
      (TokenPromptMode, PromptMode p);
      (TokenPromptOper, Bold ++ PromptOper p);
      (TokenPromptConf, Bold ++ PromptConf p) ].

Definition TokyoNightTheme : Theme :=
  let foreground := RGB 192 202 245 in
  let comment := RGB 86 95 137 in
  let red := RGB 247 118 142 in
  let green := RGB 158 206 106 in
  let yellow := RGB 224 175 104 in
  let blue := RGB 122 162 247 in
  let magenta := RGB 187 154 247 in
  let cyan := RGB 125 207 255 in
  let orange := RGB 255 158 100 in
  let purple := RGB 157 124 216 in
  let teal := RGB 115 218 202 in
  buildTheme
    {| Foreground := foreground; Comment := comment;
       Command := magenta; Section_ := blue; Protocol := cyan;
       Action := green; Interface := orange; IP := teal;
       Number := purple; String_ := green; Keyword := yellow;
       Operator := blue; ASN := orange; Community := magenta;
       Value_ := cyan; MAC := cyan; Negation := red;
       StateGood := green; StateBad := red; StateWarning := yellow;
       Duration := orange; RouteProtocol := purple;
       PromptHost := teal; PromptMode := yellow;
       PromptOper := green; PromptConf := red |}.

Definition DefaultTheme : Theme := TokyoNightTheme.

(** *** The other styles and themes of [theme.go] *)

Definition Underline : gostring := ESC :: bytes "[4m".

(** Foreground colours and their bright variants. *)
Definition Black : gostring := ESC :: bytes "[30m".
Definition Red : gostring := ESC :: bytes "[31m".
Definition Green : gostring := ESC :: bytes "[32m".
Definition Blue : gostring := ESC :: bytes "[34m".











Definition ThemeNames : list string :=
  [ "tokyonight"; "vibrant"; "solarized"; "monokai"; "nord"; "catppuccin";
    "dracula"; "gruvbox"; "onedark" ].


(** [GetColor]: the entry of the map, or the empty string. *)
Fixpoint lookupColor (m : list (TokenType * gostring)) (ty : TokenType)
  : gostring :=
  match m with
  | [] => []
  | (k, color) :: m' => if tokenTypeEq k ty then color else lookupColor m' ty
  end.

Definition GetColor (t : Theme) (tokenType : TokenType) : gostring :=
  lookupColor (colors t) tokenType.

Definition SetColor (t : Theme) (tokenType : TokenType) (color : gostring)
  : Theme :=
  mkTheme ((tokenType, color) :: colors t).

(** *** The highlighter ([highlighter.go]); the mutex guards the two
    fields and has no part in a sequential model. *)

Record Highlighter : Type := mkHighlighter {
  theme : Theme;
  enabled : bool
}.

Definition New : Highlighter := mkHighlighter DefaultTheme true.
Definition NewWithTheme (t : Theme) : Highlighter := mkHighlighter t true.
Definition SetTheme (h : Highlighter) (t : Theme) : Highlighter :=
  mkHighlighter t (enabled h).
Definition Enable (h : Highlighter) : Highlighter :=
  mkHighlighter (theme h) true.
Definition Disable (h : Highlighter) : Highlighter :=
  mkHighlighter (theme h) false.
Definition IsEnabled (h : Highlighter) : bool := enabled h.
(** [Toggle] returns the new state next to the updated highlighter. *)
Definition Toggle (h : Highlighter) : bool * Highlighter :=
  (negb (enabled h), mkHighlighter (theme h) (negb (enabled h))).

(** *** Escape sequences *)

Record segment : Type := mkSegment {
  text : gostring;
  isEscape : bool
}.

Definition csiParamStart : nat := 32.
Definition csiParamEnd : nat := 63.
Definition csiFinalStart : nat := 64.
Definition csiFinalEnd : nat := 126.
Definition csiIntermEnd : nat := 47.
Definition escapeChar : ascii := ESC.
Definition csiBracket : ascii := "[".

Definition isCSIParamByte (b : ascii) : bool := byteIn csiParamStart csiParamEnd b.
Definition isCSIFinalByte (b : ascii) : bool := byteIn csiFinalStart csiFinalEnd b.
Definition isCSIIntermediateByte (b : ascii) : bool :=
  byteIn csiParamStart csiIntermEnd b.

(** [for i < len(input) && p(input[i]) { i++ }] *)
Fixpoint skipWhile (p : ascii -> bool) (fuel : nat) (input : gostring) (i : nat)
  : nat :=
  match fuel with
  | 0 => i
  | S fuel' =>
      if (i <? length input) && p (byteAt input i)
      then skipWhile p fuel' input (S i)
      else i
  end.

Definition skipCSISequence (input : gostring) (i : nat) : nat :=
  let i := skipWhile isCSIParamByte (length input - i) input i in
  if (i <? length input) && isCSIFinalByte (byteAt input i) then S i else i.

Definition skipOtherEscapeSequence (input : gostring) (i : nat) : nat :=
  let i := skipWhile isCSIIntermediateByte (length input - i) input i in
  if i <? length input then S i else i.

(** Flushing of the text buffer before an escape segment. *)
Definition flushText (segments : list segment) (textBuf : gostring)
  : list segment :=
  match textBuf with
  | [] => segments
  | _ => segments ++ [mkSegment textBuf false]
  end.

(** The loop of [extractSegments]; every round moves [i] forward, so
    [len(input)] rounds are enough. *)
Fixpoint extractLoop (fuel : nat) (input : gostring) (i : nat)
    (segments : list segment) (textBuf : gostring)
  : list segment * gostring :=
  match fuel with
  | 0 => (segments, textBuf)
  | S fuel' =>
      if i <? length input then
        if byteEq (byteAt input i) escapeChar && (i + 1 <? length input) then
          if byteEq (byteAt input (i + 1)) csiBracket then
            let segments := flushText segments textBuf in
            let start := i in
            let i := skipCSISequence input (i + 2) in
            extractLoop fuel' input i
              (segments ++ [mkSegment (slice input start i) true]) []
          else
            let segments := flushText segments textBuf in
            let start := i in
            let i := skipOtherEscapeSequence input (i + 1) in
            extractLoop fuel' input i
              (segments ++ [mkSegment (slice input start i) true]) []
        else
          extractLoop fuel' input (S i) segments (textBuf ++ [byteAt input i])
      else (segments, textBuf)
  end.

Definition extractSegments (input : gostring) : list segment :=
  let (segments, textBuf) := extractLoop (length input) input 0 [] [] in
  flushText segments textBuf.

Fixpoint stripLoop (fuel : nat) (input : gostring) (i : nat) (buf : gostring)
  : gostring :=
  match fuel with
  | 0 => buf
  | S fuel' =>
      if i <? length input then
        if byteEq (byteAt input i) escapeChar && (i + 1 <? length input)
           && byteEq (byteAt input (i + 1)) csiBracket
        then stripLoop fuel' input (skipCSISequence input (i + 2)) buf
        else if byteEq (byteAt input i) escapeChar
        then stripLoop fuel' input (skipOtherEscapeSequence input (i + 1)) buf
        else stripLoop fuel' input (S i) (buf ++ [byteAt input i])
      else buf
  end.

Definition StripANSI (input : gostring) : gostring :=
  stripLoop (length input) input 0 [].

Definition HasANSI (input : gostring) : bool :=
  strings.Contains input (ESC :: bytes "[").

(** *** Rendering *)

(** The loop of [renderTokens] over its buffer. *)
Fixpoint renderLoop (theme : Theme) (tokens : list Token) (buf : gostring)
  : gostring :=
  match tokens with
  | [] => buf
  | token :: rest =>
      let color := GetColor theme (Type_ token) in
      renderLoop theme rest
        (match color with
         | [] => buf ++ Value token
         | _ => buf ++ color ++ Value token ++ Reset
         end)
  end.

Definition renderTokens (h : Highlighter) (tokens : list Token) : gostring :=
  renderLoop (theme h) tokens [].

(** [Tokenize] always returns its tokens ([Tokenize_total]); the second
    branch is there for the type only. *)
Definition tokensOf (l : Lexer) : list Token :=
  match Tokenize l with
  | Some tokens => tokens
  | None => []
  end.

Definition highlightTokensCleaned (h : Highlighter) (cleaned : gostring)
  : gostring :=
  let lex := lexer.New cleaned in
  let tokens := tokensOf lex in
  renderTokens h tokens.

(** The loop of [highlightTokens] over its buffer. *)
Fixpoint highlightLoop (h : Highlighter) (segments : list segment)
    (buf : gostring) : gostring :=
  match segments with
  | [] => buf
  | seg :: rest =>
      highlightLoop h rest
        (if isEscape seg then buf ++ text seg
         else buf ++ highlightTokensCleaned h (text seg))
  end.

Definition highlightTokens (h : Highlighter) (input : gostring) : gostring :=
  let segments := extractSegments input in
  highlightLoop h segments [].

(** *** The heuristic gate *)

Definition ciscoSpecificKeywords : list string :=
  [ "switchport mode"; "ip address "; "ip route ";
    "router ospf"; "router bgp"; "router eigrp";
    "transport input"; "exec-timeout";
    "channel-group"; "spanning-tree portfast" ].

Definition isValidHostname (s : gostring) : bool :=
  match s with
  | [] => false
  | _ =>
      forallb (fun ch => byteIn 97 122 ch || byteIn 65 90 ch
                         || byteIn 48 57 ch || byteEq ch "-"
                         || byteEq ch "." || byteEq ch "_") s
  end.

Definition isPromptLine (input : gostring) : bool :=
  if IsPrompt input then true
  else
    let trimmed := strings.TrimSpace input in
    if 1 <? length trimmed then
      let last := byteAt trimmed (length trimmed - 1) in
      if byteEq last ">" || byteEq last "#" then
        let prefix := slice trimmed 0 (length trimmed - 1) in
        let prefix :=
          match strings.LastIndexByte prefix ")" with
          | Some _ =>
              match strings.LastIndexByte prefix "(" with
              | Some pIdx => slice prefix 0 pIdx
              | None => prefix
              end
          | None => prefix
          end in
        (0 <? length prefix) && isValidHostname prefix
      else false
    else false.

Definition hasConfigIndicators (lower : gostring) : bool :=
  existsb (fun indicator => strings.Contains lower (bytes indicator))
          ConfigIndicators.

Definition hasShowIndicators (lower : gostring) : bool :=
  existsb (fun indicator => strings.Contains lower (bytes indicator))
          ShowIndicators.

(** The loop of [hasCiscoSeparators], one line a round. *)
Fixpoint separatorLoop (fuel : nat) (input : gostring) (i bangCount : nat)
  : bool :=
  match fuel with
  | 0 => false
  | S fuel' =>
      if i <? length input then
        let lineStart := i in
        let '(line, i) :=
          match strings.IndexByte (skipn i input) LF with
          | None => (slice input lineStart (length input), length input)
          | Some e => (slice input lineStart (lineStart + e),
                       lineStart + e + 1)
          end in
        if streq (strings.TrimSpace line) (bytes "!") then
          if 2 <=? S bangCount then true
          else separatorLoop fuel' input i (S bangCount)
        else separatorLoop fuel' input i bangCount
      else false
  end.

Definition hasCiscoSeparators (input : gostring) : bool :=
  separatorLoop (length input) input 0 0.

Definition hasCiscoKeywords (lower : gostring) : bool :=
  existsb (fun kw => strings.Contains lower (bytes kw)) ciscoSpecificKeywords.

Definition looksLikeCisco (h : Highlighter) (input : gostring) : bool :=
  if isPromptLine input then true
  else
    let lower := strings.ToLower input in
    if hasConfigIndicators lower then true
    else if hasShowIndicators lower then true
    else if hasCiscoSeparators input then true
    else if hasCiscoKeywords lower then true
    else false.

(** *** Entry points *)

Definition isEmpty (s : gostring) : bool :=
  match s with [] => true | _ => false end.

Definition Highlight (h : Highlighter) (input : gostring) : gostring :=
  if negb (IsEnabled h) || isEmpty input then input
  else
    let cleaned := StripANSI input in
    if negb (looksLikeCisco h cleaned) then input
    else highlightTokensCleaned h cleaned.

Definition HighlightForced (h : Highlighter) (input : gostring) : gostring :=
  if negb (IsEnabled h) || isEmpty input then input
  else highlightTokens h input.

Definition HighlightShowOutput (h : Highlighter) (input : gostring)
  : gostring :=
  if negb (IsEnabled h) || isEmpty input then input
  else
    let lex := lexer.New input in
    let lex := SetParseMode lex ParseModeShow in
    let tokens := tokensOf lex in
    renderTokens h tokens.

Definition HighlightLines (h : Highlighter) (lines : list gostring)
  : list gostring :=
  map (Highlight h) lines.

End highlighter.

Import regexp lexer highlighter.

(** ** Inputs named in the specification *)

(** Lines joined by LF, no LF after the last one. *)
Fixpoint joinLines (lines : list string) : gostring :=
  match lines with
  | [] => []
  | [x] => bytes x
  | x :: rest => bytes x ++ LF :: joinLines rest
  end.

(** The configuration sample of the mode-detection scenario. *)
Definition configSample : gostring :=
  joinLines [ "!"; "hostname router"; "!";
              "interface GigabitEthernet0/0/0";
              " ip address 10.0.0.1 255.255.255.0"; "!" ].

(** The types and values of a token list, for reading results. *)
Definition summary (tokens : list Token) : list (TokenType * gostring) :=
  map (fun t => (Type_ t, Value t)) tokens.

(** The concatenation of the [Value] fields. *)
Definition concatValues (tokens : list Token) : gostring :=
  concat (map Value tokens).

Definition hasType (ty : TokenType) (tokens : list Token) : bool :=
  existsb (fun t => tokenTypeEq (Type_ t) ty) tokens.

(** The control sequences of the specification's segmenter rule, written
    from its words and not from the code: the escape introducer and a
    bracket, a run of parameter bytes, then one final byte; or the escape
    introducer not followed by a bracket, a run of intermediate bytes,
    then the one byte that ends the run. *)
Definition specControlSequence (x : gostring) : bool :=
  match x with
  | e :: b :: body =>
      byteEq e ESC
      && (if byteEq b "["
          then let (_, r) := span isCSIParamByte body in
               match r with
               | [f] => isCSIFinalByte f
               | _ => false
               end
          else let (_, r) := span isCSIIntermediateByte (b :: body) in
               match r with
               | [_] => true
               | _ => false
               end)
  | _ => false
  end.

(** A control sequence cut short: the bracket form with parameter bytes
    and no final byte, or the other form with intermediate bytes and no
    byte after them. *)
Definition specTruncated (x : gostring) : bool :=
  match x with
  | e :: b :: body =>
      byteEq e ESC
      && (if byteEq b "["
          then forallb isCSIParamByte body
          else forallb isCSIIntermediateByte (b :: body))
  | _ => false
  end.

(** The segments with the offset each one starts at. *)
Fixpoint located (start : nat) (segments : list segment)
  : list (nat * segment) :=
  match segments with
  | [] => []
  | seg :: rest => (start, seg) :: located (start + length (text seg)) rest
  end.

Unset Implicit Arguments.

(** * Properties *)

(** ** The enabled flag *)

Lemma disabled_returns_input : forall h input,
  IsEnabled h = false ->
  Highlight h input = input /\ HighlightForced h input = input
  /\ HighlightShowOutput h input = input.
Proof.
  intros h input Hd.
  unfold Highlight, HighlightForced, HighlightShowOutput.
  rewrite Hd. simpl. auto.
Qed.

(** C10. A highlighter switched off by [Disable], or by [Toggle] from the
    enabled state, returns every input unchanged from [Highlight],
    [HighlightForced] and [HighlightShowOutput]; so does any highlighter,
    enabled or not, on the empty input. *)
Theorem disabled_or_empty_unchanged : forall h input,
  (Highlight (Disable h) input = input
   /\ HighlightForced (Disable h) input = input
   /\ HighlightShowOutput (Disable h) input = input)
  /\ (fst (Toggle (Enable h)) = false
      /\ Highlight (snd (Toggle (Enable h))) input = input
      /\ HighlightForced (snd (Toggle (Enable h))) input = input
      /\ HighlightShowOutput (snd (Toggle (Enable h))) input = input)
  /\ (Highlight h [] = [] /\ HighlightForced h [] = []
      /\ HighlightShowOutput h [] = []).
Proof.
  intros h input. split; [|split].
  - apply disabled_returns_input. reflexivity.
  - split; [reflexivity|]. apply disabled_returns_input. reflexivity.
  - unfold Highlight, HighlightForced, HighlightShowOutput.
    rewrite orb_true_r. auto.
Qed.

(** ** The mode detector *)

Lemma configSample_is_config :
  detectParseMode (lexer.New configSample) = ParseModeConfig.
Proof. vm_compute. reflexivity. Qed.

(** C5. [detectParseMode] answers Show exactly when the show score is at
    least 2 and above the config score, and Config in every other case, so
    on a tie and on a show score below 2; on the configuration sample of
    the specification it answers Config. *)
Theorem detectParseMode_rule : forall l,
  (detectParseMode l = ParseModeShow <->
     (2 <= showScore (sampleOf l)
      /\ configScore (sampleOf l) < showScore (sampleOf l)))
  /\ (detectParseMode l = ParseModeConfig <->
        ~ (2 <= showScore (sampleOf l)
           /\ configScore (sampleOf l) < showScore (sampleOf l)))
  /\ (showScore (sampleOf l) = configScore (sampleOf l) ->
      detectParseMode l = ParseModeConfig)
  /\ (showScore (sampleOf l) < 2 -> detectParseMode l = ParseModeConfig)
  /\ detectParseMode (lexer.New configSample) = ParseModeConfig.
Proof.
  intros l. unfold detectParseMode.
  generalize (configScore (sampleOf l)) as c.
  generalize (showScore (sampleOf l)) as s.
  intros s c.
  split; [|split; [|split; [|split]]].
  - destruct (Nat.leb_spec 2 s); destruct (Nat.ltb_spec c s); cbn [andb];
      split; intros HH; try discriminate; try reflexivity; lia.
  - destruct (Nat.leb_spec 2 s); destruct (Nat.ltb_spec c s); cbn [andb];
      split; intros HH; try discriminate; try reflexivity; try lia;
      exfalso; apply HH; lia.
  - intros E. subst s. rewrite Nat.ltb_irrefl, andb_false_r. reflexivity.
  - intros E. apply Nat.leb_gt in E. rewrite E. reflexivity.
  - exact configSample_is_config.
Qed.

(** ** Word classification *)

Lemma byteEq_eq : forall a b, byteEq a b = true -> a = b.
Proof. intros a b H. apply Ascii.eqb_eq. exact H. Qed.

Lemma streq_eq : forall a b, streq a b = true -> a = b.
Proof.
  induction a as [|x a IH]; intros [|y b] H; simpl in H;
    try discriminate; try reflexivity.
  apply andb_true_iff in H. destruct H as [H1 H2].
  apply byteEq_eq in H1. apply IH in H2. congruence.
Qed.

(** The lexer [classifyWord] classifies with: the receiver after the
    one-time resolution of the Auto mode. *)
Definition resolveMode (l : Lexer) : Lexer :=
  if parseModeEq (parseMode l) ParseModeAuto && negb (detectedMode l)
  then setMode l (detectParseMode l) true
  else l.

Lemma classifyWord_unfold : forall l word,
  classifyWord l word =
  if parseModeEq (parseMode (resolveMode l)) ParseModeShow
  then classifyShowWord (resolveMode l) word (strings.ToLower word)
  else classifyConfigWord (resolveMode l) word (strings.ToLower word).
Proof. reflexivity. Qed.

Lemma resolveMode_lastToken : forall l,
  lastToken (resolveMode l) = lastToken l.
Proof.
  intros l. unfold resolveMode.
  destruct (parseModeEq (parseMode l) ParseModeAuto && negb (detectedMode l));
    reflexivity.
Qed.

Ltac split_ifs :=
  repeat match goal with
         | |- context [if ?b then _ else _] => destruct b eqn:?
         end.

Lemma classifySharedPatterns_interface : forall l word,
  classifySharedPatterns l word = TokenInterface <->
  MatchString interfacePattern word = true.
Proof.
  intros l word. unfold classifySharedPatterns.
  destruct (MatchString interfacePattern word).
  - split; reflexivity.
  - split; [|discriminate]. split_ifs; discriminate.
Qed.

Lemma classifySharedPatterns_community : forall l word,
  classifySharedPatterns l word = TokenCommunity ->
  lastToken l = bytes "community"
  /\ MatchString communityPattern word = true.
Proof.
  intros l word. unfold classifySharedPatterns.
  destruct (MatchString interfacePattern word); [discriminate|].
  destruct (MatchString ipv4PrefixPattern word); [discriminate|].
  destruct (MatchString ipv4Pattern word); [discriminate|].
  destruct (MatchString macPatternCisco word); [discriminate|].
  destruct (MatchString macPatternColon word); [discriminate|].
  destruct (streq (lastToken l) (bytes "community")) eqn:Hl;
    destruct (MatchString communityPattern word); cbn [andb];
    try (split_ifs; discriminate).
  intros _. split; [apply streq_eq; exact Hl | reflexivity].
Qed.

Lemma classifyConfigWord_shared : forall l word lower ty,
  fst (classifyConfigWord l word lower) = ty ->
  In ty [TokenInterface; TokenCommunity] ->
  classifySharedPatterns l word = ty.
Proof.
  intros l word lower ty H Hin. unfold classifyConfigWord in H.
  revert H. split_ifs; cbn [fst]; intros H; subst ty;
    try reflexivity; simpl in Hin; intuition discriminate.
Qed.

Lemma classifyShowWord_shared : forall l word lower ty,
  fst (classifyShowWord l word lower) = ty ->
  In ty [TokenInterface; TokenCommunity] ->
  classifySharedPatterns l word = ty.
Proof.
  intros l word lower ty H Hin. unfold classifyShowWord in H.
  revert H. split_ifs; cbn [fst]; intros H; subst ty;
    try reflexivity; simpl in Hin; intuition discriminate.
Qed.

Lemma classifyWord_shared : forall l word ty,
  fst (classifyWord l word) = ty ->
  In ty [TokenInterface; TokenCommunity] ->
  classifySharedPatterns (resolveMode l) word = ty.
Proof.
  intros l word ty H Hin. rewrite classifyWord_unfold in H.
  destruct (parseModeEq (parseMode (resolveMode l)) ParseModeShow).
  - eapply classifyShowWord_shared; eassumption.
  - eapply classifyConfigWord_shared; eassumption.
Qed.

(** Evaluation of a classifier on a given word and any lexer: the only
    part of the lexer the result may wait for is the community context. *)
Ltac classify_eval :=
  intros;
  unfold classifyConfigWord, classifyShowWord, classifySharedPatterns;
  try match goal with
      | |- context [streq (lastToken ?l) ?k] =>
          generalize (streq (lastToken l) k); intro
      end;
  vm_compute;
  repeat match goal with b : bool |- _ => destruct b end;
  reflexivity.

Lemma classifyWord_by_cases : forall l word ty,
  (forall l', fst (classifyShowWord l' word (strings.ToLower word)) = ty) ->
  (forall l', fst (classifyConfigWord l' word (strings.ToLower word)) = ty) ->
  fst (classifyWord l word) = ty.
Proof.
  intros l word ty Hs Hc. rewrite classifyWord_unfold.
  destruct (parseModeEq (parseMode (resolveMode l)) ParseModeShow); auto.
Qed.

Ltac classifyWord_eval :=
  intros; apply classifyWord_by_cases; classify_eval.

(** C8. In every lexer state and mode, [classifyWord] gives Interface to
    GigabitEthernet0/0/0.100, Gi0/0/0.10, Po1, Lo0 and BDI1, and
    Identifier, so not Interface, to Ethernet; no interface family name
    without digits after it matches the interface pattern. *)
Theorem interface_grammar : forall l,
  fst (classifyWord l (bytes "GigabitEthernet0/0/0.100")) = TokenInterface
  /\ fst (classifyWord l (bytes "Gi0/0/0.10")) = TokenInterface
  /\ fst (classifyWord l (bytes "Po1")) = TokenInterface
  /\ fst (classifyWord l (bytes "Lo0")) = TokenInterface
  /\ fst (classifyWord l (bytes "BDI1")) = TokenInterface
  /\ fst (classifyWord l (bytes "Ethernet")) = TokenIdentifier
  /\ fst (classifyWord l (bytes "Ethernet")) <> TokenInterface
  /\ Forall (fun p => MatchString interfacePattern (bytes p) = false)
            interfacePrefixes.
Proof.
  intros l.
  assert (He : fst (classifyWord l (bytes "Ethernet")) = TokenIdentifier)
    by classifyWord_eval.
  repeat split; try classifyWord_eval; try exact He.
  - rewrite He. discriminate.
  - unfold interfacePrefixes. repeat constructor.
Qed.

(** ** The community context *)

(** C6. A word is classified Community only when the remembered last
    word is [community] (and the word is digits, colon, digits).
    Tokenizing 12:00 or 3:45 alone, in the automatic mode or with either
    mode set, yields no Community token; tokenizing
    [community 65000:100] yields Keyword, Text, Community. *)
Theorem community_gate :
  (forall l word,
     fst (classifyWord l word) = TokenCommunity ->
     lastToken l = bytes "community"
     /\ MatchString communityPattern word = true)
  /\ (forall l, In l [ lexer.New (bytes "12:00");
                       SetParseMode (lexer.New (bytes "12:00")) ParseModeConfig;
                       SetParseMode (lexer.New (bytes "12:00")) ParseModeShow;
                       lexer.New (bytes "3:45");
                       SetParseMode (lexer.New (bytes "3:45")) ParseModeConfig;
                       SetParseMode (lexer.New (bytes "3:45")) ParseModeShow ] ->
                 option_map (hasType TokenCommunity) (Tokenize l) = Some false)
  /\ option_map summary (Tokenize (lexer.New (bytes "community 65000:100")))
     = Some [ (TokenKeyword, bytes "community"); (TokenText, bytes " ");
              (TokenCommunity, bytes "65000:100") ].
Proof.
  split; [|split].
  - intros l word H.
    apply classifyWord_shared in H; [|simpl; auto].
    apply classifySharedPatterns_community in H.
    rewrite resolveMode_lastToken in H. exact H.
  - intros l Hin. simpl in Hin.
    repeat (destruct Hin as [<-|Hin]; [vm_compute; reflexivity|]).
    contradiction.
  - vm_compute. reflexivity.
Qed.

Lemma community_gate_witness :
  let l := setLastToken (lexer.New (bytes "community 65000:100"))
                        (bytes "community") in
  lastToken l = bytes "community"
  /\ MatchString communityPattern (bytes "65000:100") = true.
Proof.
  apply (proj1 community_gate). vm_compute. reflexivity.
Defined.

(** ** Value-consuming keywords *)

(** C2, at the inputs where the code departs from it.  [hostname] and
    [banner] are members of [commands], which [classifyConfigWord] tests
    before it reaches the two branches that consult [valueKeywords]: the
    flag is left as it was, and the text after either word is lexed as
    ordinary words.  [description] and [remark] do set the flag. *)
Theorem hostname_banner_leave_flag : forall l,
  classifyConfigWord l (bytes "hostname") (bytes "hostname")
    = (TokenCommand, setLastToken l (bytes "hostname"))
  /\ classifyConfigWord l (bytes "banner") (bytes "banner")
    = (TokenCommand, setLastToken l (bytes "banner"))
  /\ expectingValue
       (snd (classifyConfigWord (setExpectingValue l false)
                                (bytes "hostname") (bytes "hostname"))) = false
  /\ expectingValue
       (snd (classifyConfigWord (setExpectingValue l false)
                                (bytes "banner") (bytes "banner"))) = false
  /\ expectingValue
       (snd (classifyConfigWord l (bytes "description") (bytes "description")))
     = true
  /\ expectingValue
       (snd (classifyConfigWord l (bytes "remark") (bytes "remark"))) = true
  /\ option_map summary
       (Tokenize (SetParseMode (lexer.New (bytes "hostname core-router-01"))
                               ParseModeConfig))
     = Some [ (TokenCommand, bytes "hostname"); (TokenText, bytes " ");
              (TokenIdentifier, bytes "core-router-01") ]
  /\ option_map summary
       (Tokenize (SetParseMode (lexer.New (bytes "banner motd ^"))
                               ParseModeConfig))
     = Some [ (TokenCommand, bytes "banner"); (TokenText, bytes " ");
              (TokenIdentifier, bytes "motd"); (TokenText, bytes " ");
              (TokenIdentifier, bytes "^") ]
  /\ option_map summary
       (Tokenize (SetParseMode (lexer.New (bytes "description Uplink to ISP"))
                               ParseModeConfig))
     = Some [ (TokenKeyword, bytes "description"); (TokenText, bytes " ");
              (TokenValue, bytes "Uplink to ISP") ].
Proof.
  intros l. repeat split; try (vm_compute; reflexivity).
Qed.

(** ** Losslessness on the prompt path *)

(** C1, at an input where the code departs from it.  [Router#show]
    matches the prompt pattern; the tokens are the host, the prompt
    character, a separating blank the input does not hold, and the
    re-lexed command, so their values concatenate to [Router# show].
    Blanks around the command are dropped in the same way. *)
Theorem prompt_path_not_lossless :
  option_map summary (Tokenize (lexer.New (bytes "Router#show")))
    = Some [ (TokenPromptHost, bytes "Router"); (TokenPromptConf, bytes "#");
             (TokenText, bytes " "); (TokenCommand, bytes "show") ]
  /\ option_map concatValues (Tokenize (lexer.New (bytes "Router#show")))
     = Some (bytes "Router# show")
  /\ option_map concatValues (Tokenize (lexer.New (bytes "Router#show")))
     <> Some (bytes "Router#show")
  /\ option_map concatValues (Tokenize (lexer.New (bytes "Router>   show ip route  ")))
     = Some (bytes "Router> show ip route").
Proof.
  repeat split; try (vm_compute; reflexivity).
  vm_compute. discriminate.
Qed.

(** ** What scanning leaves alone *)

(** [l'] differs from [l] in the cursor at most. *)
Definition sameContext (l l' : Lexer) : Prop :=
  input l' = input l /\ parseMode l' = parseMode l
  /\ detectedMode l' = detectedMode l
  /\ expectingValue l' = expectingValue l /\ lastToken l' = lastToken l.

Lemma sameContext_refl : forall l, sameContext l l.
Proof. intros l. repeat split. Qed.

Lemma sameContext_trans : forall a b c,
  sameContext a b -> sameContext b c -> sameContext a c.
Proof.
  unfold sameContext. intros a b c H1 H2.
  destruct H1 as (?&?&?&?&?), H2 as (?&?&?&?&?).
  repeat split; congruence.
Qed.

Lemma advance_context : forall l, sameContext l (advance l).
Proof.
  intros l. unfold advance.
  destruct (pos l <? length (input l)); [|apply sameContext_refl].
  destruct (byteEq (byteAt (input l) (pos l)) LF); repeat split.
Qed.

Lemma advanceWhile_context : forall cond fuel l,
  sameContext l (advanceWhile cond fuel l).
Proof.
  intros cond fuel. induction fuel as [|fuel IH]; intros l; simpl.
  - apply sameContext_refl.
  - destruct ((pos l <? length (input l)) && cond (byteAt (input l) (pos l))).
    + eapply sameContext_trans; [apply advance_context | apply IH].
    + apply sameContext_refl.
Qed.

Lemma scanStringLoop_context : forall quote fuel l,
  sameContext l (scanStringLoop quote fuel l).
Proof.
  intros quote fuel. induction fuel as [|fuel IH]; intros l; simpl.
  - apply sameContext_refl.
  - destruct (pos l <? length (input l)); [|apply sameContext_refl].
    destruct (byteEq (byteAt (input l) (pos l)) quote);
      [apply advance_context|].
    destruct (byteEq (byteAt (input l) (pos l)) BACKSLASH
              && (pos l + 1 <? length (input l))).
    + eapply sameContext_trans; [apply advance_context|].
      eapply sameContext_trans; [apply advance_context | apply IH].
    + eapply sameContext_trans; [apply advance_context | apply IH].
Qed.

Lemma detectParseMode_input : forall l l',
  input l' = input l -> detectParseMode l' = detectParseMode l.
Proof.
  intros l l' H. unfold detectParseMode, sampleOf. rewrite H. reflexivity.
Qed.

(** ** Mode stability *)

(** What one call does to the mode: nothing, or the one resolution of an
    undetected Auto. *)
Definition modeStep (l l' : Lexer) : Prop :=
  input l' = input l
  /\ ((parseMode l' = parseMode l /\ detectedMode l' = detectedMode l)
      \/ (parseMode l = ParseModeAuto /\ detectedMode l = false
          /\ parseMode l' = detectParseMode l /\ detectedMode l' = true)).

Lemma sameContext_modeStep : forall l l', sameContext l l' -> modeStep l l'.
Proof.
  intros l l' (Hi & Hp & Hd & _). split; [exact Hi | left; auto].
Qed.

Lemma modeStep_after_context : forall a b c,
  sameContext a b -> modeStep b c -> modeStep a c.
Proof.
  intros a b c (Hi & Hp & Hd & _) (Hi' & H). split; [congruence|].
  destruct H as [[? ?]|(?&?&?&?)].
  - left. split; congruence.
  - right. repeat split; try congruence.
    rewrite <- (detectParseMode_input a b Hi). assumption.
Qed.

Lemma resolveMode_modeStep : forall l, modeStep l (resolveMode l).
Proof.
  intros l. unfold resolveMode.
  destruct (parseModeEq (parseMode l) ParseModeAuto && negb (detectedMode l))
    eqn:H.
  - apply andb_true_iff in H. destruct H as [Hm Hd].
    apply negb_true_iff in Hd.
    split; [reflexivity|]. right.
    repeat split; try assumption.
    destruct (parseMode l); try discriminate. reflexivity.
  - split; [reflexivity|]. left. split; reflexivity.
Qed.

Lemma classifyConfigWord_context : forall l word lower,
  let l' := snd (classifyConfigWord l word lower) in
  input l' = input l /\ parseMode l' = parseMode l
  /\ detectedMode l' = detectedMode l.
Proof.
  intros l word lower. unfold classifyConfigWord.
  split_ifs; repeat split.
Qed.

Lemma classifyShowWord_context : forall l word lower,
  snd (classifyShowWord l word lower) = l.
Proof.
  intros l word lower. unfold classifyShowWord. split_ifs; reflexivity.
Qed.

Lemma classifyWord_modeStep : forall l word,
  modeStep l (snd (classifyWord l word)).
Proof.
  intros l word. rewrite classifyWord_unfold.
  pose proof (resolveMode_modeStep l) as (Hi & H).
  destruct (parseModeEq (parseMode (resolveMode l)) ParseModeShow).
  - rewrite classifyShowWord_context. split; assumption.
  - destruct (classifyConfigWord_context (resolveMode l) word
                (strings.ToLower word)) as (Hi' & Hp & Hd).
    split; [congruence|]. rewrite Hp, Hd. exact H.
Qed.

Lemma setExpectingValue_context_mode : forall l b,
  modeStep l (setExpectingValue l b).
Proof. intros l b. split; [reflexivity | left; split; reflexivity]. Qed.

Lemma modeStep_then_context : forall a b c,
  modeStep a b -> sameContext b c -> modeStep a c.
Proof.
  intros a b c (Hi & H) (Hi' & Hp & Hd & _). split; [congruence|].
  rewrite Hp, Hd. exact H.
Qed.

Lemma nextToken_modeStep : forall l, modeStep l (snd (nextToken l)).
Proof.
  intros l. unfold nextToken.
  destruct (length (input l) <=? pos l);
    [apply sameContext_modeStep, sameContext_refl|].
  destruct (byteEq (byteAt (input l) (pos l)) "!" && (col l =? 1)).
  { apply sameContext_modeStep. apply advanceWhile_context. }
  destruct (byteEq (byteAt (input l) (pos l)) DQUOTE).
  { unfold scanString. cbn [snd].
    eapply modeStep_then_context; [apply setExpectingValue_context_mode|].
    eapply sameContext_trans; [apply advance_context|].
    apply scanStringLoop_context. }
  destruct (byteEq (byteAt (input l) (pos l)) "'").
  { unfold scanString. cbn [snd].
    eapply modeStep_then_context; [apply setExpectingValue_context_mode|].
    eapply sameContext_trans; [apply advance_context|].
    apply scanStringLoop_context. }
  destruct (isWhitespace (byteAt (input l) (pos l))).
  { apply sameContext_modeStep. apply advanceWhile_context. }
  destruct (expectingValue l).
  { unfold scanValueToEndOfLine. cbn [snd].
    eapply modeStep_then_context; [apply setExpectingValue_context_mode|].
    apply advanceWhile_context. }
  unfold scanWord.
  match goal with
  | |- context [classifyWord ?a ?b] =>
      pose proof (classifyWord_modeStep a b) as H;
      destruct (classifyWord a b) as [ty l2]
  end.
  cbn [snd] in *.
  eapply modeStep_after_context; [apply advanceWhile_context | exact H].
Qed.

(** The lexer after [n] calls of [nextToken]. *)
Fixpoint after (n : nat) (l : Lexer) : Lexer :=
  match n with
  | 0 => l
  | S n' => after n' (snd (nextToken l))
  end.

Lemma after_S : forall n l, after (S n) l = snd (nextToken (after n l)).
Proof.
  induction n as [|n IH]; intros l; [reflexivity|].
  change (after (S (S n)) l) with (after (S n) (snd (nextToken l))).
  rewrite IH. reflexivity.
Qed.

Lemma after_input : forall n l, input (after n l) = input l.
Proof.
  induction n as [|n IH]; intros l; [reflexivity|].
  rewrite after_S. destruct (nextToken_modeStep (after n l)) as [Hi _].
  rewrite Hi. apply IH.
Qed.

Lemma detected_stays : forall l l',
  modeStep l l' -> detectedMode l = true ->
  parseMode l' = parseMode l /\ detectedMode l' = true.
Proof.
  intros l l' (_ & [[Hp Hd]|(_ & Hf & _)]) H; [|congruence].
  split; congruence.
Qed.

Lemma after_detected : forall k n l,
  detectedMode (after n l) = true ->
  parseMode (after (k + n) l) = parseMode (after n l)
  /\ detectedMode (after (k + n) l) = true.
Proof.
  induction k as [|k IH]; intros n l H; [split; [reflexivity | exact H]|].
  destruct (IH n l H) as [Hp Hd].
  change (S k + n) with (S (k + n)). rewrite after_S.
  destruct (detected_stays _ _ (nextToken_modeStep (after (k + n) l)) Hd).
  split; congruence.
Qed.

Lemma after_auto_inv : forall n input,
  let l := after n (lexer.New input) in
  (detectedMode l = false /\ parseMode l = ParseModeAuto)
  \/ (detectedMode l = true
      /\ parseMode l = detectParseMode (lexer.New input)).
Proof.
  induction n as [|n IH]; intros inp; [left; split; reflexivity|].
  cbv zeta in *. rewrite after_S.
  pose proof (nextToken_modeStep (after n (lexer.New inp))) as (Hi & H).
  specialize (IH inp).
  destruct H as [[Hp Hd]|(Ha & Hf & Hp & Hd)].
  - rewrite Hp, Hd. exact IH.
  - right. split; [exact Hd|]. rewrite Hp.
    apply detectParseMode_input. apply after_input.
Qed.

Lemma detectParseMode_not_auto : forall l, detectParseMode l <> ParseModeAuto.
Proof.
  intros l. unfold detectParseMode.
  destruct ((2 <=? showScore (sampleOf l))
            && (configScore (sampleOf l) <? showScore (sampleOf l)));
    discriminate.
Qed.

(** C4. A lexer started in the automatic mode resolves it at the first
    word classification, to Config or Show, as the detector answers on
    its input.  From any detected state on, a classification keeps the
    mode and classifies under it; along the calls of [nextToken] the mode
    is Auto until it is detected and the detected mode ever after. *)
Theorem mode_stability : forall input,
  (forall word,
     let l1 := snd (classifyWord (lexer.New input) word) in
     detectedMode l1 = true
     /\ parseMode l1 = detectParseMode (lexer.New input)
     /\ parseMode l1 <> ParseModeAuto)
  /\ (forall l word,
        detectedMode l = true ->
        parseMode (snd (classifyWord l word)) = parseMode l
        /\ detectedMode (snd (classifyWord l word)) = true
        /\ classifyWord l word =
           if parseModeEq (parseMode l) ParseModeShow
           then classifyShowWord l word (strings.ToLower word)
           else classifyConfigWord l word (strings.ToLower word))
  /\ (forall n,
        (detectedMode (after n (lexer.New input)) = false
         /\ parseMode (after n (lexer.New input)) = ParseModeAuto)
        \/ (detectedMode (after n (lexer.New input)) = true
            /\ parseMode (after n (lexer.New input))
               = detectParseMode (lexer.New input)))
  /\ (forall n m,
        n <= m ->
        detectedMode (after n (lexer.New input)) = true ->
        parseMode (after m (lexer.New input))
          = parseMode (after n (lexer.New input))
        /\ detectedMode (after m (lexer.New input)) = true).
Proof.
  intros inp. split; [|split; [|split]].
  - intros word l1.
    pose proof (classifyWord_modeStep (lexer.New inp) word) as (_ & H).
    fold l1 in H. destruct H as [[Hp Hd]|(_ & _ & Hp & Hd)].
    + (* the first classification always resolves *)
      exfalso. subst l1. rewrite classifyWord_unfold in Hd.
      unfold resolveMode in Hd. cbn in Hd.
      destruct (parseModeEq (detectParseMode (lexer.New inp)) ParseModeShow).
      * rewrite classifyShowWord_context in Hd. discriminate.
      * match type of Hd with
        | detectedMode (snd (classifyConfigWord ?a ?b ?c)) = _ =>
            destruct (classifyConfigWord_context a b c) as (_ & _ & Hd')
        end.
        rewrite Hd' in Hd. discriminate.
    + repeat split; try assumption. rewrite Hp.
      apply detectParseMode_not_auto.
  - intros l word Hd.
    destruct (detected_stays _ _ (classifyWord_modeStep l word) Hd) as [Hp Hd'].
    repeat split; try assumption.
    rewrite classifyWord_unfold. unfold resolveMode. rewrite Hd.
    rewrite andb_false_r. reflexivity.
  - intros n. apply after_auto_inv.
  - intros n m Hle Hd.
    replace m with ((m - n) + n) by lia. apply after_detected. exact Hd.
Qed.

(** ** The cursor *)

Lemma advance_pos : forall l,
  pos l < length (input l) -> pos (advance l) = S (pos l).
Proof.
  intros l H. unfold advance.
  apply Nat.ltb_lt in H. rewrite H.
  destruct (byteEq (byteAt (input l) (pos l)) LF); reflexivity.
Qed.

Lemma advance_pos_end : forall l,
  length (input l) <= pos l -> advance l = l.
Proof.
  intros l H. unfold advance.
  apply Nat.ltb_ge in H. rewrite H. reflexivity.
Qed.

Lemma advance_input : forall l, input (advance l) = input l.
Proof. intros l. apply advance_context. Qed.

Lemma advance_range : forall l,
  pos l <= pos (advance l)
  /\ (pos l <= length (input l) -> pos (advance l) <= length (input l)).
Proof.
  intros l. destruct (Nat.lt_ge_cases (pos l) (length (input l))) as [H|H].
  - rewrite advance_pos by exact H. lia.
  - rewrite advance_pos_end by exact H. lia.
Qed.

Lemma advanceWhile_input : forall cond fuel l,
  input (advanceWhile cond fuel l) = input l.
Proof. intros. apply advanceWhile_context. Qed.

Lemma advanceWhile_range : forall cond fuel l,
  pos l <= pos (advanceWhile cond fuel l)
  /\ (pos l <= length (input l) ->
      pos (advanceWhile cond fuel l) <= length (input l)).
Proof.
  intros cond fuel. induction fuel as [|fuel IH]; intros l; simpl; [lia|].
  destruct ((pos l <? length (input l)) && cond (byteAt (input l) (pos l)));
    [|lia].
  destruct (IH (advance l)) as [H1 H2].
  destruct (advance_range l) as [H3 H4].
  rewrite advance_input in H2. split; [lia|]. intros H. apply H2. auto.
Qed.

(** A loop entered with its condition true moves the cursor. *)
Lemma advanceWhile_moves : forall cond fuel l,
  0 < fuel -> pos l < length (input l) ->
  cond (byteAt (input l) (pos l)) = true ->
  pos l < pos (advanceWhile cond fuel l).
Proof.
  intros cond [|fuel] l Hf Hp Hc; [lia|]. simpl.
  apply Nat.ltb_lt in Hp. rewrite Hp, Hc. cbn [andb].
  apply Nat.ltb_lt in Hp.
  destruct (advanceWhile_range cond fuel (advance l)) as [H _].
  rewrite advance_pos in H by exact Hp. lia.
Qed.

(** With [remaining l] rounds the loop ends on its own condition. *)
Lemma advanceWhile_exit : forall cond fuel l,
  remaining l <= fuel ->
  let l' := advanceWhile cond fuel l in
  pos l' < length (input l') ->
  cond (byteAt (input l') (pos l')) = false.
Proof.
  intros cond fuel. induction fuel as [|fuel IH]; intros l Hf; simpl.
  - unfold remaining in Hf. intros H. lia.
  - destruct (pos l <? length (input l)) eqn:Hp; cbn [andb].
    + destruct (cond (byteAt (input l) (pos l))) eqn:Hc.
      * apply IH. unfold remaining in *. rewrite advance_input.
        apply Nat.ltb_lt in Hp. rewrite advance_pos by exact Hp. lia.
      * intros _. exact Hc.
    + apply Nat.ltb_ge in Hp. intros H. lia.
Qed.

Lemma scanStringLoop_input : forall quote fuel l,
  input (scanStringLoop quote fuel l) = input l.
Proof. intros. apply scanStringLoop_context. Qed.

Lemma scanStringLoop_range : forall quote fuel l,
  pos l <= pos (scanStringLoop quote fuel l)
  /\ (pos l <= length (input l) ->
      pos (scanStringLoop quote fuel l) <= length (input l)).
Proof.
  intros quote fuel. induction fuel as [|fuel IH]; intros l; simpl; [lia|].
  destruct (pos l <? length (input l)); [|lia].
  destruct (byteEq (byteAt (input l) (pos l)) quote); [apply advance_range|].
  set (l1 := if byteEq (byteAt (input l) (pos l)) BACKSLASH
                && (pos l + 1 <? length (input l))
             then advance l else l).
  assert (H1 : input l1 = input l
               /\ pos l <= pos l1
               /\ (pos l <= length (input l) -> pos l1 <= length (input l))).
  { subst l1.
    destruct (byteEq (byteAt (input l) (pos l)) BACKSLASH
              && (pos l + 1 <? length (input l))).
    - rewrite advance_input. destruct (advance_range l). auto.
    - auto. }
  destruct H1 as (Hi & Hle & Hb).
  destruct (IH (advance l1)) as [H2 H3].
  destruct (advance_range l1) as [H4 H5].
  rewrite advance_input, Hi in *. split; [lia|]. intros H. auto.
Qed.

Lemma classifyConfigWord_pos : forall l word lower,
  pos (snd (classifyConfigWord l word lower)) = pos l.
Proof.
  intros l word lower. unfold classifyConfigWord. split_ifs; reflexivity.
Qed.

Lemma classifyWord_pos : forall l word,
  pos (snd (classifyWord l word)) = pos l
  /\ input (snd (classifyWord l word)) = input l.
Proof.
  intros l word. split; [|apply classifyWord_modeStep].
  rewrite classifyWord_unfold.
  assert (Hr : pos (resolveMode l) = pos l).
  { unfold resolveMode.
    destruct (parseModeEq (parseMode l) ParseModeAuto
              && negb (detectedMode l)); reflexivity. }
  destruct (parseModeEq (parseMode (resolveMode l)) ParseModeShow).
  - rewrite classifyShowWord_context. exact Hr.
  - rewrite classifyConfigWord_pos. exact Hr.
Qed.

(** What a call of [nextToken] before the end of the input does: the
    cursor moves forward, stays within the input, and the token's value is
    the text it moved over. *)
Definition stepSpec (l : Lexer) (r : Token * Lexer) : Prop :=
  input (snd r) = input l
  /\ pos l < pos (snd r) <= length (input l)
  /\ Value (fst r) = slice (input l) (pos l) (pos (snd r)).

Lemma scanWith_spec : forall cond ty l0 l,
  input l = input l0 -> pos l = pos l0 ->
  pos l < length (input l) ->
  cond (byteAt (input l) (pos l)) = true ->
  stepSpec l0
    (mkToken ty (slice (input l) (pos l)
                       (pos (advanceWhile cond (remaining l) l)))
             (line l) (col l),
     advanceWhile cond (remaining l) l).
Proof.
  intros cond ty l0 l Hi Hp Hlt Hc. unfold stepSpec. cbn [fst snd Value].
  rewrite advanceWhile_input.
  destruct (advanceWhile_range cond (remaining l) l) as [H1 H2].
  pose proof (advanceWhile_moves cond (remaining l) l) as H3.
  unfold remaining in H3 at 1.
  rewrite <- Hi, <- Hp.
  assert (pos l < pos (advanceWhile cond (remaining l) l))
    by (apply H3; try assumption; lia).
  assert (pos (advanceWhile cond (remaining l) l) <= length (input l))
    by (apply H2; lia).
  repeat split; lia.
Qed.

Lemma scanString_spec : forall quote l0 l,
  input l = input l0 -> pos l = pos l0 ->
  pos l < length (input l) ->
  stepSpec l0 (scanString quote l).
Proof.
  intros quote l0 l Hi Hp Hlt. unfold stepSpec, scanString.
  cbn [fst snd Value].
  rewrite scanStringLoop_input, advance_input.
  destruct (scanStringLoop_range quote (remaining (advance l)) (advance l))
    as [H1 H2].
  rewrite advance_input in H2. rewrite advance_pos in H1, H2 by exact Hlt.
  rewrite <- Hi, <- Hp.
  assert (pos (scanStringLoop quote (remaining (advance l)) (advance l))
          <= length (input l)) by (apply H2; lia).
  repeat split; lia.
Qed.

Lemma isWhitespace_LF : forall ch, isWhitespace ch = false -> byteEq ch LF = false.
Proof.
  intros ch H. unfold isWhitespace in H.
  destruct (byteEq ch LF); [|reflexivity].
  rewrite !orb_true_r in H. simpl in H.
  destruct (byteEq ch " " || byteEq ch TAB); discriminate.
Qed.

Lemma nextToken_spec : forall l,
  pos l < length (input l) -> stepSpec l (nextToken l).
Proof.
  intros l Hlt. unfold nextToken.
  assert (Hge : (length (input l) <=? pos l) = false)
    by (apply Nat.leb_gt; exact Hlt).
  rewrite Hge.
  destruct (byteEq (byteAt (input l) (pos l)) "!" && (col l =? 1)) eqn:Hb.
  { apply andb_true_iff in Hb. destruct Hb as [Hb _].
    apply byteEq_eq in Hb. unfold scanComment.
    apply scanWith_spec; auto. rewrite Hb. reflexivity. }
  destruct (byteEq (byteAt (input l) (pos l)) DQUOTE) eqn:Hq1.
  { pose proof (scanString_spec DQUOTE l (setExpectingValue l false)
                  eq_refl eq_refl Hlt) as H.
    destruct (scanString DQUOTE (setExpectingValue l false)) as [t l'].
    destruct (expectingValue l); exact H. }
  destruct (byteEq (byteAt (input l) (pos l)) "'") eqn:Hq2.
  { pose proof (scanString_spec "'" l (setExpectingValue l false)
                  eq_refl eq_refl Hlt) as H.
    destruct (scanString "'" (setExpectingValue l false)) as [t l'].
    destruct (expectingValue l); exact H. }
  destruct (isWhitespace (byteAt (input l) (pos l))) eqn:Hw.
  { unfold scanWhitespace. apply scanWith_spec; auto. }
  destruct (expectingValue l).
  { unfold scanValueToEndOfLine.
    apply (scanWith_spec (fun ch => negb (byteEq ch LF)) TokenValue l
             (setExpectingValue l false)); auto.
    cbn [input pos setExpectingValue].
    rewrite (isWhitespace_LF _ Hw). reflexivity. }
  unfold scanWord.
  set (cond := fun ch => negb (isWhitespace ch || byteEq ch DQUOTE
                               || byteEq ch "'")).
  set (l1 := advanceWhile cond (remaining l) l).
  destruct (classifyWord_pos l1 (slice (input l) (pos l) (pos l1)))
    as [Hp Hi].
  destruct (classifyWord l1 (slice (input l) (pos l) (pos l1))) as [ty l2].
  cbn [snd] in Hp, Hi.
  assert (H : stepSpec l
                (mkToken ty (slice (input l) (pos l) (pos l1))
                         (line l) (col l), l1)).
  { subst l1. apply scanWith_spec; auto. subst cond. cbv beta.
    rewrite Hw. cbn [orb].
    rewrite Hq1, Hq2. reflexivity. }
  unfold stepSpec in *. cbn [fst snd Value] in *.
  rewrite Hp, Hi. exact H.
Qed.

(** ** Slices *)

Lemma slice_length : forall (s : gostring) i j,
  i <= j -> j <= length s -> length (slice s i j) = j - i.
Proof.
  intros s i j Hij Hj. unfold slice.
  rewrite length_firstn, length_skipn. lia.
Qed.

Lemma firstn_plus : forall (a b : nat) (s : gostring),
  firstn (a + b) s = firstn a s ++ firstn b (skipn a s).
Proof.
  induction a as [|a IH]; intros b s; [reflexivity|].
  destruct s as [|c s]; simpl.
  - rewrite firstn_nil. reflexivity.
  - rewrite IH. reflexivity.
Qed.

Lemma slice_app : forall (s : gostring) i j k,
  i <= j -> j <= k -> slice s i j ++ slice s j k = slice s i k.
Proof.
  intros s i j k Hij Hjk. unfold slice.
  replace (k - i) with ((j - i) + (k - j)) by lia.
  rewrite firstn_plus, skipn_skipn.
  replace (j - i + i) with j by lia. reflexivity.
Qed.

Lemma slice_full : forall (s : gostring), slice s 0 (length s) = s.
Proof.
  intros s. unfold slice. rewrite Nat.sub_0_r. simpl. apply firstn_all.
Qed.

Lemma slice_same : forall (s : gostring) i, slice s i i = [].
Proof. intros s i. unfold slice. rewrite Nat.sub_diag. reflexivity. Qed.

Lemma slice_prefix : forall (s : gostring) j, slice s 0 j = firstn j s.
Proof. intros s j. unfold slice. rewrite Nat.sub_0_r. reflexivity. Qed.

Lemma concatValues_app : forall a b,
  concatValues (a ++ b) = concatValues a ++ concatValues b.
Proof.
  intros a b. unfold concatValues. rewrite map_app, concat_app. reflexivity.
Qed.

(** ** The scanning loop *)

Lemma streq_nil : forall a, streq a [] = true <-> a = [].
Proof.
  intros [|x a]; simpl; split; intros H; try reflexivity; discriminate.
Qed.

(** With [remaining l] rounds the loop of [Tokenize] reaches the end of
    the input, and the values of the tokens it adds are the input from the
    cursor on. *)
Lemma scanTokens_spec : forall fuel l tokens,
  remaining l <= fuel -> pos l <= length (input l) ->
  let r := scanTokens fuel l tokens in
  pos (snd r) = length (input l)
  /\ input (snd r) = input l
  /\ concatValues (fst r)
     = concatValues tokens ++ slice (input l) (pos l) (length (input l)).
Proof.
  induction fuel as [|fuel IH]; intros l tokens Hf Hle; simpl.
  - unfold remaining in Hf.
    assert (pos l = length (input l)) by lia.
    repeat split; try assumption.
    replace (pos l) with (length (input l)) by lia.
    rewrite slice_same, app_nil_r. reflexivity.
  - destruct (pos l <? length (input l)) eqn:Hp.
    + apply Nat.ltb_lt in Hp.
      pose proof (nextToken_spec l Hp) as Hs. unfold stepSpec in Hs.
      destruct (nextToken l) as [token l']. cbn [fst snd] in *.
      destruct Hs as (Hi & Hpos & Hv).
      assert (Hkeep : (negb (tokenTypeEq (Type_ token) TokenText)
                       || negb (streq (Value token) [])) = true).
      { destruct (streq (Value token) []) eqn:He; [|apply orb_true_r].
        apply streq_nil in He.
        assert (Hl : length (Value token) = pos l' - pos l)
          by (rewrite Hv; apply slice_length; lia).
        rewrite He in Hl. simpl in Hl. lia. }
      rewrite Hkeep.
      destruct (IH l' (tokens ++ [token])) as (H1 & H2 & H3).
      * unfold remaining in *. rewrite Hi. lia.
      * rewrite Hi. lia.
      * rewrite Hi in *. repeat split; try assumption.
        rewrite H3, concatValues_app. unfold concatValues at 2.
        simpl. rewrite app_nil_r, Hv, <- app_assoc.
        rewrite slice_app by lia. reflexivity.
    + apply Nat.ltb_ge in Hp.
      assert (pos l = length (input l)) by lia.
      repeat split; try assumption.
      replace (pos l) with (length (input l)) by lia.
      rewrite slice_same, app_nil_r. reflexivity.
Qed.

(** ** The prompt match *)

Lemma span_app : forall p s a b, span p s = (a, b) -> s = a ++ b.
Proof.
  intros p. induction s as [|c s IH]; intros a b H; simpl in H.
  - inversion H. reflexivity.
  - destruct (p c).
    + destruct (span p s) as [a' b'] eqn:E. inversion H; subst.
      simpl. f_equal. apply IH. reflexivity.
    + inversion H. reflexivity.
Qed.

Lemma promptModeGroup_app : forall r g rest,
  promptModeGroup r = Some (g, rest) -> r = g ++ rest.
Proof.
  intros r g rest H. unfold promptModeGroup in H.
  destruct r as [|c r']; [inversion H; reflexivity|].
  destruct (byteEq c "("); [|inversion H; reflexivity].
  destruct (span isModeByte r') as [m r''] eqn:E.
  apply span_app in E. subst r'.
  destruct m as [|x m]; [discriminate|].
  destruct r'' as [|c' rest']; [discriminate|].
  destruct (byteEq c' ")"); [|discriminate].
  inversion H; subst. simpl. rewrite <- !app_assoc. reflexivity.
Qed.

(** The command group leaves out at least the host and the prompt
    character. *)
Lemma prompt_command_shorter : forall input m,
  FindStringSubmatch_prompt input = Some m ->
  length (command m) + 2 <= length input.
Proof.
  intros inp m H. unfold FindStringSubmatch_prompt in H.
  destruct (span isLeadByte inp) as [g1 r1] eqn:E1.
  destruct (span isHostByte r1) as [g2 r2] eqn:E2.
  destruct g2 as [|h g2]; [discriminate|].
  destruct (promptModeGroup r2) as [[g3 r3]|] eqn:E3; [|discriminate].
  destruct r3 as [|c r4]; [discriminate|].
  destruct (isPromptChar c); [|discriminate].
  destruct (span isSpaceByte r4) as [ws r5] eqn:E4.
  destruct (span isDot r5) as [g5 r6] eqn:E5.
  apply span_app in E1, E2, E4, E5. apply promptModeGroup_app in E3.
  assert (Hc : command m = g5).
  { destruct r6 as [|c' [|c'' r7]]; try discriminate.
    - inversion H. reflexivity.
    - destruct (byteEq c' LF); [|discriminate]. inversion H. reflexivity. }
  rewrite Hc. subst. rewrite !length_app. simpl. rewrite !length_app. simpl. lia.
Qed.

Lemma trimLeft_length : forall fuel s,
  length (strings.trimLeft fuel s) <= length s.
Proof.
  induction fuel as [|fuel IH]; intros s; simpl; [lia|].
  destruct (strings.leadingSpace s) as [n|]; [|lia].
  specialize (IH (skipn n s)). rewrite length_skipn in IH. lia.
Qed.

Lemma trimRightRev_length : forall fuel s,
  length (strings.trimRightRev fuel s) <= length s.
Proof.
  induction fuel as [|fuel IH]; intros s; simpl; [lia|].
  destruct (strings.trailingSpace s) as [n|]; [|lia].
  specialize (IH (skipn n s)). rewrite length_skipn in IH. lia.
Qed.

Lemma TrimSpace_length : forall s,
  length (strings.TrimSpace s) <= length s.
Proof.
  intros s. unfold strings.TrimSpace. rewrite length_rev.
  etransitivity; [apply trimRightRev_length|].
  rewrite length_rev. apply trimLeft_length.
Qed.

Lemma relexed_input_shorter : forall input m,
  FindStringSubmatch_prompt input = Some m ->
  length (strings.TrimSpace (command m)) + 2 <= length input.
Proof.
  intros inp m H. apply prompt_command_shorter in H.
  pose proof (TrimSpace_length (command m)). lia.
Qed.

(** ** Totality of [Tokenize] *)

Lemma tryTokenizePrompt_no_match : forall tokenize input,
  FindStringSubmatch_prompt input = None ->
  tryTokenizePrompt tokenize input = None.
Proof.
  intros tokenize inp H. unfold tryTokenizePrompt. rewrite H. reflexivity.
Qed.

(** [tryTokenizePrompt] calls [tokenize] on one lexer at most: the new
    lexer on the trimmed command. *)
Lemma tryTokenizePrompt_ext : forall tk tk' input,
  (forall m, FindStringSubmatch_prompt input = Some m ->
             tk (lexer.New (strings.TrimSpace (command m)))
             = tk' (lexer.New (strings.TrimSpace (command m)))) ->
  tryTokenizePrompt tk input = tryTokenizePrompt tk' input.
Proof.
  intros tk tk' inp H. unfold tryTokenizePrompt.
  destruct (FindStringSubmatch_prompt inp) as [m|]; [|reflexivity].
  rewrite (H m eq_refl). reflexivity.
Qed.

Lemma tryTokenizePrompt_returns : forall tk input m,
  FindStringSubmatch_prompt input = Some m ->
  (command m <> [] ->
   exists t, tk (lexer.New (strings.TrimSpace (command m))) = Some t) ->
  exists tokens, tryTokenizePrompt tk input = Some (Some tokens).
Proof.
  intros tk inp m H Hc. unfold tryTokenizePrompt. rewrite H.
  destruct (command m) as [|c cmd].
  - destruct (lead m); destruct (mode m); cbv zeta;
      destruct (strings.HasSuffix inp [LF]); eexists; reflexivity.
  - destruct Hc as [t Ht]; [discriminate|]. rewrite Ht.
    destruct (lead m); destruct (mode m); cbv zeta;
      match goal with
      | |- context [appendCommandTokens ?a ?b ?c] =>
          destruct (appendCommandTokens a b c)
      end;
      destruct (strings.HasSuffix inp [LF]); eexists; reflexivity.
Qed.

(** Each nesting level takes at least two bytes off the input, so
    [depth] levels are enough for an input shorter than [2 * depth]. *)
Lemma TokenizeDepth_returns : forall depth l,
  length (input l) < 2 * depth ->
  exists tokens, TokenizeDepth depth l = Some tokens.
Proof.
  induction depth as [|depth IH]; intros l H; [lia|]. simpl.
  destruct (FindStringSubmatch_prompt (input l)) as [m|] eqn:E.
  - destruct (tryTokenizePrompt_returns (TokenizeDepth depth) (input l) m E)
      as [t Ht].
    + intros _. apply IH. cbn [input lexer.New].
      pose proof (relexed_input_shorter _ _ E). lia.
    + rewrite Ht. eexists. reflexivity.
  - rewrite tryTokenizePrompt_no_match by exact E. eexists. reflexivity.
Qed.

(** More depth than needed changes nothing. *)
Lemma TokenizeDepth_stable : forall depth l tokens,
  TokenizeDepth depth l = Some tokens ->
  forall depth', depth <= depth' -> TokenizeDepth depth' l = Some tokens.
Proof.
  induction depth as [|depth IH]; intros l tokens H depth' Hle;
    [discriminate|].
  destruct depth' as [|depth']; [lia|].
  simpl in *.
  destruct (FindStringSubmatch_prompt (input l)) as [m|] eqn:E.
  - unfold tryTokenizePrompt in *. rewrite E in *.
    destruct (command m) as [|c cmd] eqn:Ec; [exact H|].
    destruct (TokenizeDepth depth
                (lexer.New (strings.TrimSpace (c :: cmd)))) as [t|] eqn:Et.
    + rewrite (IH _ _ Et depth') by lia. exact H.
    + destruct (lead m); destruct (mode m); discriminate.
  - rewrite tryTokenizePrompt_no_match in * by exact E. exact H.
Qed.

Lemma Tokenize_returns : forall l, exists tokens, Tokenize l = Some tokens.
Proof.
  intros l. unfold Tokenize. apply TokenizeDepth_returns. lia.
Qed.

(** The number of nested command lexers [Tokenize] goes through on
    [input], counted with the same recursion. *)
Fixpoint nestingDepth (fuel : nat) (input : gostring) : nat :=
  match fuel with
  | 0 => 0
  | S fuel' =>
      match FindStringSubmatch_prompt input with
      | Some m =>
          match command m with
          | [] => 0
          | _ => S (nestingDepth fuel' (strings.TrimSpace (command m)))
          end
      | None => 0
      end
  end.

Definition nesting (input : gostring) : nat :=
  nestingDepth (S (length input)) input.

Lemma nestingDepth_bound : forall fuel input,
  2 * nestingDepth fuel input <= length input.
Proof.
  induction fuel as [|fuel IH]; intros inp; simpl; [lia|].
  destruct (FindStringSubmatch_prompt inp) as [m|] eqn:E; [|lia].
  destruct (command m) as [|c cmd] eqn:Ec; [lia|].
  pose proof (relexed_input_shorter _ _ E) as Hs. rewrite Ec in Hs.
  specialize (IH (strings.TrimSpace (c :: cmd))). lia.
Qed.

(** [TokenizeDepth] returns exactly when its bound is above the
    nesting. *)
Lemma TokenizeDepth_needs : forall depth fuel l,
  length (input l) < fuel ->
  depth <= nestingDepth fuel (input l) ->
  TokenizeDepth depth l = None.
Proof.
  induction depth as [|depth IH]; intros fuel l Hf Hd; [reflexivity|].
  destruct fuel as [|fuel]; [lia|]. simpl in *.
  destruct (FindStringSubmatch_prompt (input l)) as [m|] eqn:E; [|lia].
  unfold tryTokenizePrompt. rewrite E.
  destruct (command m) as [|c cmd] eqn:Ec; [lia|].
  rewrite (IH fuel (lexer.New (strings.TrimSpace (c :: cmd)))).
  - destruct (lead m); destruct (mode m); reflexivity.
  - cbn [input lexer.New].
    pose proof (relexed_input_shorter _ _ E) as Hs. rewrite Ec in Hs. lia.
  - cbn [input lexer.New]. lia.
Qed.

Lemma TokenizeDepth_enough : forall depth fuel l,
  length (input l) < fuel ->
  nestingDepth fuel (input l) < depth ->
  exists tokens, TokenizeDepth depth l = Some tokens.
Proof.
  induction depth as [|depth IH]; intros fuel l Hf Hd; [lia|].
  destruct fuel as [|fuel]; [lia|]. simpl in *.
  destruct (FindStringSubmatch_prompt (input l)) as [m|] eqn:E.
  - destruct (tryTokenizePrompt_returns (TokenizeDepth depth) (input l) m E)
      as [t Ht].
    + intros Hc. destruct (command m) as [|c cmd] eqn:Ec; [congruence|].
      apply (IH fuel); cbn [input lexer.New].
      * pose proof (relexed_input_shorter _ _ E) as Hs.
        rewrite Ec in Hs. lia.
      * lia.
    + rewrite Ht. eexists. reflexivity.
  - rewrite tryTokenizePrompt_no_match by exact E. eexists. reflexivity.
Qed.

(** The scanning path of [Tokenize] is lossless: when the input is no
    prompt, the values of the tokens concatenate to the input. *)
Lemma scan_path_lossless : forall l tokens,
  pos l = 0 ->
  FindStringSubmatch_prompt (input l) = None ->
  Tokenize l = Some tokens ->
  concatValues tokens = input l.
Proof.
  intros l tokens Hp Hn H. unfold Tokenize in H. simpl in H.
  rewrite tryTokenizePrompt_no_match in H by exact Hn.
  inversion H; subst tokens; clear H.
  destruct (scanTokens_spec (remaining l) l []) as (_ & _ & Hc);
    [lia | lia |].
  rewrite Hc, Hp. simpl. apply slice_full.
Qed.

(** C9, as the code has it.  [Tokenize] returns its tokens for every
    lexer; a call of [nextToken] before the end of the input moves the
    cursor forward and keeps it within the input, and the scanning loop
    ends at the end of the input.  The command after a prompt is re-lexed
    by a new lexer on an input at least two bytes shorter, and that lexer
    may take the prompt path again: the nesting is bounded by half the
    length of the input, and [Tokenize] needs exactly one level more than
    the nesting of its input. *)
Theorem Tokenize_total : forall l,
  (exists tokens, Tokenize l = Some tokens)
  /\ (forall depth,
        length (input l) < 2 * depth -> TokenizeDepth depth l = Tokenize l)
  /\ (pos l < length (input l) ->
      pos l < pos (snd (nextToken l)) <= length (input l))
  /\ (pos l <= length (input l) ->
      pos (snd (scanTokens (remaining l) l [])) = length (input l))
  /\ (forall m,
        FindStringSubmatch_prompt (input l) = Some m ->
        length (strings.TrimSpace (command m)) + 2 <= length (input l))
  /\ 2 * nesting (input l) <= length (input l)
  /\ TokenizeDepth (nesting (input l)) l = None
  /\ TokenizeDepth (S (nesting (input l))) l = Tokenize l.
Proof.
  intros l.
  destruct (Tokenize_returns l) as [tokens Ht].
  repeat split.
  - exists tokens. exact Ht.
  - intros depth Hd.
    destruct (TokenizeDepth_returns depth l Hd) as [t H].
    destruct (Nat.le_ge_cases depth (S (length (input l)))) as [Hle|Hle].
    + rewrite H. symmetry. unfold Tokenize.
      apply (TokenizeDepth_stable depth); assumption.
    + rewrite Ht.
      apply (TokenizeDepth_stable (S (length (input l)))); assumption.
  - apply nextToken_spec. assumption.
  - apply nextToken_spec. assumption.
  - intros H. apply scanTokens_spec; [lia | exact H].
  - intros m. apply relexed_input_shorter.
  - apply nestingDepth_bound.
  - apply (TokenizeDepth_needs _ (S (length (input l)))); [lia|].
    unfold nesting. lia.
  - destruct (TokenizeDepth_enough (S (nesting (input l)))
                (S (length (input l))) l) as [t H]; [lia | unfold nesting; lia|].
    rewrite H. symmetry. unfold Tokenize.
    apply (TokenizeDepth_stable (S (nesting (input l)))); [exact H|].
    pose proof (nestingDepth_bound (S (length (input l))) (input l)).
    unfold nesting. lia.
Qed.

(** The input [a#b#c] against C9 as stated: the command [b#c] after the
    prompt [a#] is a prompt again, so the re-lexing nests twice and two
    passes, the first and one more, do not reach the tokens. *)
Lemma relexing_nests_twice :
  nesting (bytes "a#b#c") = 2
  /\ TokenizeDepth 2 (lexer.New (bytes "a#b#c")) = None
  /\ option_map summary (Tokenize (lexer.New (bytes "a#b#c")))
     = Some [ (TokenPromptHost, bytes "a"); (TokenPromptConf, bytes "#");
              (TokenText, bytes " ");
              (TokenPromptHost, bytes "b"); (TokenPromptConf, bytes "#");
              (TokenText, bytes " ");
              (TokenIdentifier, bytes "c") ].
Proof. repeat split; vm_compute; reflexivity. Qed.

(** ** The segmenter *)

Lemma slice_one : forall (s : gostring) j,
  j < length s -> slice s j (S j) = [byteAt s j].
Proof.
  intros s j H. unfold slice, byteAt.
  replace (S j - j) with 1 by lia.
  revert s H. induction j as [|j IH]; intros [|c s] H; simpl in *;
    try lia; [reflexivity|].
  apply IH. lia.
Qed.

Lemma slice_snoc : forall (s : gostring) i j,
  i <= j -> j < length s ->
  slice s i j ++ [byteAt s j] = slice s i (S j).
Proof.
  intros s i j Hij Hj. rewrite <- (slice_one s j Hj).
  apply slice_app; lia.
Qed.

Lemma skipWhile_range : forall p fuel input i,
  i <= skipWhile p fuel input i
  /\ (i <= length input -> skipWhile p fuel input i <= length input).
Proof.
  intros p fuel inp. induction fuel as [|fuel IH]; intros i; simpl; [lia|].
  destruct (i <? length inp) eqn:Hi; cbn [andb]; [|lia].
  apply Nat.ltb_lt in Hi.
  destruct (p (byteAt inp i)); [|lia].
  destruct (IH (S i)). split; [lia|]. intros _. auto.
Qed.

Lemma skipCSISequence_range : forall input i,
  i <= length input ->
  i <= skipCSISequence input i <= length input.
Proof.
  intros inp i H. unfold skipCSISequence.
  destruct (skipWhile_range isCSIParamByte (length inp - i) inp i) as [H1 H2].
  specialize (H2 H).
  destruct (skipWhile isCSIParamByte (length inp - i) inp i <? length inp)
    eqn:E; cbn [andb]; [|lia].
  apply Nat.ltb_lt in E.
  destruct (isCSIFinalByte _); lia.
Qed.

Lemma skipOtherEscapeSequence_range : forall input i,
  i <= length input ->
  i <= skipOtherEscapeSequence input i <= length input.
Proof.
  intros inp i H. unfold skipOtherEscapeSequence.
  destruct (skipWhile_range isCSIIntermediateByte (length inp - i) inp i)
    as [H1 H2].
  specialize (H2 H).
  destruct (skipWhile isCSIIntermediateByte (length inp - i) inp i
            <? length inp) eqn:E; [|lia].
  apply Nat.ltb_lt in E. lia.
Qed.

(** The end of the control sequence the segmenter reads at [i]: there is
    one when the byte at [i] is the escape character and a byte follows
    it. *)
Definition controlSequenceAt (input : gostring) (i : nat) : option nat :=
  if byteEq (byteAt input i) escapeChar && (i + 1 <? length input) then
    if byteEq (byteAt input (i + 1)) csiBracket
    then Some (skipCSISequence input (i + 2))
    else Some (skipOtherEscapeSequence input (i + 1))
  else None.

Lemma controlSequenceAt_range : forall input i j,
  controlSequenceAt input i = Some j -> i + 2 <= j <= length input.
Proof.
  intros inp i j H. unfold controlSequenceAt in H.
  destruct (byteEq (byteAt inp i) escapeChar); [|discriminate].
  destruct (i + 1 <? length inp) eqn:E; [|discriminate].
  apply Nat.ltb_lt in E. cbn [andb] in H.
  destruct (byteEq (byteAt inp (i + 1)) csiBracket); inversion H; subst.
  - pose proof (skipCSISequence_range inp (i + 2)). lia.
  - unfold skipOtherEscapeSequence.
    destruct (skipWhile_range isCSIIntermediateByte
                (length inp - (i + 1)) inp (i + 1)) as [H1 H2].
    destruct (skipWhile isCSIIntermediateByte (length inp - (i + 1)) inp
                (i + 1) <? length inp) eqn:E'.
    + apply Nat.ltb_lt in E'. lia.
    + apply Nat.ltb_ge in E'. lia.
Qed.

(** A segmentation of [input] from position [i] on: control sequences
    whole and alone in the escape segments, and between them text segments
    that are not empty, hold no position where a control sequence starts,
    and run up to the next control sequence or to the end. *)
Inductive Segmented (input : gostring) : nat -> list segment -> Prop :=
| Segmented_end : Segmented input (length input) []
| Segmented_escape : forall i j rest,
    controlSequenceAt input i = Some j ->
    Segmented input j rest ->
    Segmented input i (mkSegment (slice input i j) true :: rest)
| Segmented_text : forall i j rest,
    i < j <= length input ->
    (forall k, i <= k < j -> controlSequenceAt input k = None) ->
    (j = length input \/ controlSequenceAt input j <> None) ->
    Segmented input j rest ->
    Segmented input i (mkSegment (slice input i j) false :: rest).

Lemma Segmented_range : forall input i segs,
  Segmented input i segs -> i <= length input.
Proof.
  intros inp i segs H. induction H; try lia.
  apply controlSequenceAt_range in H. lia.
Qed.

Lemma Segmented_concat : forall input i segs,
  Segmented input i segs ->
  concat (map text segs) = slice input i (length input).
Proof.
  intros inp i segs H. induction H; simpl.
  - rewrite slice_same. reflexivity.
  - rewrite IHSegmented. apply controlSequenceAt_range in H.
    apply Segmented_range in H0. apply slice_app; lia.
  - rewrite IHSegmented. apply slice_app; lia.
Qed.

Lemma Segmented_nonempty : forall input i segs,
  Segmented input i segs -> Forall (fun seg => text seg <> []) segs.
Proof.
  intros inp i segs H. induction H; constructor; try assumption; simpl.
  - pose proof (controlSequenceAt_range _ _ _ H) as Hr.
    intros E. apply (f_equal (@length ascii)) in E.
    rewrite slice_length in E by lia. simpl in E. lia.
  - intros E. apply (f_equal (@length ascii)) in E.
    rewrite slice_length in E by lia. simpl in E. lia.
Qed.

(** The segments of the loop, with the text buffer as the slice from
    [t0] to the cursor. *)
Lemma extractLoop_segmented : forall fuel input i segments textBuf t0,
  length input - i <= fuel ->
  t0 <= i <= length input ->
  textBuf = slice input t0 i ->
  (forall k, t0 <= k < i -> controlSequenceAt input k = None) ->
  (forall rest, Segmented input t0 rest -> Segmented input 0 (segments ++ rest)) ->
  Segmented input 0
    (flushText (fst (extractLoop fuel input i segments textBuf))
               (snd (extractLoop fuel input i segments textBuf))).
Proof.
  induction fuel as [|fuel IH]; intros inp i segments textBuf t0
    Hf Hi Hbuf Hnone Hk.
  - (* the cursor is at the end *)
    assert (i = length inp) by lia. subst i. simpl.
    unfold flushText. destruct textBuf as [|c buf] eqn:Eb.
    + assert (t0 = length inp).
      { apply (f_equal (@length ascii)) in Hbuf.
        rewrite slice_length in Hbuf by lia. simpl in Hbuf. lia. }
      subst t0. rewrite <- (app_nil_r segments). apply Hk. constructor.
    + apply Hk. rewrite Hbuf. apply Segmented_text; auto.
      * split; [|lia].
        apply (f_equal (@length ascii)) in Hbuf.
        rewrite slice_length in Hbuf by lia. simpl in Hbuf. lia.
      * constructor.
  - simpl. destruct (i <? length inp) eqn:Elt.
    + apply Nat.ltb_lt in Elt.
      assert (Hflush : forall j rest,
                 controlSequenceAt inp i = Some j ->
                 Segmented inp j rest ->
                 Segmented inp 0
                   ((flushText segments textBuf
                     ++ [mkSegment (slice inp i j) true]) ++ rest)).
      { intros j rest Hcs Hrest. rewrite <- app_assoc. simpl.
        unfold flushText. destruct textBuf as [|c buf] eqn:Eb.
        - assert (t0 = i).
          { apply (f_equal (@length ascii)) in Hbuf.
            rewrite slice_length in Hbuf by lia. simpl in Hbuf. lia. }
          subst t0. apply Hk. apply Segmented_escape; assumption.
        - rewrite <- app_assoc. simpl. apply Hk. rewrite Hbuf.
          apply Segmented_text.
          + split; [|lia].
            apply (f_equal (@length ascii)) in Hbuf.
            rewrite slice_length in Hbuf by lia. simpl in Hbuf. lia.
          + exact Hnone.
          + right. congruence.
          + apply Segmented_escape; assumption. }
      destruct (byteEq (byteAt inp i) escapeChar && (i + 1 <? length inp))
        eqn:Eesc.
      * destruct (byteEq (byteAt inp (i + 1)) csiBracket) eqn:Ecsi.
        -- assert (Hcs : controlSequenceAt inp i
                         = Some (skipCSISequence inp (i + 2)))
             by (unfold controlSequenceAt; rewrite Eesc, Ecsi; reflexivity).
           pose proof (controlSequenceAt_range _ _ _ Hcs) as Hr.
           apply (IH inp _ _ _ (skipCSISequence inp (i + 2))).
           ++ lia.
           ++ lia.
           ++ rewrite slice_same. reflexivity.
           ++ intros k Hk'. lia.
           ++ intros rest Hrest. apply Hflush; assumption.
        -- assert (Hcs : controlSequenceAt inp i
                         = Some (skipOtherEscapeSequence inp (i + 1)))
             by (unfold controlSequenceAt; rewrite Eesc, Ecsi; reflexivity).
           pose proof (controlSequenceAt_range _ _ _ Hcs) as Hr.
           apply (IH inp _ _ _ (skipOtherEscapeSequence inp (i + 1))).
           ++ lia.
           ++ lia.
           ++ rewrite slice_same. reflexivity.
           ++ intros k Hk'. lia.
           ++ intros rest Hrest. apply Hflush; assumption.
      * apply (IH inp _ _ _ t0).
        -- lia.
        -- lia.
        -- rewrite Hbuf. apply slice_snoc; lia.
        -- intros k Hk'. destruct (Nat.eq_dec k i) as [->|Hne].
           ++ unfold controlSequenceAt. rewrite Eesc. reflexivity.
           ++ apply Hnone. lia.
        -- exact Hk.
    + apply Nat.ltb_ge in Elt.
      assert (i = length inp) by lia. subst i. cbn [fst snd].
      unfold flushText. destruct textBuf as [|c buf] eqn:Eb.
      * assert (t0 = length inp).
        { apply (f_equal (@length ascii)) in Hbuf.
          rewrite slice_length in Hbuf by lia. simpl in Hbuf. lia. }
        subst t0. rewrite <- (app_nil_r segments). apply Hk. constructor.
      * apply Hk. rewrite Hbuf. apply Segmented_text; auto.
        -- split; [|lia].
           apply (f_equal (@length ascii)) in Hbuf.
           rewrite slice_length in Hbuf by lia. simpl in Hbuf. lia.
        -- constructor.
Qed.

Lemma extractSegments_segmented : forall input,
  Segmented input 0 (extractSegments input).
Proof.
  intros inp. unfold extractSegments.
  pose proof (extractLoop_segmented (length inp) inp 0 [] [] 0) as H.
  destruct (extractLoop (length inp) inp 0 [] []) as [segs buf].
  apply H.
  - lia.
  - lia.
  - rewrite slice_same. reflexivity.
  - intros k Hk. lia.
  - intros rest Hr. exact Hr.
Qed.

Lemma Segmented_unique : forall input i s1,
  Segmented input i s1 -> forall s2, Segmented input i s2 -> s1 = s2.
Proof.
  intros inp i s1 H. induction H as [|i j rest Hcs H IH|i j rest Hr Hn Hb H IH];
    intros s2 H2.
  - inversion H2 as [|i' j' rest' Hcs' H'|i' j' rest' Hr' Hn' Hb' H']; subst.
    + reflexivity.
    + apply controlSequenceAt_range in Hcs'. lia.
    + lia.
  - pose proof (controlSequenceAt_range _ _ _ Hcs) as Hr.
    inversion H2 as [E|i' j' rest' Hcs' H'|i' j' rest' Hr' Hn' Hb' H']; subst.
    + lia.
    + assert (j' = j) by congruence. subst j'.
      rewrite (IH _ H'). reflexivity.
    + rewrite Hn' in Hcs by lia. discriminate.
  - inversion H2 as [E|i' j' rest' Hcs' H'|i' j' rest' Hr' Hn' Hb' H']; subst.
    + lia.
    + rewrite Hn in Hcs' by lia. discriminate.
    + assert (j' = j).
      { destruct (Nat.lt_trichotomy j j') as [Hlt|[Heq|Hgt]]; [|auto|].
        - destruct Hb as [Hb|Hb]; [lia|].
          exfalso. apply Hb. apply Hn'. lia.
        - destruct Hb' as [Hb'|Hb']; [lia|].
          exfalso. apply Hb'. apply Hn. lia. }
      subst j'. rewrite (IH _ H'). reflexivity.
Qed.

Lemma controlSequenceAt_none : forall input k,
  controlSequenceAt input k = None ->
  byteAt input k <> ESC \/ length input <= k + 1.
Proof.
  intros inp k H. unfold controlSequenceAt in H.
  destruct (byteEq (byteAt inp k) escapeChar) eqn:E1.
  - destruct (k + 1 <? length inp) eqn:E2; cbn [andb] in H.
    + destruct (byteEq (byteAt inp (k + 1)) csiBracket); discriminate.
    + right. apply Nat.ltb_ge in E2. exact E2.
  - left. intros Heq. unfold byteEq, escapeChar in E1.
    rewrite Heq, Ascii.eqb_refl in E1. discriminate.
Qed.

Lemma controlSequenceAt_plain : forall input k,
  byteAt input k <> ESC -> controlSequenceAt input k = None.
Proof.
  intros inp k H. unfold controlSequenceAt.
  destruct (byteEq (byteAt inp k) escapeChar) eqn:E; [|reflexivity].
  apply byteEq_eq in E. contradiction.
Qed.

Lemma In_slice : forall (s : gostring) i j c,
  In c (slice s i j) ->
  exists k, i <= k < j /\ k < length s /\ byteAt s k = c.
Proof.
  intros s i j c H. unfold slice in H.
  apply (In_nth _ _ zero) in H. destruct H as (n & Hn & Hc).
  rewrite length_firstn, length_skipn in Hn.
  rewrite nth_firstn in Hc.
  destruct (n <? j - i) eqn:E.
  - apply Nat.ltb_lt in E. rewrite nth_skipn in Hc.
    exists (i + n). unfold byteAt. repeat split; try lia. exact Hc.
  - apply Nat.ltb_ge in E. lia.
Qed.

Lemma Segmented_text_positions : forall input i segs,
  Segmented input i segs ->
  forall seg, In seg segs -> isEscape seg = false ->
  exists a b, a < b <= length input /\ text seg = slice input a b
              /\ forall k, a <= k < b -> controlSequenceAt input k = None.
Proof.
  intros inp i segs H. induction H as [|i j rest Hcs H IH|i j rest Hr Hn Hb H IH];
    intros seg Hin He; simpl in Hin.
  - contradiction.
  - destruct Hin as [<-|Hin]; [discriminate|]. auto.
  - destruct Hin as [<-|Hin]; [|auto].
    exists i, j. repeat split; try lia. exact Hn.
Qed.

Lemma last_byte_split : forall (s : gostring) k,
  k + 1 = length s -> s = firstn k s ++ [byteAt s k].
Proof.
  intros s k H.
  rewrite <- (slice_full s) at 1.
  rewrite <- (slice_app s 0 k (length s)) by lia.
  rewrite slice_prefix. f_equal.
  replace (length s) with (S k) by lia. apply slice_one. lia.
Qed.

(** An escape character inside a text segment is the last byte of the
    input. *)
Lemma text_segment_escape : forall input seg,
  In seg (extractSegments input) -> isEscape seg = false ->
  In ESC (text seg) -> exists pre, input = pre ++ [ESC].
Proof.
  intros inp seg Hin He Hesc.
  destruct (Segmented_text_positions _ _ _ (extractSegments_segmented inp)
              seg Hin He) as (a & b & Hab & Ht & Hn).
  rewrite Ht in Hesc. apply In_slice in Hesc.
  destruct Hesc as (k & Hk & Hlen & Hb).
  destruct (controlSequenceAt_none _ _ (Hn k Hk)) as [Hne|Hend];
    [contradiction|].
  exists (firstn k inp). rewrite <- Hb. apply last_byte_split. lia.
Qed.

(** One control sequence at the start with plain text after it. *)
Lemma escape_then_text : forall input j,
  controlSequenceAt input 0 = Some j ->
  j < length input ->
  (forall k, j <= k < length input -> byteAt input k <> ESC) ->
  extractSegments input
  = [ mkSegment (slice input 0 j) true;
      mkSegment (slice input j (length input)) false ].
Proof.
  intros inp j Hcs Hj Hplain.
  apply (Segmented_unique inp 0); [apply extractSegments_segmented|].
  apply Segmented_escape; [exact Hcs|].
  apply Segmented_text.
  - lia.
  - intros k Hk. apply controlSequenceAt_plain. apply Hplain. exact Hk.
  - left. reflexivity.
  - constructor.
Qed.

(** ** Control sequences through the entry points *)

(** What [highlightTokens] writes for one segment. *)
Definition emit (h : Highlighter) (seg : segment) : gostring :=
  if isEscape seg then text seg else highlightTokensCleaned h (text seg).

Lemma highlightLoop_emit : forall h segments buf,
  highlightLoop h segments buf = buf ++ concat (map (emit h) segments).
Proof.
  intros h segments. induction segments as [|seg rest IH]; intros buf; simpl.
  - rewrite app_nil_r. reflexivity.
  - rewrite IH. unfold emit. destruct (isEscape seg);
      rewrite <- app_assoc; reflexivity.
Qed.

Lemma stripLoop_no_escape : forall fuel input i buf,
  ~ In ESC buf -> ~ In ESC (stripLoop fuel input i buf).
Proof.
  induction fuel as [|fuel IH]; intros inp i buf H; simpl; [exact H|].
  destruct (i <? length inp); [|exact H].
  destruct (byteEq (byteAt inp i) escapeChar && (i + 1 <? length inp)
            && byteEq (byteAt inp (i + 1)) csiBracket); [apply IH, H|].
  destruct (byteEq (byteAt inp i) escapeChar) eqn:E; [apply IH, H|].
  apply IH. intros Hin. apply in_app_or in Hin.
  destruct Hin as [Hin|[Hin|[]]]; [auto|].
  unfold byteEq, escapeChar in E. rewrite Hin, Ascii.eqb_refl in E.
  discriminate.
Qed.

(** [StripANSI] leaves no escape character, so no control sequence. *)
Lemma StripANSI_no_escape : forall input, ~ In ESC (StripANSI input).
Proof.
  intros inp. unfold StripANSI. apply stripLoop_no_escape. intros [].
Qed.

(** C3, as the code has it.  An enabled highlighter's [HighlightForced]
    writes the segments of the input in their order, every escape segment
    as it stands and every text segment rendered: whatever is rendered
    before an escape segment comes before it, and whatever is rendered
    after it comes after.  [Highlight] instead strips the control
    sequences first: it returns the input as it is when the gate rejects
    the stripped text, and the rendering of the stripped text, which holds
    no escape character of the input, when the gate accepts it. *)
Theorem control_sequences_by_entry_point : forall h input,
  IsEnabled h = true ->
  HighlightForced h input = concat (map (emit h) (extractSegments input))
  /\ (forall before seg rest,
        extractSegments input = before ++ seg :: rest ->
        isEscape seg = true ->
        HighlightForced h input
        = concat (map (emit h) before) ++ text seg
          ++ concat (map (emit h) rest))
  /\ Highlight h input
     = (if looksLikeCisco h (StripANSI input)
        then highlightTokensCleaned h (StripANSI input)
        else input)
  /\ ~ In ESC (StripANSI input).
Proof.
  intros h inp He.
  assert (Hf : HighlightForced h inp
               = concat (map (emit h) (extractSegments inp))).
  { unfold HighlightForced. rewrite He. cbn [negb orb].
    destruct inp as [|c inp']; [reflexivity|]. cbn [isEmpty].
    unfold highlightTokens. rewrite highlightLoop_emit. reflexivity. }
  split; [exact Hf|]. split; [|split].
  - intros before seg rest Hs Hesc. rewrite Hf, Hs.
    rewrite map_app, concat_app. simpl. unfold emit at 2.
    rewrite Hesc. reflexivity.
  - unfold Highlight. rewrite He. cbn [negb orb].
    destruct inp as [|c inp']; [reflexivity|]. cbn [isEmpty].
    destruct (looksLikeCisco h (StripANSI (c :: inp'))); reflexivity.
  - apply StripANSI_no_escape.
Qed.

Lemma control_sequences_by_entry_point_witness :
  IsEnabled highlighter.New = true
  /\ HighlightForced highlighter.New (ESC :: bytes "[Khello")
     = concat (map (emit highlighter.New)
                   (extractSegments (ESC :: bytes "[Khello"))).
Proof.
  split; [reflexivity|].
  apply (control_sequences_by_entry_point highlighter.New
           (ESC :: bytes "[Khello")).
  reflexivity.
Defined.

(** The input escape character, [[Kinterface Gi0/0], against C3 as
    stated: [Highlight] renders the stripped text and the line-clear
    sequence of the input is gone from its output, while
    [HighlightForced] puts it first. *)
Lemma auto_entry_drops_control_sequence :
  Highlight highlighter.New (ESC :: bytes "[Kinterface Gi0/0")
    = highlightTokensCleaned highlighter.New (bytes "interface Gi0/0")
  /\ HighlightForced highlighter.New (ESC :: bytes "[Kinterface Gi0/0")
     = (ESC :: bytes "[K")
       ++ highlightTokensCleaned highlighter.New (bytes "interface Gi0/0")
  /\ strings.Contains
       (Highlight highlighter.New (ESC :: bytes "[Kinterface Gi0/0"))
       (ESC :: bytes "[K") = false
  /\ Highlight highlighter.New (ESC :: bytes "[Kinterface Gi0/0")
     <> concat (map (emit highlighter.New)
                    (extractSegments (ESC :: bytes "[Kinterface Gi0/0"))).
Proof.
  repeat split; try (vm_compute; reflexivity).
  vm_compute. discriminate.
Qed.

(** ** The matcher decides the regular language *)

(** The language of a pattern. *)
Inductive Matches : re -> gostring -> Prop :=
| Matches_eps : Matches Eps []
| Matches_cls : forall (p : ascii -> bool) c,
    p c = true -> Matches (Cls p) [c]
| Matches_cat : forall a b x y,
    Matches a x -> Matches b y -> Matches (Cat a b) (x ++ y)
| Matches_alt_l : forall a b x, Matches a x -> Matches (Alt a b) x
| Matches_alt_r : forall a b x, Matches b x -> Matches (Alt a b) x
| Matches_star_nil : forall a, Matches (Star a) []
| Matches_star_app : forall a x y,
    Matches a x -> Matches (Star a) y -> Matches (Star a) (x ++ y).

Ltac inv H := inversion H; subst; clear H.

Lemma nullable_Matches : forall r, nullable r = true <-> Matches r [].
Proof.
  induction r as [| |p|a IHa b IHb|a IHa b IHb|a IHa]; simpl.
  - split; [discriminate | intros H; inversion H].
  - split; [constructor | reflexivity].
  - split; [discriminate | intros H; inversion H].
  - rewrite andb_true_iff, IHa, IHb. split.
    + intros [Ha Hb]. apply (Matches_cat a b [] [] Ha Hb).
    + intros H. inversion H as [| |a' b' x y Hx Hy E1 E2| | | |].
      apply app_eq_nil in E2. destruct E2; subst. auto.
  - rewrite orb_true_iff, IHa, IHb. split.
    + intros [H|H]; [apply Matches_alt_l | apply Matches_alt_r]; exact H.
    + intros H. inversion H; subst; auto.
  - split; [constructor | reflexivity].
Qed.

Lemma Matches_void : forall x, ~ Matches Void x.
Proof. intros x H. inversion H. Qed.

Lemma Matches_eps_nil : forall x, Matches Eps x -> x = [].
Proof. intros x H. inversion H. reflexivity. Qed.

Lemma Matches_cat_inv : forall a b x,
  Matches (Cat a b) x ->
  exists u v, x = u ++ v /\ Matches a u /\ Matches b v.
Proof.
  intros a b x H. inversion H as [| |a' b' u v Hu Hv E1 E2| | | |]; subst.
  exists u, v. auto.
Qed.

Lemma Matches_alt_inv : forall a b x,
  Matches (Alt a b) x -> Matches a x \/ Matches b x.
Proof. intros a b x H. inversion H; subst; auto. Qed.

Lemma cat_Matches : forall a b x, Matches (cat a b) x <-> Matches (Cat a b) x.
Proof.
  intros a b x. split.
  - intros H.
    destruct a; destruct b; simpl in H;
      try exact H; try (exfalso; exact (Matches_void _ H));
      try (apply (Matches_cat Eps _ [] x); [constructor | exact H]);
      try (rewrite <- (app_nil_r x);
           apply Matches_cat; [exact H | constructor]).
  - intros H. apply Matches_cat_inv in H.
    destruct H as (u & v & -> & Hu & Hv).
    destruct a; destruct b; simpl;
      try (apply Matches_cat; assumption);
      try (exfalso; eapply Matches_void; eassumption);
      try (apply Matches_eps_nil in Hu; subst; simpl; assumption);
      try (apply Matches_eps_nil in Hv; subst; rewrite app_nil_r; assumption).
Qed.

Lemma alt_Matches : forall a b x, Matches (alt a b) x <-> Matches (Alt a b) x.
Proof.
  intros a b x. split.
  - intros H. destruct a; destruct b; simpl in H;
      try exact H;
      try (apply Matches_alt_r; exact H);
      try (apply Matches_alt_l; exact H).
  - intros H. apply Matches_alt_inv in H. destruct H as [H|H];
      destruct a; destruct b; simpl;
      try (apply Matches_alt_l; assumption);
      try (apply Matches_alt_r; assumption);
      try assumption;
      try (exfalso; eapply Matches_void; eassumption).
Qed.

(** A non-empty word of a starred language starts with a non-empty word
    of the language. *)
Lemma Matches_star_cons : forall a c x,
  Matches (Star a) (c :: x) ->
  exists x1 x2, x = x1 ++ x2 /\ Matches a (c :: x1) /\ Matches (Star a) x2.
Proof.
  intros a c x H.
  remember (Star a) as r eqn:Er. remember (c :: x) as s eqn:Es.
  revert a c x Er Es.
  induction H as [|p c'|a' b' u v Hu IHu Hv IHv|a' b' u Hu IHu
                  |a' b' u Hu IHu|a'|a' u v Hu IHu Hv IHv];
    intros a c x Er Es; try discriminate.
  inversion Er; subst a'.
  destruct u as [|c' u].
  - simpl in Es. apply (IHv a c x eq_refl Es).
  - simpl in Es. inversion Es; subst.
    exists u, v. auto.
Qed.

Lemma deriv_Matches : forall r c x,
  Matches (deriv c r) x <-> Matches r (c :: x).
Proof.
  induction r as [| |p|a IHa b IHb|a IHa b IHb|a IHa]; intros c x; simpl.
  - split; intros H; inversion H.
  - split; intros H; inversion H.
  - destruct (p c) eqn:E; split; intros H.
    + apply Matches_eps_nil in H. subst. constructor. exact E.
    + inversion H; subst. constructor.
    + inversion H.
    + inversion H; subst. congruence.
  - destruct (nullable a) eqn:En.
    + rewrite alt_Matches. split.
      * intros H. apply Matches_alt_inv in H. destruct H as [H|H].
        -- apply cat_Matches, Matches_cat_inv in H.
           destruct H as (u & v & -> & Hu & Hv).
           apply IHa in Hu.
           apply (Matches_cat a b (c :: u) v Hu Hv).
        -- apply IHb in H. apply nullable_Matches in En.
           apply (Matches_cat a b [] (c :: x) En H).
      * intros H. apply Matches_cat_inv in H.
        destruct H as (u & v & Heq & Hu & Hv).
        destruct u as [|c' u]; simpl in Heq.
        -- subst v. apply Matches_alt_r. apply IHb. exact Hv.
        -- inversion Heq; subst. apply Matches_alt_l. apply cat_Matches.
           apply Matches_cat; [apply IHa; exact Hu | exact Hv].
    + rewrite cat_Matches. split.
      * intros H. apply Matches_cat_inv in H.
        destruct H as (u & v & -> & Hu & Hv).
        apply IHa in Hu. apply (Matches_cat a b (c :: u) v Hu Hv).
      * intros H. apply Matches_cat_inv in H.
        destruct H as (u & v & Heq & Hu & Hv).
        destruct u as [|c' u]; simpl in Heq.
        -- apply nullable_Matches in Hu. congruence.
        -- inversion Heq; subst.
           apply Matches_cat; [apply IHa; exact Hu | exact Hv].
  - rewrite alt_Matches. split.
    + intros H. apply Matches_alt_inv in H. destruct H as [H|H].
      * apply Matches_alt_l. apply IHa. assumption.
      * apply Matches_alt_r. apply IHb. assumption.
    + intros H. apply Matches_alt_inv in H. destruct H as [H|H].
      * apply Matches_alt_l. apply IHa. assumption.
      * apply Matches_alt_r. apply IHb. assumption.
  - rewrite cat_Matches. split.
    + intros H. apply Matches_cat_inv in H.
      destruct H as (u & v & -> & Hu & Hv).
      apply IHa in Hu. apply (Matches_star_app a (c :: u) v Hu Hv).
    + intros H. apply Matches_star_cons in H.
      destruct H as (x1 & x2 & -> & H1 & H2).
      apply Matches_cat; [apply IHa; exact H1 | exact H2].
Qed.

(** [MatchString] on an anchored pattern is membership in its language. *)
Lemma fullMatch_Matches : forall x r, fullMatch r x = true <-> Matches r x.
Proof.
  induction x as [|c x IH]; intros r; simpl.
  - apply nullable_Matches.
  - rewrite IH. apply deriv_Matches.
Qed.

Lemma prefixMatch_Matches : forall x r,
  prefixMatch r x = true <->
  exists u v, x = u ++ v /\ Matches r u.
Proof.
  induction x as [|c x IH]; intros r; simpl.
  - rewrite orb_false_r, nullable_Matches. split.
    + intros H. exists [], []. auto.
    + intros (u & v & Huv & H). symmetry in Huv.
      apply app_eq_nil in Huv. destruct Huv; subst. exact H.
  - rewrite orb_true_iff, nullable_Matches. split.
    + intros [H|H].
      * exists [], (c :: x). auto.
      * destruct (isVoid (deriv c r)); [discriminate|].
        apply IH in H. destruct H as (u & v & -> & H).
        exists (c :: u), v. split; [reflexivity|].
        apply deriv_Matches. exact H.
    + intros (u & v & Huv & H). destruct u as [|c' u].
      * left. exact H.
      * right. simpl in Huv. inversion Huv; subst.
        apply deriv_Matches in H.
        destruct (deriv c' r) eqn:E; simpl;
          try (apply IH; exists u, v; auto).
        exfalso. exact (Matches_void _ H).
Qed.

(** [MatchString] on a pattern without anchors: some substring is in the
    language. *)
Lemma search_Matches : forall x r,
  search r x = true <->
  exists t u v, x = t ++ u ++ v /\ Matches r u.
Proof.
  induction x as [|c x IH]; intros r.
  - change (search r []) with (prefixMatch r [] || false).
    rewrite orb_false_r, prefixMatch_Matches. split.
    + intros (u & v & Hx & H). exists [], u, v. auto.
    + intros (t & u & v & Hx & H). symmetry in Hx.
      apply app_eq_nil in Hx. destruct Hx as [_ Hx].
      exists u, v. auto.
  - change (search r (c :: x)) with (prefixMatch r (c :: x) || search r x).
    rewrite orb_true_iff, prefixMatch_Matches, IH. split.
    + intros [(u & v & Hx & H)|(t & u & v & Hx & H)].
      * exists [], u, v. auto.
      * exists (c :: t), u, v. subst x. auto.
    + intros (t & u & v & Hx & H). destruct t as [|c' t].
      * left. exists u, v. auto.
      * right. simpl in Hx. inversion Hx; subst.
        exists t, u, v. auto.
Qed.

(** ** The prompt matcher against the prompt pattern *)

Lemma span_forallb : forall p s a b,
  span p s = (a, b) ->
  forallb p a = true
  /\ match b with [] => True | c :: _ => p c = false end.
Proof.
  intros p. induction s as [|c s IH]; intros a b H; simpl in H.
  - inversion H. simpl. auto.
  - destruct (p c) eqn:E.
    + destruct (span p s) as [a' b'] eqn:E'. inversion H; subst.
      destruct (IH a' b eq_refl) as [H1 H2]. simpl. rewrite E, H1. auto.
    + inversion H; subst. simpl. auto.
Qed.

Lemma span_prefix : forall p a b,
  forallb p a = true ->
  span p (a ++ b) = (a ++ fst (span p b), snd (span p b)).
Proof.
  intros p. induction a as [|c a IH]; intros b H; simpl in *.
  - destruct (span p b). reflexivity.
  - apply andb_true_iff in H. destruct H as [Hc Ha].
    rewrite Hc, (IH b Ha). reflexivity.
Qed.

Lemma span_stop : forall p b,
  match b with [] => True | c :: _ => p c = false end ->
  span p b = ([], b).
Proof.
  intros p [|c b] H; simpl; [reflexivity|]. rewrite H. reflexivity.
Qed.

Lemma span_run : forall p a b,
  forallb p a = true ->
  match b with [] => True | c :: _ => p c = false end ->
  span p (a ++ b) = (a, b).
Proof.
  intros p a b Ha Hb. rewrite span_prefix by exact Ha.
  rewrite span_stop by exact Hb. simpl. rewrite app_nil_r. reflexivity.
Qed.

Lemma Matches_star_cls : forall p x,
  Matches (Star (Cls p)) x <-> forallb p x = true.
Proof.
  intros p x. split.
  - intros H. remember (Star (Cls p)) as r eqn:Er.
    induction H as [|p' c' Hc|a' b' u v Hu IHu Hv IHv|a' b' u Hu IHu
                    |a' b' u Hu IHu|a'|a' u v Hu IHu Hv IHv];
      try discriminate; [reflexivity|].
    inversion Er; subst a'. inversion Hu; subst. simpl.
    rewrite (IHv eq_refl). rewrite H0. reflexivity.
  - induction x as [|c x IH]; intros H; simpl in H.
    + constructor.
    + apply andb_true_iff in H. destruct H as [Hc Hx].
      apply (Matches_star_app (Cls p) [c] x).
      * constructor. exact Hc.
      * apply IH. exact Hx.
Qed.

Lemma Matches_plus_cls : forall p x,
  Matches (plus (Cls p)) x <-> x <> [] /\ forallb p x = true.
Proof.
  intros p x. unfold plus. split.
  - intros H. apply Matches_cat_inv in H.
    destruct H as (u & v & -> & Hu & Hv).
    inversion Hu; subst. apply Matches_star_cls in Hv.
    split; [discriminate|]. simpl. rewrite H0, Hv. reflexivity.
  - intros [Hne H]. destruct x as [|c x]; [congruence|].
    simpl in H. apply andb_true_iff in H. destruct H as [Hc Hx].
    apply (Matches_cat (Cls p) (Star (Cls p)) [c] x).
    + constructor. exact Hc.
    + apply Matches_star_cls. exact Hx.
Qed.

Lemma Matches_chr : forall c x, Matches (chr c) x <-> x = [c].
Proof.
  intros c x. unfold chr. split.
  - intros H. inversion H; subst. apply byteEq_eq in H1. subst. reflexivity.
  - intros ->. constructor. apply Ascii.eqb_refl.
Qed.

Lemma Matches_opt : forall r x, Matches (opt r) x <-> x = [] \/ Matches r x.
Proof.
  intros r x. unfold opt. split.
  - intros H. apply Matches_alt_inv in H. destruct H as [H|H]; [|auto].
    left. apply Matches_eps_nil. exact H.
  - intros [->|H]; [apply Matches_alt_l; constructor | apply Matches_alt_r, H].
Qed.

(** The parts of a prompt line, as the pattern lets them be. *)
Definition promptShape (l h mo : gostring) (c : ascii) (ws cmd tl : gostring)
  : Prop :=
  forallb isLeadByte l = true
  /\ (h <> [] /\ forallb isHostByte h = true)
  /\ (mo = [] \/ exists m, (m <> [] /\ forallb isModeByte m = true)
                           /\ mo = "("%char :: m ++ [")"%char])
  /\ isPromptChar c = true
  /\ forallb isSpaceByte ws = true
  /\ forallb isDot cmd = true
  /\ (tl = [] \/ tl = [LF]).

Lemma promptPattern_shape : forall x,
  Matches promptPattern x <->
  exists l h mo c ws cmd tl,
    promptShape l h mo c ws cmd tl
    /\ x = l ++ h ++ mo ++ c :: ws ++ cmd ++ tl.
Proof.
  intros x. unfold promptPattern, seq. split.
  - intros H.
    apply Matches_cat_inv in H. destruct H as (l & x1 & -> & Hl & H).
    apply Matches_cat_inv in H. destruct H as (h & x2 & -> & Hh & H).
    apply Matches_cat_inv in H. destruct H as (mo & x3 & -> & Hmo & H).
    apply Matches_cat_inv in H. destruct H as (cc & x4 & -> & Hc & H).
    apply Matches_cat_inv in H. destruct H as (ws & x5 & -> & Hws & H).
    apply Matches_cat_inv in H. destruct H as (cmd & tl & -> & Hcmd & Htl).
    inversion Hc as [|p c Hpc| | | | |]; subst.
    exists l, h, mo, c, ws, cmd, tl. split; [|reflexivity].
    unfold promptShape.
    apply Matches_star_cls in Hl. apply Matches_plus_cls in Hh.
    apply Matches_star_cls in Hws. apply Matches_star_cls in Hcmd.
    apply Matches_opt in Hmo. apply Matches_opt in Htl.
    repeat split; try tauto.
    + destruct Hmo as [->|Hmo]; [left; reflexivity | right].
      apply Matches_cat_inv in Hmo. destruct Hmo as (u & v & -> & Hu & Hv).
      apply Matches_cat_inv in Hv. destruct Hv as (m & w & -> & Hm & Hw).
      apply Matches_chr in Hu, Hw. subst.
      apply Matches_plus_cls in Hm. exists m. split; [exact Hm | reflexivity].
    + destruct Htl as [->|Htl]; [left; reflexivity | right].
      apply Matches_chr in Htl. exact Htl.
  - intros (l & h & mo & c & ws & cmd & tl & Hs & ->).
    destruct Hs as (Hl & Hh & Hmo & Hc & Hws & Hcmd & Htl).
    apply Matches_cat; [apply Matches_star_cls; exact Hl|].
    apply Matches_cat; [apply Matches_plus_cls; exact Hh|].
    apply Matches_cat.
    { apply Matches_opt. destruct Hmo as [->|(m & Hm & ->)]; [auto | right].
      apply (Matches_cat _ _ ["("%char] (m ++ [")"%char]));
        [apply Matches_chr; reflexivity|].
      apply Matches_cat; [apply Matches_plus_cls; exact Hm|].
      apply Matches_chr. reflexivity. }
    apply (Matches_cat _ _ [c] (ws ++ cmd ++ tl)); [constructor; exact Hc|].
    apply Matches_cat; [apply Matches_star_cls; exact Hws|].
    apply Matches_cat; [apply Matches_star_cls; exact Hcmd|].
    apply Matches_opt. destruct Htl as [->| ->]; [auto | right].
    apply Matches_chr. reflexivity.
Qed.

Ltac all_bytes c :=
  destruct c as [[] [] [] [] [] [] [] []]; vm_compute;
  try reflexivity; try discriminate; auto.

Lemma host_not_lead : forall c, isHostByte c = true -> isLeadByte c = false.
Proof. intros c. all_bytes c. Qed.

Lemma promptChar_not_host : forall c,
  isPromptChar c = true -> isHostByte c = false /\ byteEq c "(" = false.
Proof. intros c. all_bytes c. Qed.

Lemma isDot_false : forall c, isDot c = false -> c = LF.
Proof.
  intros c H. unfold isDot in H. apply negb_false_iff in H.
  apply byteEq_eq. exact H.
Qed.

Lemma head_app : forall (p : ascii -> bool) (a b : gostring),
  match a with [] => False | c :: _ => p c = false end ->
  match a ++ b with [] => True | c :: _ => p c = false end.
Proof. intros p [|c a] b H; simpl; [contradiction | exact H]. Qed.

Lemma promptModeGroup_shape : forall r g rest,
  promptModeGroup r = Some (g, rest) ->
  r = g ++ rest
  /\ (g = [] \/ exists m, (m <> [] /\ forallb isModeByte m = true)
                          /\ g = "("%char :: m ++ [")"%char]).
Proof.
  intros r g rest H. split; [apply promptModeGroup_app; exact H|].
  unfold promptModeGroup in H.
  destruct r as [|c r']; [inversion H; auto|].
  destruct (byteEq c "(") eqn:Ec; [|inversion H; auto].
  apply byteEq_eq in Ec. subst c.
  destruct (span isModeByte r') as [m r''] eqn:E.
  apply span_forallb in E. destruct E as [Hm _].
  destruct m as [|x m]; [discriminate|].
  destruct r'' as [|c' rest']; [discriminate|].
  destruct (byteEq c' ")") eqn:Ec'; [|discriminate].
  apply byteEq_eq in Ec'. subst c'. inversion H; subst.
  right. exists (x :: m). split; [split; [discriminate | exact Hm]|].
  reflexivity.
Qed.

Lemma promptModeGroup_complete : forall mo c rest,
  (mo = [] \/ exists m, (m <> [] /\ forallb isModeByte m = true)
                        /\ mo = "("%char :: m ++ [")"%char]) ->
  isPromptChar c = true ->
  promptModeGroup (mo ++ c :: rest) = Some (mo, c :: rest).
Proof.
  intros mo c rest Hmo Hc. unfold promptModeGroup.
  destruct Hmo as [->|(m & [Hne Hm] & ->)].
  - simpl. destruct (promptChar_not_host c Hc) as [_ H]. rewrite H.
    reflexivity.
  - simpl. rewrite <- app_assoc. simpl.
    rewrite (span_run isModeByte m (")"%char :: c :: rest) Hm)
      by reflexivity.
    destruct m as [|x m]; [congruence|]. reflexivity.
Qed.

(** What is left of the line after the blanks: the command up to an
    optional final LF. *)
Lemma command_after_blanks : forall cmd tl a b,
  forallb isDot cmd = true -> (tl = [] \/ tl = [LF]) ->
  cmd ++ tl = a ++ b ->
  exists g, (span isDot b = (g, []) \/ span isDot b = (g, [LF]))
            /\ (a = [] -> g = cmd).
Proof.
  induction cmd as [|x cmd IH]; intros tl a b Hd Htl Heq; simpl in *.
  - destruct Htl as [->| ->].
    + symmetry in Heq. apply app_eq_nil in Heq. destruct Heq; subst.
      exists []. split; [left; reflexivity | auto].
    + destruct a as [|y a]; simpl in Heq.
      * subst b. exists []. split; [right; reflexivity | auto].
      * inversion Heq as [[Hy Hab]]. symmetry in Hab.
        apply app_eq_nil in Hab. destruct Hab; subst.
        exists []. split; [left; reflexivity | discriminate].
  - apply andb_true_iff in Hd. destruct Hd as [Hx Hd].
    destruct a as [|y a]; simpl in Heq.
    + subst b. exists (x :: cmd). split; [|auto].
      change (x :: cmd ++ tl) with ((x :: cmd) ++ tl).
      destruct Htl as [->| ->].
      * left. rewrite app_nil_r.
        rewrite <- (app_nil_r (x :: cmd)) at 1.
        apply span_run; [simpl; rewrite Hx, Hd; reflexivity | exact I].
      * right. apply span_run;
          [simpl; rewrite Hx, Hd; reflexivity | reflexivity].
    + inversion Heq as [[Hy Hab]]. subst y.
      destruct (IH tl a b Hd Htl Hab) as (g & Hg & _).
      exists g. split; [exact Hg | discriminate].
Qed.

(** Every line of the prompt shape is matched, with the groups of the
    shape; the command group is the one that follows the longest run of
    blanks. *)
Lemma FindStringSubmatch_prompt_complete : forall l h mo c ws cmd tl,
  promptShape l h mo c ws cmd tl ->
  exists m,
    FindStringSubmatch_prompt (l ++ h ++ mo ++ c :: ws ++ cmd ++ tl) = Some m
    /\ lead m = l /\ host m = h /\ mode m = mo /\ promptChar m = c
    /\ (match cmd with [] => True | b :: _ => isSpaceByte b = false end ->
        command m = cmd).
Proof.
  intros l h mo c ws cmd tl (Hl & [Hne Hh] & Hmo & Hc & Hws & Hcmd & Htl).
  unfold FindStringSubmatch_prompt.
  destruct h as [|h0 h']; [congruence|].
  assert (Hh0 : isHostByte h0 = true)
    by (simpl in Hh; apply andb_true_iff in Hh; tauto).
  rewrite (span_run isLeadByte l _ Hl)
    by (simpl; apply host_not_lead; exact Hh0).
  destruct (promptChar_not_host c Hc) as [Hch Hcp].
  rewrite (span_run isHostByte (h0 :: h') _ Hh).
  2:{ destruct Hmo as [->|(m & _ & ->)]; simpl; [exact Hch | reflexivity]. }
  rewrite (promptModeGroup_complete mo c _ Hmo Hc). rewrite Hc.
  rewrite (span_prefix isSpaceByte ws (cmd ++ tl) Hws).
  destruct (span isSpaceByte (cmd ++ tl)) as [a b] eqn:Es. cbn [fst snd].
  pose proof (span_app _ _ _ _ Es) as Hab.
  destruct (command_after_blanks cmd tl a b Hcmd Htl Hab) as (g & Hg & Hga).
  assert (Hcmd' : match cmd with [] => True
                             | b0 :: _ => isSpaceByte b0 = false end ->
                  g = cmd).
  { intros Hm. destruct cmd as [|b0 cmd'].
    - (* nothing but blanks and the LF is left *)
      simpl in Es, Hab.
      destruct Htl as [->| ->]; simpl in Es; inversion Es; subst.
      + destruct Hg as [Hg|Hg]; simpl in Hg; inversion Hg; reflexivity.
      + destruct Hg as [Hg|Hg]; simpl in Hg; inversion Hg; reflexivity.
    - apply Hga. simpl in Es. rewrite Hm in Es. inversion Es. reflexivity. }
  destruct Hg as [Hg|Hg]; rewrite Hg.
  - eexists. split; [reflexivity|]. cbn. auto.
  - replace (byteEq LF LF) with true by reflexivity.
    eexists. split; [reflexivity|]. cbn. auto.
Qed.

(** A match has the prompt shape, with the longest run of blanks before
    the command. *)
Lemma FindStringSubmatch_prompt_sound : forall x m,
  FindStringSubmatch_prompt x = Some m ->
  exists ws tl,
    promptShape (lead m) (host m) (mode m) (promptChar m) ws (command m) tl
    /\ x = lead m ++ host m ++ mode m ++ promptChar m :: ws ++ command m ++ tl
    /\ match command m ++ tl with
       | [] => True
       | b :: _ => isSpaceByte b = false
       end.
Proof.
  intros x m H. unfold FindStringSubmatch_prompt in H.
  destruct (span isLeadByte x) as [g1 r1] eqn:E1.
  destruct (span isHostByte r1) as [g2 r2] eqn:E2.
  destruct g2 as [|h0 g2]; [discriminate|].
  destruct (promptModeGroup r2) as [[g3 r3]|] eqn:E3; [|discriminate].
  destruct r3 as [|c r4]; [discriminate|].
  destruct (isPromptChar c) eqn:Ec; [|discriminate].
  destruct (span isSpaceByte r4) as [ws r5] eqn:E4.
  destruct (span isDot r5) as [g5 r6] eqn:E5.
  pose proof (span_app _ _ _ _ E1) as A1.
  pose proof (span_app _ _ _ _ E2) as A2.
  pose proof (span_app _ _ _ _ E4) as A4.
  pose proof (span_app _ _ _ _ E5) as A5.
  apply span_forallb in E1, E2, E4, E5.
  apply promptModeGroup_shape in E3. destruct E3 as [A3 Hmo].
  assert (Hm : m = mkPromptMatch g1 (h0 :: g2) g3 c g5
               /\ (r6 = [] \/ r6 = [LF])).
  { destruct r6 as [|c' [|c'' r7]]; try discriminate.
    - inversion H. auto.
    - destruct (byteEq c' LF) eqn:El; [|discriminate].
      apply byteEq_eq in El. subst c'. inversion H. auto. }
  destruct Hm as [-> Htl]. cbn [lead host mode promptChar command].
  exists ws, r6. split; [|split].
  - unfold promptShape. repeat split; try tauto. discriminate.
  - subst. reflexivity.
  - rewrite <- A5. tauto.
Qed.

(** [IsPrompt]'s [MatchString] and [tryTokenizePrompt]'s
    [FindStringSubmatch] agree on which inputs are prompts. *)
Lemma prompt_matchers_agree : forall x,
  MatchString promptPattern x = true <->
  exists m, FindStringSubmatch_prompt x = Some m.
Proof.
  intros x. unfold MatchString. rewrite fullMatch_Matches, promptPattern_shape.
  split.
  - intros (l & h & mo & c & ws & cmd & tl & Hs & ->).
    destruct (FindStringSubmatch_prompt_complete _ _ _ _ _ _ _ Hs)
      as (m & Hm & _).
    exists m. exact Hm.
  - intros (m & Hm).
    destruct (FindStringSubmatch_prompt_sound _ _ Hm) as (ws & tl & Hs & Hx & _).
    exists (lead m), (host m), (mode m), (promptChar m), ws, (command m), tl.
    auto.
Qed.

(** ** The round bounds of the loops are never the reason a loop ends *)

Lemma remaining_advance : forall l,
  pos l < length (input l) -> remaining (advance l) = remaining l - 1.
Proof.
  intros l H. unfold remaining. rewrite advance_input, advance_pos by exact H.
  lia.
Qed.

Lemma remaining_advance_le : forall l, remaining (advance l) <= remaining l.
Proof.
  intros l. unfold remaining. rewrite advance_input.
  destruct (advance_range l). lia.
Qed.

Lemma advanceWhile_stable : forall cond fuel l,
  remaining l <= fuel ->
  advanceWhile cond (S fuel) l = advanceWhile cond fuel l.
Proof.
  intros cond fuel. induction fuel as [|fuel IH]; intros l H.
  - simpl. destruct (pos l <? length (input l)) eqn:E; [|reflexivity].
    apply Nat.ltb_lt in E. unfold remaining in H. lia.
  - change (advanceWhile cond (S (S fuel)) l)
      with (if (pos l <? length (input l)) && cond (byteAt (input l) (pos l))
            then advanceWhile cond (S fuel) (advance l) else l).
    change (advanceWhile cond (S fuel) l)
      with (if (pos l <? length (input l)) && cond (byteAt (input l) (pos l))
            then advanceWhile cond fuel (advance l) else l).
    destruct (pos l <? length (input l)) eqn:E; [|reflexivity].
    apply Nat.ltb_lt in E. cbn [andb].
    destruct (cond (byteAt (input l) (pos l))); [|reflexivity].
    apply IH. rewrite remaining_advance by exact E. lia.
Qed.

Lemma scanStringLoop_stable : forall quote fuel l,
  remaining l <= fuel ->
  scanStringLoop quote (S fuel) l = scanStringLoop quote fuel l.
Proof.
  intros quote fuel. induction fuel as [|fuel IH]; intros l H.
  - simpl. destruct (pos l <? length (input l)) eqn:E; [|reflexivity].
    apply Nat.ltb_lt in E. unfold remaining in H. lia.
  - remember (S fuel) as n eqn:En.
    simpl. destruct (pos l <? length (input l)) eqn:E.
    2:{ subst n. simpl. rewrite E. reflexivity. }
    apply Nat.ltb_lt in E.
    subst n. cbn [scanStringLoop].
    apply Nat.ltb_lt in E. rewrite E. apply Nat.ltb_lt in E.
    destruct (byteEq (byteAt (input l) (pos l)) quote); [reflexivity|].
    apply IH.
    destruct (byteEq (byteAt (input l) (pos l)) BACKSLASH
              && (pos l + 1 <? length (input l))).
    + pose proof (remaining_advance_le (advance l)) as Hle.
      pose proof (remaining_advance l E). lia.
    + rewrite remaining_advance by exact E. lia.
Qed.

Lemma skipWhile_exit : forall p fuel input i,
  length input - i <= fuel ->
  skipWhile p fuel input i < length input ->
  p (byteAt input (skipWhile p fuel input i)) = false.
Proof.
  intros p fuel inp. induction fuel as [|fuel IH]; intros i Hf; simpl.
  - intros H. lia.
  - destruct (i <? length inp) eqn:E; cbn [andb].
    + destruct (p (byteAt inp i)) eqn:Ep.
      * apply IH. apply Nat.ltb_lt in E. lia.
      * intros _. exact Ep.
    + apply Nat.ltb_ge in E. intros H. lia.
Qed.

Lemma stripLoop_stable : forall fuel input i buf,
  length input - i <= fuel -> i <= length input ->
  stripLoop (S fuel) input i buf = stripLoop fuel input i buf.
Proof.
  induction fuel as [|fuel IH]; intros inp i buf Hf Hi.
  - simpl. destruct (i <? length inp) eqn:E; [|reflexivity].
    apply Nat.ltb_lt in E. lia.
  - remember (S fuel) as n eqn:En. simpl.
    destruct (i <? length inp) eqn:E.
    2:{ subst n. simpl. rewrite E. reflexivity. }
    subst n. cbn [stripLoop]. rewrite E. apply Nat.ltb_lt in E.
    destruct (byteEq (byteAt inp i) escapeChar) eqn:Ee; cbn [andb].
    + destruct (i + 1 <? length inp) eqn:E1; cbn [andb].
      * apply Nat.ltb_lt in E1.
        pose proof (skipCSISequence_range inp (i + 2)).
        pose proof (skipOtherEscapeSequence_range inp (i + 1)).
        destruct (byteEq (byteAt inp (i + 1)) csiBracket);
          apply IH; lia.
      * pose proof (skipOtherEscapeSequence_range inp (i + 1)).
        apply IH; lia.
    + apply IH; lia.
Qed.

Lemma extractSegments_any_fuel : forall fuel input,
  length input <= fuel ->
  flushText (fst (extractLoop fuel input 0 [] []))
            (snd (extractLoop fuel input 0 [] []))
  = extractSegments input.
Proof.
  intros fuel inp H.
  apply (Segmented_unique inp 0); [|apply extractSegments_segmented].
  apply (extractLoop_segmented fuel inp 0 [] [] 0).
  - lia.
  - lia.
  - rewrite slice_same. reflexivity.
  - intros k Hk. lia.
  - intros rest Hr. exact Hr.
Qed.

Lemma HasPrefix_length : forall s p,
  strings.HasPrefix s p = true -> length p <= length s.
Proof.
  induction s as [|c s IH]; intros [|x p] H; simpl in *; try lia;
    try discriminate.
  apply andb_true_iff in H. destruct H as [_ H]. apply IH in H. lia.
Qed.

Lemma spaceRunes_nonempty :
  Forall (fun r => 1 <= length r) strings.spaceRunes.
Proof. unfold strings.spaceRunes. repeat constructor. Qed.

Lemma firstRune_range : forall (f : list nat -> bool) rs n,
  strings.firstRune f rs = Some n ->
  exists r, In r rs /\ f r = true /\ n = length r.
Proof.
  intros f rs n. unfold strings.firstRune.
  induction rs as [|r rs IH]; intros H; [discriminate|].
  cbn [filter] in H. destruct (f r) eqn:E.
  - exists r. inversion H. repeat split; [left; reflexivity | exact E].
  - destruct (IH H) as (r' & Hin & Hf & Hn).
    exists r'. repeat split; [right; exact Hin | exact Hf | exact Hn].
Qed.

Lemma leadingSpace_unfold : forall s,
  strings.leadingSpace s
  = strings.firstRune (fun r => strings.HasPrefix s (strings.runeBytes r))
                      strings.spaceRunes.
Proof. reflexivity. Qed.

Lemma trailingSpace_unfold : forall s,
  strings.trailingSpace s
  = strings.firstRune
      (fun e => strings.HasPrefix s (rev (strings.runeBytes e)))
      strings.spaceRunes.
Proof. reflexivity. Qed.

Lemma spaceRune_length : forall r, In r strings.spaceRunes -> 1 <= length r.
Proof.
  intros r Hin.
  exact (proj1 (Forall_forall _ _) spaceRunes_nonempty r Hin).
Qed.

Lemma leadingSpace_range : forall s n,
  strings.leadingSpace s = Some n -> 1 <= n <= length s.
Proof.
  intros s n H. rewrite leadingSpace_unfold in H.
  destruct (firstRune_range _ _ _ H) as (r & Hin & Hp & Hn).
  apply HasPrefix_length in Hp.
  unfold strings.runeBytes in Hp. rewrite length_map in Hp.
  apply spaceRune_length in Hin. lia.
Qed.

Lemma trailingSpace_range : forall s n,
  strings.trailingSpace s = Some n -> 1 <= n <= length s.
Proof.
  intros s n H. rewrite trailingSpace_unfold in H.
  destruct (firstRune_range _ _ _ H) as (r & Hin & Hp & Hn).
  apply HasPrefix_length in Hp.
  unfold strings.runeBytes in Hp. rewrite length_rev, length_map in Hp.
  apply spaceRune_length in Hin. lia.
Qed.

Lemma trimLeft_S : forall fuel s,
  strings.trimLeft (S fuel) s
  = match strings.leadingSpace s with
    | Some n => strings.trimLeft fuel (skipn n s)
    | None => s
    end.
Proof. reflexivity. Qed.

Lemma trimRightRev_S : forall fuel r,
  strings.trimRightRev (S fuel) r
  = match strings.trailingSpace r with
    | Some n => strings.trimRightRev fuel (skipn n r)
    | None => r
    end.
Proof. reflexivity. Qed.

Lemma trimLeft_stable : forall fuel s,
  length s <= fuel ->
  strings.trimLeft (S fuel) s = strings.trimLeft fuel s.
Proof.
  induction fuel as [|fuel IH]; intros s H.
  - rewrite trimLeft_S.
    destruct (strings.leadingSpace s) as [n|] eqn:E; [|reflexivity].
    apply leadingSpace_range in E. lia.
  - rewrite (trimLeft_S (S fuel) s), (trimLeft_S fuel s).
    destruct (strings.leadingSpace s) as [n|] eqn:E; [|reflexivity].
    apply (IH (skipn n s)).
    apply leadingSpace_range in E. rewrite length_skipn. lia.
Qed.

Lemma trimRightRev_stable : forall fuel s,
  length s <= fuel ->
  strings.trimRightRev (S fuel) s = strings.trimRightRev fuel s.
Proof.
  induction fuel as [|fuel IH]; intros s H.
  - rewrite trimRightRev_S.
    destruct (strings.trailingSpace s) as [n|] eqn:E; [|reflexivity].
    apply trailingSpace_range in E. lia.
  - rewrite (trimRightRev_S (S fuel) s), (trimRightRev_S fuel s).
    destruct (strings.trailingSpace s) as [n|] eqn:E; [|reflexivity].
    apply (IH (skipn n s)).
    apply trailingSpace_range in E. rewrite length_skipn. lia.
Qed.

(** ** [StripANSI], piece by piece *)

Lemma byteAt_app_r : forall (pre s : gostring) i,
  byteAt (pre ++ s) (length pre + i) = byteAt s i.
Proof. intros pre s i. unfold byteAt. apply app_nth2_plus. Qed.

Lemma ltb_shift : forall (pre s : gostring) i,
  (length pre + i <? length (pre ++ s)) = (i <? length s).
Proof.
  intros pre s i. rewrite length_app.
  destruct (Nat.ltb_spec i (length s));
    [apply Nat.ltb_lt | apply Nat.ltb_ge]; lia.
Qed.

Lemma skipWhile_shift : forall p fuel (pre s : gostring) i,
  skipWhile p fuel (pre ++ s) (length pre + i)
  = length pre + skipWhile p fuel s i.
Proof.
  intros p fuel pre s. induction fuel as [|fuel IH]; intros i;
    [reflexivity|].
  cbn [skipWhile]. rewrite ltb_shift, byteAt_app_r.
  destruct ((i <? length s) && p (byteAt s i)); [|reflexivity].
  rewrite <- IH. f_equal. lia.
Qed.

Lemma skipCSISequence_shift : forall (pre s : gostring) i,
  skipCSISequence (pre ++ s) (length pre + i)
  = length pre + skipCSISequence s i.
Proof.
  intros pre s i. unfold skipCSISequence.
  replace (length (pre ++ s) - (length pre + i)) with (length s - i)
    by (rewrite length_app; lia).
  rewrite skipWhile_shift, ltb_shift, byteAt_app_r.
  destruct ((skipWhile isCSIParamByte (length s - i) s i <? length s)
            && isCSIFinalByte
                 (byteAt s (skipWhile isCSIParamByte (length s - i) s i)));
    lia.
Qed.

Lemma skipOtherEscapeSequence_shift : forall (pre s : gostring) i,
  skipOtherEscapeSequence (pre ++ s) (length pre + i)
  = length pre + skipOtherEscapeSequence s i.
Proof.
  intros pre s i. unfold skipOtherEscapeSequence.
  replace (length (pre ++ s) - (length pre + i)) with (length s - i)
    by (rewrite length_app; lia).
  rewrite skipWhile_shift, ltb_shift.
  destruct (skipWhile isCSIIntermediateByte (length s - i) s i <? length s);
    lia.
Qed.

Lemma stripLoop_S : forall fuel input i buf,
  stripLoop (S fuel) input i buf
  = if i <? length input then
      if byteEq (byteAt input i) escapeChar && (i + 1 <? length input)
         && byteEq (byteAt input (i + 1)) csiBracket
      then stripLoop fuel input (skipCSISequence input (i + 2)) buf
      else if byteEq (byteAt input i) escapeChar
      then stripLoop fuel input (skipOtherEscapeSequence input (i + 1)) buf
      else stripLoop fuel input (S i) (buf ++ [byteAt input i])
    else buf.
Proof. reflexivity. Qed.

(** The loop sees the input from the cursor on only. *)
Lemma stripLoop_shift : forall fuel (pre s : gostring) i buf,
  stripLoop fuel (pre ++ s) (length pre + i) buf = stripLoop fuel s i buf.
Proof.
  induction fuel as [|fuel IH]; intros pre s i buf; [reflexivity|].
  rewrite !stripLoop_S. rewrite ltb_shift, byteAt_app_r.
  replace (length pre + i + 1) with (length pre + (i + 1)) by lia.
  replace (length pre + i + 2) with (length pre + (i + 2)) by lia.
  rewrite ltb_shift, byteAt_app_r.
  rewrite skipCSISequence_shift, skipOtherEscapeSequence_shift.
  replace (S (length pre + i)) with (length pre + S i) by lia.
  rewrite !IH. reflexivity.
Qed.

Lemma stripLoop_buf : forall fuel input i buf,
  stripLoop fuel input i buf = buf ++ stripLoop fuel input i [].
Proof.
  induction fuel as [|fuel IH]; intros inp i buf.
  - simpl. rewrite app_nil_r. reflexivity.
  - rewrite !stripLoop_S.
    destruct (i <? length inp); [|rewrite app_nil_r; reflexivity].
    destruct (byteEq (byteAt inp i) escapeChar && (i + 1 <? length inp)
              && byteEq (byteAt inp (i + 1)) csiBracket); [apply IH|].
    destruct (byteEq (byteAt inp i) escapeChar); [apply IH|].
    rewrite (IH inp (S i) (buf ++ [byteAt inp i])).
    rewrite (IH inp (S i) ([] ++ [byteAt inp i])).
    rewrite <- app_assoc. reflexivity.
Qed.

Lemma stripLoop_enough : forall extra fuel input i buf,
  length input - i <= fuel -> i <= length input ->
  stripLoop (extra + fuel) input i buf = stripLoop fuel input i buf.
Proof.
  induction extra as [|extra IH]; intros fuel inp i buf Hf Hi;
    [reflexivity|].
  change (S extra + fuel) with (S (extra + fuel)).
  rewrite stripLoop_stable by lia. apply IH; assumption.
Qed.

(** [StripANSI] from a position on. *)
Lemma stripLoop_suffix : forall fuel (pre s : gostring),
  length s <= fuel ->
  stripLoop fuel (pre ++ s) (length pre) [] = StripANSI s.
Proof.
  intros fuel pre s H. unfold StripANSI.
  replace (length pre) with (length pre + 0) by lia.
  rewrite stripLoop_shift.
  replace fuel with ((fuel - length s) + length s) by lia.
  apply stripLoop_enough; lia.
Qed.

(** A byte other than the escape character is kept. *)
Lemma StripANSI_plain : forall c rest,
  c <> ESC -> StripANSI (c :: rest) = c :: StripANSI rest.
Proof.
  intros c rest Hc. unfold StripANSI at 1.
  change (length (c :: rest)) with (S (length rest)).
  rewrite stripLoop_S.
  change (0 <? length (c :: rest)) with true. cbv iota.
  change (byteAt (c :: rest) 0) with c.
  assert (He : byteEq c escapeChar = false).
  { destruct (byteEq c escapeChar) eqn:E; [|reflexivity].
    apply byteEq_eq in E. contradiction. }
  rewrite He. cbn [andb app].
  rewrite stripLoop_buf.
  pose proof (stripLoop_suffix (length rest) [c] rest (Nat.le_refl _)) as Hs.
  change ([c] ++ rest) with (c :: rest) in Hs.
  change (length [c]) with 1 in Hs.
  rewrite Hs. reflexivity.
Qed.

Lemma StripANSI_nil : StripANSI [] = [].
Proof. reflexivity. Qed.

(** Text free of escape characters passes unchanged, whatever follows. *)
Lemma StripANSI_text : forall x y,
  ~ In ESC x -> StripANSI (x ++ y) = x ++ StripANSI y.
Proof.
  induction x as [|c x IH]; intros y H; [reflexivity|].
  simpl. rewrite StripANSI_plain.
  - rewrite IH; [reflexivity|]. intros Hin. apply H. right. exact Hin.
  - intros E. apply H. left. exact E.
Qed.

Lemma skipWhile_run : forall p (run rest : gostring) fuel,
  forallb p run = true ->
  match rest with [] => True | c :: _ => p c = false end ->
  length run <= fuel ->
  skipWhile p fuel (run ++ rest) 0 = length run.
Proof.
  intros p. induction run as [|c run IH]; intros rest fuel Hr Hs Hf.
  - destruct fuel as [|fuel]; [reflexivity|]. cbn [skipWhile app].
    destruct rest as [|x rest]; [reflexivity|].
    change (byteAt (x :: rest) 0) with x. rewrite Hs, andb_false_r.
    reflexivity.
  - destruct fuel as [|fuel]; [simpl in Hf; lia|].
    simpl in Hr. apply andb_true_iff in Hr. destruct Hr as [Hc Hr].
    cbn [skipWhile]. change ((c :: run) ++ rest) with (c :: run ++ rest).
    change (0 <? length (c :: run ++ rest)) with true.
    change (byteAt (c :: run ++ rest) 0) with c. rewrite Hc. cbn [andb].
    pose proof (skipWhile_shift p fuel [c] (run ++ rest) 0) as Hsh.
    change ([c] ++ run ++ rest) with (c :: run ++ rest) in Hsh.
    change (length [c] + 0) with 1 in Hsh. rewrite Hsh.
    rewrite IH; [reflexivity | exact Hr | exact Hs | simpl in Hf; lia].
Qed.

Lemma final_not_param : forall c,
  isCSIFinalByte c = true -> isCSIParamByte c = false.
Proof. intros c. all_bytes c. Qed.

Lemma byteAt_length : forall (a : gostring) c b, byteAt (a ++ c :: b) (length a) = c.
Proof. intros a c b. unfold byteAt. apply nth_middle. Qed.

(** A parameterized sequence with its final byte ends where the final
    byte ends. *)
Lemma skipCSISequence_whole : forall ps f rest,
  forallb isCSIParamByte ps = true -> isCSIFinalByte f = true ->
  skipCSISequence (ps ++ f :: rest) 0 = S (length ps).
Proof.
  intros ps f rest Hp Hf. unfold skipCSISequence.
  rewrite (skipWhile_run isCSIParamByte ps (f :: rest)).
  - rewrite byteAt_length, Hf.
    replace (length ps <? length (ps ++ f :: rest)) with true; [reflexivity|].
    symmetry. apply Nat.ltb_lt. rewrite length_app. simpl. lia.
  - exact Hp.
  - apply final_not_param. exact Hf.
  - rewrite length_app. simpl. lia.
Qed.

(** [StripANSI] drops a parameterized sequence and goes on behind it. *)
Lemma StripANSI_csi : forall ps f rest,
  forallb isCSIParamByte ps = true -> isCSIFinalByte f = true ->
  StripANSI (ESC :: csiBracket :: ps ++ f :: rest) = StripANSI rest.
Proof.
  intros ps f rest Hp Hf. unfold StripANSI at 1.
  set (inp := ESC :: csiBracket :: ps ++ f :: rest).
  assert (Hlen : length inp = S (S (length ps + S (length rest)))).
  { subst inp. simpl. rewrite length_app. reflexivity. }
  rewrite Hlen, stripLoop_S, Hlen.
  change (0 <? S (S (length ps + S (length rest)))) with true.
  change (0 + 1 <? S (S (length ps + S (length rest)))) with true.
  change (byteAt inp 0) with ESC. change (byteAt inp (0 + 1)) with csiBracket.
  change (byteEq ESC escapeChar) with true.
  change (byteEq csiBracket csiBracket) with true. cbn [andb].
  pose proof (skipCSISequence_shift [ESC; csiBracket] (ps ++ f :: rest) 0)
    as Hsh.
  change ([ESC; csiBracket] ++ ps ++ f :: rest) with inp in Hsh.
  change (length [ESC; csiBracket] + 0) with (0 + 2) in Hsh.
  rewrite Hsh, (skipCSISequence_whole ps f rest Hp Hf).
  assert (Hsplit : inp = (ESC :: csiBracket :: ps ++ [f]) ++ rest).
  { subst inp. simpl. rewrite <- app_assoc. reflexivity. }
  assert (Hl : length [ESC; csiBracket] + S (length ps)
               = length (ESC :: csiBracket :: ps ++ [f])).
  { simpl. rewrite length_app. simpl. lia. }
  rewrite Hl, Hsplit. apply stripLoop_suffix. lia.
Qed.

Lemma stripLoop_at_end : forall fuel input i buf,
  length input <= i -> stripLoop fuel input i buf = buf.
Proof.
  intros [|fuel] inp i buf H; [reflexivity|].
  rewrite stripLoop_S. apply Nat.ltb_ge in H. rewrite H. reflexivity.
Qed.

(** A final escape character with nothing after it is dropped. *)
Lemma StripANSI_lone_escape : StripANSI [ESC] = [].
Proof. reflexivity. Qed.

(** Codes that [StripANSI] removes whole in front of any text. *)
Definition cleanCode (code : gostring) : Prop :=
  forall x, StripANSI (code ++ x) = StripANSI x.

Lemma cleanCode_nil : cleanCode [].
Proof. intros x. reflexivity. Qed.

Lemma cleanCode_app : forall a b, cleanCode a -> cleanCode b -> cleanCode (a ++ b).
Proof.
  intros a b Ha Hb x. rewrite <- app_assoc, Ha, Hb. reflexivity.
Qed.

Lemma cleanCode_csi : forall ps f,
  forallb isCSIParamByte ps = true -> isCSIFinalByte f = true ->
  cleanCode (ESC :: csiBracket :: ps ++ [f]).
Proof.
  intros ps f Hp Hf x. simpl. rewrite <- app_assoc. simpl.
  apply StripANSI_csi; assumption.
Qed.

(** The decimal digits are parameter bytes. *)
Lemma string_of_uint_params : forall u,
  forallb isCSIParamByte
    (String.list_ascii_of_string (DecimalString.NilEmpty.string_of_uint u))
  = true.
Proof. induction u; simpl; auto. Qed.

Lemma Itoa_params : forall n, forallb isCSIParamByte (Itoa n) = true.
Proof. intros n. unfold Itoa, bytes. apply string_of_uint_params. Qed.

(** Every [RGB] colour is a code [StripANSI] removes. *)
Lemma RGB_clean : forall r g b, cleanCode (RGB r g b).
Proof.
  intros r g b. unfold RGB.
  pose proof (cleanCode_csi
                (bytes "38;2;" ++ Itoa r ++ bytes ";" ++ Itoa g ++ bytes ";"
                 ++ Itoa b) "m") as H.
  replace (ESC :: bytes "[38;2;" ++ Itoa r ++ bytes ";" ++ Itoa g
             ++ bytes ";" ++ Itoa b ++ bytes "m")
    with (ESC :: csiBracket
            :: (bytes "38;2;" ++ Itoa r ++ bytes ";" ++ Itoa g ++ bytes ";"
                ++ Itoa b) ++ ["m"%char]).
  - apply H; [|reflexivity].
    rewrite !forallb_app, !Itoa_params. reflexivity.
  - cbn [bytes String.list_ascii_of_string app].
    repeat (rewrite <- ?app_assoc; cbn [app]). reflexivity.
Qed.

Lemma style_codes_clean :
  cleanCode Reset /\ cleanCode Bold /\ cleanCode Dim /\ cleanCode Italic.
Proof.
  repeat split.
  - apply (cleanCode_csi (bytes "0") "m"); reflexivity.
  - apply (cleanCode_csi (bytes "1") "m"); reflexivity.
  - apply (cleanCode_csi (bytes "2") "m"); reflexivity.
  - apply (cleanCode_csi (bytes "3") "m"); reflexivity.
Qed.

(** ** Rendering and stripping *)

(** What [renderTokens] writes for one token. *)
Definition piece (th : Theme) (token : Token) : gostring :=
  match GetColor th (Type_ token) with
  | [] => Value token
  | color => color ++ Value token ++ Reset
  end.

Lemma renderLoop_pieces : forall th tokens buf,
  renderLoop th tokens buf = buf ++ concat (map (piece th) tokens).
Proof.
  intros th tokens. induction tokens as [|t rest IH]; intros buf.
  - simpl. rewrite app_nil_r. reflexivity.
  - cbn [renderLoop map concat]. rewrite IH. unfold piece.
    destruct (GetColor th (Type_ t)); rewrite <- app_assoc; reflexivity.
Qed.

(** A theme all of whose colours are codes [StripANSI] removes. *)
Definition themeClean (th : Theme) : Prop :=
  forall ty, cleanCode (GetColor th ty).

Lemma lookupColor_clean : forall m ty,
  Forall (fun kv => cleanCode (snd kv)) m -> cleanCode (lookupColor m ty).
Proof.
  intros m ty H. induction H as [|[k color] m Hc Hm IH].
  - apply cleanCode_nil.
  - cbn [lookupColor]. destruct (tokenTypeEq k ty); assumption.
Qed.

Lemma strip_pieces : forall th tokens,
  themeClean th ->
  Forall (fun t => ~ In ESC (Value t)) tokens ->
  StripANSI (concat (map (piece th) tokens)) = concatValues tokens.
Proof.
  intros th tokens Hth H. induction H as [|t rest Ht Hrest IH].
  - reflexivity.
  - cbn [map concat]. unfold concatValues. cbn [map concat].
    fold (concatValues rest). rewrite <- IH. unfold piece at 1.
    pose proof (Hth (Type_ t)) as Hc.
    destruct (GetColor th (Type_ t)) as [|c0 color].
    + apply StripANSI_text. exact Ht.
    + rewrite <- !app_assoc. rewrite Hc.
      rewrite StripANSI_text by exact Ht.
      destruct style_codes_clean as [Hr _]. rewrite Hr. reflexivity.
Qed.

Lemma renderTokens_strip : forall h tokens,
  themeClean (theme h) ->
  Forall (fun t => ~ In ESC (Value t)) tokens ->
  StripANSI (renderTokens h tokens) = concatValues tokens.
Proof.
  intros h tokens Hth H. unfold renderTokens.
  rewrite renderLoop_pieces. apply strip_pieces; assumption.
Qed.

(** The colours of a palette, field by field. *)
Definition paletteColors (p : Palette) : list gostring :=
  [ Foreground p; Comment p; Command p; Section_ p; Protocol p; Action p;
    Interface p; IP p; Number p; String_ p; Keyword p; Operator p; ASN p;
    Community p; Value_ p; MAC p; Negation p; StateGood p; StateBad p;
    StateWarning p; Duration p; RouteProtocol p; PromptHost p; PromptMode p;
    PromptOper p; PromptConf p ].

Lemma buildTheme_clean : forall p,
  Forall cleanCode (paletteColors p) -> themeClean (buildTheme p).
Proof.
  intros p H ty. unfold GetColor, buildTheme. cbn [colors].
  destruct style_codes_clean as (Hr & Hb & Hd & Hi).
  unfold paletteColors in H.
  repeat match goal with
         | H : Forall _ (_ :: _) |- _ => inversion H; subst; clear H
         end.
  apply lookupColor_clean.
  repeat (constructor; cbn [snd];
          [first [ assumption | apply cleanCode_nil
                 | apply cleanCode_app; assumption ]|]).
  constructor.
Qed.

Lemma TokyoNightTheme_clean : themeClean TokyoNightTheme.
Proof.
  unfold TokyoNightTheme. cbv zeta. apply buildTheme_clean.
  unfold paletteColors. cbn [Foreground Comment Command Section_ Protocol
    Action Interface IP Number String_ Keyword Operator ASN Community Value_
    MAC Negation StateGood StateBad StateWarning Duration RouteProtocol
    PromptHost PromptMode PromptOper PromptConf].
  repeat (constructor; [apply RGB_clean|]). constructor.
Qed.

Lemma SetColor_clean : forall th ty color,
  themeClean th -> cleanCode color -> themeClean (SetColor th ty color).
Proof.
  intros th ty color Hth Hc ty'. unfold GetColor, SetColor.
  cbn [colors lookupColor]. destruct (tokenTypeEq ty ty'); [exact Hc|].
  apply Hth.
Qed.

(** Text without escape characters is one text segment. *)
Lemma extractSegments_plain : forall input,
  ~ In ESC input ->
  extractSegments input
  = match input with
    | [] => []
    | _ => [mkSegment input false]
    end.
Proof.
  intros inp H.
  apply (Segmented_unique inp 0); [apply extractSegments_segmented|].
  destruct inp as [|c inp'] eqn:E; [constructor|]. rewrite <- E in *.
  rewrite <- (slice_full inp) at 2.
  apply Segmented_text.
  - subst inp. simpl. lia.
  - intros k Hk. apply controlSequenceAt_plain. intros Hb. apply H.
    rewrite <- Hb. unfold byteAt. apply nth_In. lia.
  - left. reflexivity.
  - constructor.
Qed.

Lemma in_concatValues : forall tokens t c,
  In t tokens -> In c (Value t) -> In c (concatValues tokens).
Proof.
  intros tokens t c Ht Hc. unfold concatValues. apply in_concat.
  exists (Value t). split; [apply in_map; exact Ht | exact Hc].
Qed.

Lemma lossless_values_plain : forall tokens input,
  concatValues tokens = input -> ~ In ESC input ->
  Forall (fun t => ~ In ESC (Value t)) tokens.
Proof.
  intros tokens inp Hc H. apply Forall_forall. intros t Ht Hin.
  apply H. rewrite <- Hc. eapply in_concatValues; eassumption.
Qed.

Lemma tokensOf_lossless : forall l,
  pos l = 0 -> FindStringSubmatch_prompt (input l) = None ->
  concatValues (tokensOf l) = input l.
Proof.
  intros l Hp Hn. unfold tokensOf.
  destruct (Tokenize_returns l) as [tokens Ht]. rewrite Ht.
  apply (scan_path_lossless l tokens Hp Hn Ht).
Qed.

Lemma rendered_strip : forall h l,
  themeClean (theme h) -> pos l = 0 ->
  FindStringSubmatch_prompt (input l) = None ->
  ~ In ESC (input l) ->
  StripANSI (renderTokens h (tokensOf l)) = input l.
Proof.
  intros h l Hth Hp Hn He.
  pose proof (tokensOf_lossless l Hp Hn) as Hc.
  rewrite renderTokens_strip; [exact Hc | exact Hth|].
  apply (lossless_values_plain _ (input l)); assumption.
Qed.

Lemma StripANSI_id : forall x, ~ In ESC x -> StripANSI x = x.
Proof.
  intros x H. rewrite <- (app_nil_r x) at 1.
  rewrite StripANSI_text by exact H. rewrite StripANSI_nil.
  apply app_nil_r.
Qed.

Lemma not_In_ESC_example :
  ~ In ESC (bytes "interface GigabitEthernet0/0/0").
Proof.
  intros H. vm_compute in H.
  repeat (destruct H as [H|H]; [discriminate|]). exact H.
Qed.

(** X1. On an input that is no prompt, the values of the tokens of
    [Tokenize], in order, concatenate to the input, in whichever mode the
    lexer is. *)
Theorem Tokenize_scan_lossless : forall l tokens,
  pos l = 0 ->
  FindStringSubmatch_prompt (input l) = None ->
  Tokenize l = Some tokens ->
  concatValues tokens = input l.
Proof. exact scan_path_lossless. Qed.

Lemma Tokenize_scan_lossless_witness :
  pos (lexer.New (bytes "ip address 10.0.0.1 255.255.255.0")) = 0
  /\ concatValues (tokensOf (lexer.New (bytes "ip address 10.0.0.1 255.255.255.0")))
     = bytes "ip address 10.0.0.1 255.255.255.0".
Proof.
  split; [reflexivity|].
  apply (Tokenize_scan_lossless
           (lexer.New (bytes "ip address 10.0.0.1 255.255.255.0"))
           (tokensOf (lexer.New (bytes "ip address 10.0.0.1 255.255.255.0")))).
  - reflexivity.
  - vm_compute. reflexivity.
  - vm_compute. reflexivity.
Defined.

(** X2. [StripANSI] keeps text that holds no escape character, drops a
    parameterized control sequence (escape, bracket, parameter bytes, one
    final byte) and goes on behind it; its result holds no escape
    character, so stripping twice is stripping once. *)
Theorem StripANSI_laws : forall x ps f y,
  ~ In ESC x ->
  forallb isCSIParamByte ps = true -> isCSIFinalByte f = true ->
  StripANSI (x ++ ESC :: csiBracket :: ps ++ f :: y) = x ++ StripANSI y
  /\ StripANSI x = x
  /\ ~ In ESC (StripANSI y)
  /\ StripANSI (StripANSI y) = StripANSI y.
Proof.
  intros x ps f y Hx Hp Hf. repeat split.
  - rewrite StripANSI_text by exact Hx.
    rewrite StripANSI_csi by assumption. reflexivity.
  - apply StripANSI_id. exact Hx.
  - apply StripANSI_no_escape.
  - apply StripANSI_id. apply StripANSI_no_escape.
Qed.

Lemma StripANSI_laws_witness :
  StripANSI (bytes "before" ++ ESC :: csiBracket :: bytes "38;5;208"
             ++ "m"%char :: bytes "after")
  = bytes "before" ++ StripANSI (bytes "after").
Proof.
  apply (StripANSI_laws (bytes "before") (bytes "38;5;208") "m"%char
           (bytes "after")).
  - intros H. vm_compute in H.
    repeat (destruct H as [H|H]; [discriminate|]). exact H.
  - reflexivity.
  - reflexivity.
Defined.

(** X3. With a theme whose colours are codes that [StripANSI] removes,
    stripping the rendering of tokens whose values hold no escape
    character gives back the concatenation of the values. *)
Theorem render_then_strip : forall h tokens,
  themeClean (theme h) ->
  Forall (fun t => ~ In ESC (Value t)) tokens ->
  StripANSI (renderTokens h tokens) = concatValues tokens.
Proof. exact renderTokens_strip. Qed.

Lemma render_then_strip_witness :
  StripANSI (renderTokens highlighter.New
               [ mkToken TokenCommand (bytes "ip") 1 1;
                 mkToken TokenText (bytes " ") 1 3;
                 mkToken TokenIPv4 (bytes "10.0.0.1") 1 4 ])
  = bytes "ip 10.0.0.1".
Proof.
  apply (render_then_strip highlighter.New
           [ mkToken TokenCommand (bytes "ip") 1 1;
             mkToken TokenText (bytes " ") 1 3;
             mkToken TokenIPv4 (bytes "10.0.0.1") 1 4 ]).
  - exact TokyoNightTheme_clean.
  - repeat constructor; cbn [Value]; intros H; vm_compute in H;
      repeat (destruct H as [H|H]; [discriminate|]); exact H.
Defined.

(** X4. Every theme built from a palette of [RGB] colours, the default
    theme among them, has only colours that [StripANSI] removes, and
    [SetColor] with such a colour keeps it so. *)
Theorem themes_strip_clean :
  (forall r g b, cleanCode (RGB r g b))
  /\ (forall p, Forall cleanCode (paletteColors p) ->
                themeClean (buildTheme p))
  /\ themeClean DefaultTheme
  /\ (forall th ty color,
        themeClean th -> cleanCode color -> themeClean (SetColor th ty color)).
Proof.
  split; [exact RGB_clean|]. split; [exact buildTheme_clean|].
  split; [exact TokyoNightTheme_clean | exact SetColor_clean].
Qed.

(** X5. For an input that holds no escape character and is no prompt,
    and a theme of codes that [StripANSI] removes, stripping the output of
    [Highlight], [HighlightForced] or [HighlightShowOutput] gives back the
    input, whether the highlighter is enabled or not. *)
Theorem highlight_then_strip : forall h input,
  themeClean (theme h) ->
  ~ In ESC input ->
  FindStringSubmatch_prompt input = None ->
  StripANSI (Highlight h input) = input
  /\ StripANSI (HighlightForced h input) = input
  /\ StripANSI (HighlightShowOutput h input) = input.
Proof.
  intros h inp Hth He Hn.
  pose proof (StripANSI_id inp He) as Hid.
  assert (Hclean : StripANSI (highlightTokensCleaned h inp) = inp).
  { unfold highlightTokensCleaned.
    apply (rendered_strip h (lexer.New inp)); auto. }
  repeat split.
  - unfold Highlight.
    destruct (negb (IsEnabled h) || isEmpty inp); [exact Hid|].
    rewrite Hid. destruct (negb (looksLikeCisco h inp)); assumption.
  - unfold HighlightForced.
    destruct (negb (IsEnabled h) || isEmpty inp) eqn:E; [exact Hid|].
    unfold highlightTokens. rewrite extractSegments_plain by exact He.
    destruct inp as [|c inp']; [reflexivity|].
    cbn [highlightLoop isEscape text app]. exact Hclean.
  - unfold HighlightShowOutput.
    destruct (negb (IsEnabled h) || isEmpty inp); [exact Hid|].
    apply (rendered_strip h (SetParseMode (lexer.New inp) ParseModeShow));
      auto.
Qed.

Lemma highlight_then_strip_witness :
  StripANSI (Highlight highlighter.New (bytes "interface GigabitEthernet0/0/0"))
  = bytes "interface GigabitEthernet0/0/0".
Proof.
  apply (highlight_then_strip highlighter.New
           (bytes "interface GigabitEthernet0/0/0")).
  - exact TokyoNightTheme_clean.
  - exact not_In_ESC_example.
  - vm_compute. reflexivity.
Defined.

(** ** The tokens of the prompt path *)

Lemma summary_app : forall a b, summary (a ++ b) = summary a ++ summary b.
Proof. intros a b. unfold summary. apply map_app. Qed.

Lemma appendCommandTokens_summary : forall cmdTokens tokens col,
  summary (fst (appendCommandTokens cmdTokens tokens col))
  = summary tokens ++ summary cmdTokens.
Proof.
  induction cmdTokens as [|tok rest IH]; intros tokens col.
  - simpl. rewrite app_nil_r. reflexivity.
  - cbn [appendCommandTokens]. rewrite IH, summary_app.
    rewrite <- app_assoc. reflexivity.
Qed.

(** The types and values the prompt path returns for a match, given the
    tokens of the command and whether the input ends in LF. *)
Definition promptSummary (m : PromptMatch) (cmdTokens : list Token)
    (endsLF : bool) : list (TokenType * gostring) :=
  (match lead m with [] => [] | _ => [(TokenText, lead m)] end)
  ++ [(TokenPromptHost, host m)]
  ++ (match mode m with [] => [] | _ => [(TokenPromptMode, mode m)] end)
  ++ [(if byteEq (promptChar m) "#" then TokenPromptConf
       else TokenPromptOper, [promptChar m])]
  ++ (match command m with
      | [] => []
      | _ => (TokenText, bytes " ") :: summary cmdTokens
      end)
  ++ (if endsLF then [(TokenText, [LF])] else []).

Lemma tryTokenizePrompt_summary : forall tk input m cmdTokens,
  FindStringSubmatch_prompt input = Some m ->
  (command m <> [] ->
   tk (lexer.New (strings.TrimSpace (command m))) = Some cmdTokens) ->
  exists tokens,
    tryTokenizePrompt tk input = Some (Some tokens)
    /\ summary tokens
       = promptSummary m cmdTokens (strings.HasSuffix input [LF]).
Proof.
  intros tk inp m cmdTokens H Hc. unfold tryTokenizePrompt, promptSummary.
  rewrite H.
  destruct (command m) as [|c cmd].
  - destruct (lead m); destruct (mode m); cbv zeta;
      destruct (strings.HasSuffix inp [LF]); eexists;
      (split; [reflexivity|]); reflexivity.
  - rewrite Hc by discriminate.
    destruct (lead m); destruct (mode m); cbv zeta;
      match goal with
      | |- context [appendCommandTokens ?a ?b ?c] =>
          pose proof (appendCommandTokens_summary a b c) as Hs;
          destruct (appendCommandTokens a b c) as [toks col']
      end;
      cbn [fst] in Hs;
      destruct (strings.HasSuffix inp [LF]); eexists;
      (split; [reflexivity|]);
      unfold summary in *; rewrite ?map_app, Hs;
      cbn [map app Type_ Value]; rewrite <- ?app_assoc; cbn [app];
      rewrite ?app_nil_r; reflexivity.
Qed.

Lemma TokenizeDepth_Tokenize : forall depth l,
  length (input l) < 2 * depth -> TokenizeDepth depth l = Tokenize l.
Proof.
  intros depth l Hd.
  destruct (Tokenize_returns l) as [tokens Ht].
  destruct (TokenizeDepth_returns depth l Hd) as [t H].
  destruct (Nat.le_ge_cases depth (S (length (input l)))) as [Hle|Hle].
  - rewrite H. symmetry. unfold Tokenize.
    apply (TokenizeDepth_stable depth); assumption.
  - rewrite Ht.
    apply (TokenizeDepth_stable (S (length (input l)))); assumption.
Qed.

Lemma tokensOf_Some : forall l, Tokenize l = Some (tokensOf l).
Proof.
  intros l. unfold tokensOf. destruct (Tokenize_returns l) as [t H].
  rewrite H. reflexivity.
Qed.

Lemma Tokenize_prompt_summary : forall l m,
  FindStringSubmatch_prompt (input l) = Some m ->
  summary (tokensOf l)
  = promptSummary m (tokensOf (lexer.New (strings.TrimSpace (command m))))
                  (strings.HasSuffix (input l) [LF]).
Proof.
  intros l m H.
  destruct (tryTokenizePrompt_summary (TokenizeDepth (length (input l)))
              (input l) m
              (tokensOf (lexer.New (strings.TrimSpace (command m)))) H)
    as (tokens & Ht & Hs).
  - intros _. rewrite TokenizeDepth_Tokenize; [apply tokensOf_Some|].
    cbn [input lexer.New]. pose proof (relexed_input_shorter _ _ H). lia.
  - assert (Hl : Tokenize l = Some tokens).
    { unfold Tokenize. cbn [TokenizeDepth]. rewrite Ht. reflexivity. }
    unfold tokensOf at 1. rewrite Hl. exact Hs.
Qed.

Lemma Tokenize_prompt_input_only : forall l l',
  input l = input l' ->
  FindStringSubmatch_prompt (input l) <> None ->
  Tokenize l = Tokenize l'.
Proof.
  intros l l' Hi Hm. unfold Tokenize. rewrite <- Hi. cbn [TokenizeDepth].
  rewrite <- Hi.
  destruct (FindStringSubmatch_prompt (input l)) as [m|] eqn:E;
    [|congruence].
  destruct (tryTokenizePrompt_returns (TokenizeDepth (length (input l)))
              (input l) m E) as [t Ht].
  - intros _. apply TokenizeDepth_returns. cbn [input lexer.New].
    pose proof (relexed_input_shorter _ _ E). lia.
  - rewrite Ht. reflexivity.
Qed.

(** ** No empty token *)

Lemma scanTokens_Forall : forall (P : Token -> Prop),
  (forall l, pos l < length (input l) -> P (fst (nextToken l))) ->
  forall fuel l tokens,
    Forall P tokens -> Forall P (fst (scanTokens fuel l tokens)).
Proof.
  intros P HP. induction fuel as [|fuel IH]; intros l tokens H; [exact H|].
  cbn [scanTokens]. destruct (pos l <? length (input l)) eqn:E; [|exact H].
  apply Nat.ltb_lt in E. specialize (HP l E).
  destruct (nextToken l) as [token l']. cbn [fst] in HP.
  apply IH.
  destruct (negb (tokenTypeEq (Type_ token) TokenText)
            || negb (streq (Value token) [])); [|exact H].
  apply Forall_app. split; [exact H | constructor; [exact HP | constructor]].
Qed.

Lemma nextToken_nonempty : forall l,
  pos l < length (input l) -> Value (fst (nextToken l)) <> [].
Proof.
  intros l H. pose proof (nextToken_spec l H) as Hs. unfold stepSpec in Hs.
  destruct Hs as (_ & Hp & Hv). rewrite Hv. intros E.
  apply (f_equal (@length ascii)) in E.
  rewrite slice_length in E by lia. simpl in E. lia.
Qed.

Lemma summary_values_nonempty : forall tokens,
  Forall (fun kv => snd kv <> []) (summary tokens) ->
  Forall (fun t => Value t <> []) tokens.
Proof.
  intros tokens H. unfold summary in H. rewrite Forall_map in H. exact H.
Qed.

Lemma promptSummary_nonempty : forall m cmdTokens endsLF,
  host m <> [] ->
  Forall (fun t => Value t <> []) cmdTokens ->
  Forall (fun kv : TokenType * gostring => snd kv <> [])
         (promptSummary m cmdTokens endsLF).
Proof.
  intros m cmdTokens endsLF Hh Hc. unfold promptSummary.
  repeat (apply Forall_app; split).
  - destruct (lead m); repeat constructor. discriminate.
  - repeat constructor. exact Hh.
  - destruct (mode m); repeat constructor. discriminate.
  - repeat constructor. discriminate.
  - destruct (command m); [constructor|].
    constructor; [discriminate|].
    unfold summary. rewrite Forall_map. exact Hc.
  - destruct endsLF; repeat constructor. discriminate.
Qed.

Lemma prompt_host_nonempty : forall input m,
  FindStringSubmatch_prompt input = Some m -> host m <> [].
Proof.
  intros inp m H.
  destruct (FindStringSubmatch_prompt_sound _ _ H) as (ws & tl & Hs & _).
  destruct Hs as (_ & [Hh _] & _). exact Hh.
Qed.

Lemma TokenizeDepth_nonempty : forall depth l tokens,
  TokenizeDepth depth l = Some tokens ->
  Forall (fun t => Value t <> []) tokens.
Proof.
  induction depth as [|depth IH]; intros l tokens H; [discriminate|].
  cbn [TokenizeDepth] in H.
  destruct (FindStringSubmatch_prompt (input l)) as [m|] eqn:E.
  - destruct (command m) as [|c cmd] eqn:Ec.
    + destruct (tryTokenizePrompt_summary (TokenizeDepth depth) (input l) m
                  [] E) as (toks & Ht & Hs); [congruence|].
      rewrite Ht in H. inversion H; subst toks.
      apply summary_values_nonempty. rewrite Hs.
      apply promptSummary_nonempty;
        [eapply prompt_host_nonempty; eassumption | constructor].
    + destruct (TokenizeDepth depth
                  (lexer.New (strings.TrimSpace (command m))))
        as [cmdTokens|] eqn:Et.
      * destruct (tryTokenizePrompt_summary (TokenizeDepth depth) (input l)
                    m cmdTokens E) as (toks & Ht & Hs); [auto|].
        rewrite Ht in H. inversion H; subst toks.
        apply summary_values_nonempty. rewrite Hs.
        apply promptSummary_nonempty;
          [eapply prompt_host_nonempty; eassumption | eapply IH; eassumption].
      * exfalso. unfold tryTokenizePrompt in H. rewrite E, Ec in H.
        rewrite <- Ec, Et in H.
        destruct (lead m); destruct (mode m); discriminate.
  - rewrite tryTokenizePrompt_no_match in H by exact E.
    inversion H; subst tokens.
    apply scanTokens_Forall; [apply nextToken_nonempty | constructor].
Qed.

(** X6. No token has an empty value: every token of [Tokenize], on the
    scanning path and on the prompt path, covers at least one byte. *)
Theorem Tokenize_no_empty_token : forall l tokens,
  Tokenize l = Some tokens -> Forall (fun t => Value t <> []) tokens.
Proof. intros l tokens. apply TokenizeDepth_nonempty. Qed.

Lemma Tokenize_no_empty_token_witness :
  Forall (fun t => Value t <> [])
         (tokensOf (lexer.New (bytes "Router# show ip route"))).
Proof.
  apply (Tokenize_no_empty_token (lexer.New (bytes "Router# show ip route"))).
  vm_compute. reflexivity.
Defined.

(** X7. The tokens of a prompt line: the leading blanks if any as Text,
    the host as PromptHost, the mode if present as PromptMode, the prompt
    character as PromptConf for [#] and PromptOper for [>], then, if a
    command follows, one blank as Text and the tokens of the trimmed
    command lexed by a new lexer, then LF as Text if the input ends in
    LF. *)
Theorem prompt_path_tokens : forall l m,
  FindStringSubmatch_prompt (input l) = Some m ->
  summary (tokensOf l)
  = promptSummary m (tokensOf (lexer.New (strings.TrimSpace (command m))))
                  (strings.HasSuffix (input l) [LF]).
Proof. exact Tokenize_prompt_summary. Qed.

Lemma prompt_path_tokens_witness :
  summary (tokensOf (lexer.New (bytes "Router(config-if)#")))
  = [ (TokenPromptHost, bytes "Router"); (TokenPromptMode, bytes "(config-if)");
      (TokenPromptConf, bytes "#") ].
Proof.
  rewrite (prompt_path_tokens (lexer.New (bytes "Router(config-if)#"))
             (mkPromptMatch [] (bytes "Router") (bytes "(config-if)") "#" [])).
  - reflexivity.
  - vm_compute. reflexivity.
Defined.

(** X8. On a prompt line the lexer's own mode plays no part: [Tokenize]
    returns the same tokens for every lexer on that input, so
    [HighlightShowOutput] renders a prompt line as the automatic mode
    does, its Show mode not reaching the command after the prompt. *)
Theorem prompt_path_ignores_mode : forall h input mode,
  FindStringSubmatch_prompt input <> None ->
  Tokenize (SetParseMode (lexer.New input) mode) = Tokenize (lexer.New input)
  /\ (IsEnabled h = true ->
      HighlightShowOutput h input = highlightTokensCleaned h input).
Proof.
  intros h inp mode Hm.
  assert (Ht : forall md, Tokenize (SetParseMode (lexer.New inp) md)
                          = Tokenize (lexer.New inp)).
  { intros md. apply Tokenize_prompt_input_only; [reflexivity | exact Hm]. }
  split; [apply Ht|].
  intros He. unfold HighlightShowOutput, highlightTokensCleaned.
  rewrite He. cbn [negb orb].
  destruct inp as [|c inp'].
  - exfalso. apply Hm. reflexivity.
  - cbn [isEmpty]. unfold tokensOf. rewrite Ht. reflexivity.
Qed.

Lemma prompt_path_ignores_mode_witness :
  Tokenize (SetParseMode (lexer.New (bytes "Router# show ip route"))
                         ParseModeShow)
  = Tokenize (lexer.New (bytes "Router# show ip route")).
Proof.
  apply (prompt_path_ignores_mode highlighter.New
           (bytes "Router# show ip route") ParseModeShow).
  vm_compute. discriminate.
Defined.

(** ** Lines and columns *)

(** The line and column reached from [(line, col)] by the bytes of [s]:
    LF starts a new line at column 1, every other byte moves one column
    on. *)
Fixpoint positionAfter (s : gostring) (line col : nat) : nat * nat :=
  match s with
  | [] => (line, col)
  | c :: s' =>
      if byteEq c LF then positionAfter s' (S line) 1
      else positionAfter s' line (S col)
  end.

Lemma positionAfter_app : forall a b line col,
  positionAfter (a ++ b) line col
  = positionAfter b (fst (positionAfter a line col))
                    (snd (positionAfter a line col)).
Proof.
  induction a as [|c a IH]; intros b line col; [reflexivity|].
  cbn [app positionAfter]. destruct (byteEq c LF); apply IH.
Qed.

(** The lexer's line and column are those of its cursor. *)
Definition tracked (l : Lexer) : Prop :=
  (line l, col l) = positionAfter (firstn (pos l) (input l)) 1 1.

Lemma firstn_snoc : forall (s : gostring) i,
  i < length s -> firstn (S i) s = firstn i s ++ [byteAt s i].
Proof.
  intros s i H. rewrite <- !slice_prefix. symmetry.
  apply slice_snoc; lia.
Qed.

Lemma advance_tracked : forall l, tracked l -> tracked (advance l).
Proof.
  intros l H. unfold advance.
  destruct (pos l <? length (input l)) eqn:E; [|exact H].
  apply Nat.ltb_lt in E. unfold tracked in *.
  destruct (byteEq (byteAt (input l) (pos l)) LF) eqn:El;
    cbn [line col pos input];
    rewrite (firstn_snoc _ _ E), positionAfter_app, <- H;
    cbn [fst snd positionAfter]; rewrite El; reflexivity.
Qed.

Lemma advanceWhile_tracked : forall cond fuel l,
  tracked l -> tracked (advanceWhile cond fuel l).
Proof.
  intros cond fuel. induction fuel as [|fuel IH]; intros l H; [exact H|].
  cbn [advanceWhile].
  destruct ((pos l <? length (input l)) && cond (byteAt (input l) (pos l)));
    [|exact H].
  apply IH, advance_tracked, H.
Qed.

Lemma scanStringLoop_tracked : forall quote fuel l,
  tracked l -> tracked (scanStringLoop quote fuel l).
Proof.
  intros quote fuel. induction fuel as [|fuel IH]; intros l H; [exact H|].
  cbn [scanStringLoop].
  destruct (pos l <? length (input l)); [|exact H].
  destruct (byteEq (byteAt (input l) (pos l)) quote);
    [apply advance_tracked, H|].
  apply IH, advance_tracked.
  destruct (byteEq (byteAt (input l) (pos l)) BACKSLASH
            && (pos l + 1 <? length (input l)));
    [apply advance_tracked, H | exact H].
Qed.

(** Classification leaves the cursor, the line and the column alone. *)
Lemma classifyWord_cursor : forall l word,
  let l' := snd (classifyWord l word) in
  input l' = input l /\ pos l' = pos l /\ line l' = line l /\ col l' = col l.
Proof.
  intros l word. rewrite classifyWord_unfold.
  assert (Hr : input (resolveMode l) = input l /\ pos (resolveMode l) = pos l
               /\ line (resolveMode l) = line l
               /\ col (resolveMode l) = col l).
  { unfold resolveMode.
    destruct (parseModeEq (parseMode l) ParseModeAuto
              && negb (detectedMode l)); repeat split. }
  destruct (parseModeEq (parseMode (resolveMode l)) ParseModeShow).
  - rewrite classifyShowWord_context. exact Hr.
  - cbv zeta. unfold classifyConfigWord. split_ifs; cbn [snd]; exact Hr.
Qed.

Lemma classifyWord_tracked : forall l word,
  tracked l -> tracked (snd (classifyWord l word)).
Proof.
  intros l word H. unfold tracked in *.
  destruct (classifyWord_cursor l word) as (Hi & Hp & Hl & Hc).
  rewrite Hi, Hp, Hl, Hc. exact H.
Qed.

(** A token starts where the lexer stands, and the lexer stays on
    track. *)
Lemma nextToken_tracked : forall l,
  tracked l ->
  tracked (snd (nextToken l))
  /\ Line (fst (nextToken l)) = line l
  /\ Column (fst (nextToken l)) = col l.
Proof.
  intros l H. unfold nextToken.
  destruct (length (input l) <=? pos l); [repeat split; exact H|].
  destruct (byteEq (byteAt (input l) (pos l)) "!" && (col l =? 1)).
  { unfold scanComment. cbn [fst snd Line Column].
    repeat split. apply advanceWhile_tracked, H. }
  destruct (byteEq (byteAt (input l) (pos l)) DQUOTE).
  { unfold scanString. cbn [fst snd].
    destruct (expectingValue l); cbn [withType Line Column];
      (repeat split; apply scanStringLoop_tracked, advance_tracked; exact H). }
  destruct (byteEq (byteAt (input l) (pos l)) "'").
  { unfold scanString. cbn [fst snd].
    destruct (expectingValue l); cbn [withType Line Column];
      (repeat split; apply scanStringLoop_tracked, advance_tracked; exact H). }
  destruct (isWhitespace (byteAt (input l) (pos l))).
  { unfold scanWhitespace. cbn [fst snd Line Column].
    repeat split. apply advanceWhile_tracked, H. }
  destruct (expectingValue l).
  { unfold scanValueToEndOfLine. cbn [fst snd Line Column].
    repeat split. apply advanceWhile_tracked. exact H. }
  unfold scanWord.
  match goal with
  | |- context [classifyWord ?a ?b] =>
      pose proof (classifyWord_tracked a b) as Hc;
      destruct (classifyWord a b) as [ty l2]
  end.
  cbn [fst snd Line Column] in *.
  repeat split. apply Hc. apply advanceWhile_tracked, H.
Qed.

(** Every token of the list stands at the line and column reached by the
    text before it, [pre] and the values of the tokens in front. *)
Fixpoint positioned (pre : gostring) (tokens : list Token) : Prop :=
  match tokens with
  | [] => True
  | t :: rest =>
      (Line t, Column t) = positionAfter pre 1 1
      /\ positioned (pre ++ Value t) rest
  end.

Lemma positioned_snoc : forall tokens pre t,
  positioned pre tokens ->
  (Line t, Column t) = positionAfter (pre ++ concatValues tokens) 1 1 ->
  positioned pre (tokens ++ [t]).
Proof.
  induction tokens as [|x tokens IH]; intros pre t H Ht.
  - cbn [app positioned]. unfold concatValues in Ht. simpl in Ht.
    rewrite app_nil_r in Ht. auto.
  - cbn [app positioned] in *. destruct H as [Hx H]. split; [exact Hx|].
    apply IH; [exact H|].
    unfold concatValues in *. cbn [map concat] in Ht.
    rewrite <- app_assoc. exact Ht.
Qed.

Lemma scanTokens_positioned : forall fuel l tokens,
  tracked l -> pos l <= length (input l) ->
  concatValues tokens = firstn (pos l) (input l) ->
  positioned [] tokens ->
  positioned [] (fst (scanTokens fuel l tokens)).
Proof.
  induction fuel as [|fuel IH]; intros l tokens Ht Hle Hc Hp; [exact Hp|].
  cbn [scanTokens]. destruct (pos l <? length (input l)) eqn:E; [|exact Hp].
  apply Nat.ltb_lt in E.
  pose proof (nextToken_spec l E) as Hs. unfold stepSpec in Hs.
  pose proof (nextToken_tracked l Ht) as (Ht' & Hline & Hcol).
  pose proof (nextToken_nonempty l E) as Hne.
  destruct (nextToken l) as [token l']. cbn [fst snd] in *.
  destruct Hs as (Hi & Hpos & Hv).
  assert (Hkeep : (negb (tokenTypeEq (Type_ token) TokenText)
                   || negb (streq (Value token) [])) = true).
  { destruct (streq (Value token) []) eqn:He; [|apply orb_true_r].
    apply streq_nil in He. contradiction. }
  rewrite Hkeep. apply IH.
  - exact Ht'.
  - rewrite Hi. lia.
  - rewrite concatValues_app, Hc, Hi. unfold concatValues at 1.
    cbn [map concat]. rewrite app_nil_r, Hv, <- !slice_prefix.
    apply slice_app; lia.
  - apply positioned_snoc; [exact Hp|]. cbn [app].
    rewrite Hc, Hline, Hcol. exact Ht.
Qed.

(** X9. On an input that is no prompt, lexed from its start at line 1,
    column 1, every token of [Tokenize] carries the line and column of its
    first byte: the position reached by the values of the tokens before
    it, where LF starts a new line at column 1. *)
Theorem token_positions : forall l tokens,
  pos l = 0 -> line l = 1 -> col l = 1 ->
  FindStringSubmatch_prompt (input l) = None ->
  Tokenize l = Some tokens ->
  positioned [] tokens.
Proof.
  intros l tokens Hp Hl Hc Hn H. unfold Tokenize in H.
  cbn [TokenizeDepth] in H.
  rewrite tryTokenizePrompt_no_match in H by exact Hn.
  inversion H; subst tokens.
  apply scanTokens_positioned.
  - unfold tracked. rewrite Hp, Hl, Hc. reflexivity.
  - lia.
  - rewrite Hp. reflexivity.
  - exact I.
Qed.

Lemma token_positions_witness :
  positioned [] (tokensOf (lexer.New (joinLines ["interface Gi0/0"; " no shutdown"]))).
Proof.
  apply (token_positions
           (lexer.New (joinLines ["interface Gi0/0"; " no shutdown"])));
    vm_compute; reflexivity.
Defined.

(** ** What a token holds *)

Lemma scanTokens_invariant : forall (Inv : Lexer -> Prop) (P : Token -> Prop),
  (forall l, Inv l -> pos l < length (input l) ->
             Inv (snd (nextToken l)) /\ P (fst (nextToken l))) ->
  forall fuel l tokens,
    Inv l -> Forall P tokens -> Forall P (fst (scanTokens fuel l tokens)).
Proof.
  intros Inv P HP. induction fuel as [|fuel IH]; intros l tokens Hi H;
    [exact H|].
  cbn [scanTokens]. destruct (pos l <? length (input l)) eqn:E; [|exact H].
  apply Nat.ltb_lt in E. destruct (HP l Hi E) as [Hi' Ht].
  destruct (nextToken l) as [token l']. cbn [fst snd] in *.
  apply IH; [exact Hi'|].
  destruct (negb (tokenTypeEq (Type_ token) TokenText)
            || negb (streq (Value token) [])); [|exact H].
  apply Forall_app. split; [exact H | constructor; [exact Ht | constructor]].
Qed.

(** The bytes a loop moves over pass its condition. *)
Lemma advanceWhile_all : forall cond fuel l k,
  pos l <= k < pos (advanceWhile cond fuel l) ->
  cond (byteAt (input l) k) = true.
Proof.
  intros cond fuel. induction fuel as [|fuel IH]; intros l k Hk.
  - cbn [advanceWhile] in Hk. lia.
  - cbn [advanceWhile] in Hk.
    destruct (pos l <? length (input l)) eqn:E; cbn [andb] in Hk; [|lia].
    apply Nat.ltb_lt in E.
    destruct (cond (byteAt (input l) (pos l))) eqn:Ec; [|lia].
    destruct (Nat.eq_dec k (pos l)) as [->|Hne]; [exact Ec|].
    rewrite <- (advance_input l). apply IH.
    rewrite advance_pos by exact E. lia.
Qed.

Lemma slice_forallb : forall (p : ascii -> bool) (s : gostring) i j,
  (forall k, i <= k < j -> p (byteAt s k) = true) ->
  forallb p (slice s i j) = true.
Proof.
  intros p s i j H. apply forallb_forall. intros c Hc.
  apply In_slice in Hc. destruct Hc as (k & Hk & _ & <-). apply H, Hk.
Qed.

Lemma slice_head : forall (s : gostring) i j,
  i < j -> j <= length s ->
  exists rest, slice s i j = byteAt s i :: rest.
Proof.
  intros s i j Hij Hj. rewrite <- (slice_app s i (S i) j) by lia.
  rewrite slice_one by lia. eexists. reflexivity.
Qed.

(** Bytes of a word: no blank and no quote. *)
Definition isWordChar (ch : ascii) : bool :=
  negb (isWhitespace ch || byteEq ch DQUOTE || byteEq ch "'").

Definition notLF (ch : ascii) : bool := negb (byteEq ch LF).

Definition startsWith (p : ascii -> bool) (s : gostring) : bool :=
  match s with
  | [] => false
  | c :: _ => p c
  end.

(** The types the scanner gives without classifying a word. *)
Definition isScannerType (ty : TokenType) : bool :=
  match ty with
  | TokenText | TokenComment | TokenString | TokenValue
  | TokenPromptHost | TokenPromptMode | TokenPromptOper | TokenPromptConf =>
      true
  | _ => false
  end.

(** What the value of a token of the scanning path looks like, by its
    type. *)
Definition wellFormed (t : Token) : bool :=
  match Type_ t with
  | TokenText => forallb isWhitespace (Value t)
  | TokenComment =>
      startsWith (byteEq "!") (Value t) && forallb notLF (Value t)
  | TokenString =>
      startsWith (fun c => byteEq c DQUOTE || byteEq c "'") (Value t)
  | TokenValue =>
      startsWith (fun c => byteEq c DQUOTE || byteEq c "'") (Value t)
      || (startsWith isWordChar (Value t) && forallb notLF (Value t))
  | TokenPromptHost | TokenPromptMode | TokenPromptOper | TokenPromptConf =>
      false
  | _ => forallb isWordChar (Value t)
  end.

Lemma classifySharedPatterns_type : forall l word,
  isScannerType (classifySharedPatterns l word) = false.
Proof.
  intros l word. unfold classifySharedPatterns. split_ifs; reflexivity.
Qed.

Lemma classifyWord_type : forall l word,
  isScannerType (fst (classifyWord l word)) = false.
Proof.
  intros l word. rewrite classifyWord_unfold.
  destruct (parseModeEq (parseMode (resolveMode l)) ParseModeShow).
  - unfold classifyShowWord. split_ifs; cbn [fst]; try reflexivity;
      apply classifySharedPatterns_type.
  - unfold classifyConfigWord. split_ifs; cbn [fst]; try reflexivity;
      apply classifySharedPatterns_type.
Qed.

Lemma scanned_forallb : forall cond l,
  forallb cond (slice (input l) (pos l)
                      (pos (advanceWhile cond (remaining l) l))) = true.
Proof.
  intros cond l. apply slice_forallb. intros k Hk.
  apply (advanceWhile_all cond (remaining l) l k Hk).
Qed.

Lemma scanned_head : forall cond l,
  pos l < length (input l) ->
  cond (byteAt (input l) (pos l)) = true ->
  exists rest,
    slice (input l) (pos l) (pos (advanceWhile cond (remaining l) l))
    = byteAt (input l) (pos l) :: rest.
Proof.
  intros cond l Hlt Hc. apply slice_head.
  - apply advanceWhile_moves; [unfold remaining; lia | exact Hlt | exact Hc].
  - apply advanceWhile_range. lia.
Qed.

Lemma scanString_head : forall quote l,
  pos l < length (input l) ->
  exists rest,
    Value (fst (scanString quote l)) = byteAt (input l) (pos l) :: rest.
Proof.
  intros quote l Hlt. unfold scanString. cbn [fst Value].
  apply slice_head.
  - destruct (scanStringLoop_range quote (remaining (advance l)) (advance l))
      as [H _].
    rewrite advance_pos in H by exact Hlt. lia.
  - destruct (scanStringLoop_range quote (remaining (advance l)) (advance l))
      as [_ H].
    rewrite advance_input in H. apply H.
    rewrite advance_pos by exact Hlt. lia.
Qed.

Lemma scanValue_type : forall l,
  Type_ (fst (scanValueToEndOfLine l)) = TokenValue.
Proof. reflexivity. Qed.

Lemma scanValue_fits : forall l,
  pos l < length (input l) ->
  byteEq (byteAt (input l) (pos l)) LF = false ->
  exists rest,
    Value (fst (scanValueToEndOfLine l)) = byteAt (input l) (pos l) :: rest
    /\ forallb notLF (Value (fst (scanValueToEndOfLine l))) = true.
Proof.
  intros l Hlt Hc. unfold scanValueToEndOfLine. cbn [fst Value].
  destruct (scanned_head (fun ch => negb (byteEq ch LF)) l Hlt) as [r Hr];
    [rewrite Hc; reflexivity|].
  exists r. split; [exact Hr|].
  apply (scanned_forallb (fun ch => negb (byteEq ch LF)) l).
Qed.

Lemma nextToken_wellFormed : forall l,
  pos l < length (input l) -> wellFormed (fst (nextToken l)) = true.
Proof.
  intros l Hlt. unfold nextToken.
  assert (Hge : (length (input l) <=? pos l) = false)
    by (apply Nat.leb_gt; exact Hlt).
  rewrite Hge.
  destruct (byteEq (byteAt (input l) (pos l)) "!" && (col l =? 1)) eqn:Hb.
  { apply andb_true_iff in Hb. destruct Hb as [Hb _].
    apply byteEq_eq in Hb. unfold scanComment, wellFormed.
    cbn [fst Type_ Value].
    destruct (scanned_head (fun ch => negb (byteEq ch LF)) l Hlt) as [r Hr];
      [rewrite Hb; reflexivity|].
    rewrite (scanned_forallb (fun ch => negb (byteEq ch LF)) l : forallb notLF _ = true).
    rewrite Hr, Hb. reflexivity. }
  destruct (byteEq (byteAt (input l) (pos l)) DQUOTE) eqn:Hq1.
  { destruct (scanString_head DQUOTE (setExpectingValue l false) Hlt)
      as [r Hr].
    cbn [input pos setExpectingValue] in Hr.
    destruct (scanString DQUOTE (setExpectingValue l false)) as [t l'] eqn:Es.
    cbn [fst] in *.
    assert (Ht : Type_ t = TokenString)
      by (unfold scanString in Es; inversion Es; reflexivity).
    destruct (expectingValue l); unfold wellFormed;
      cbn [withType Type_ Value]; rewrite ?Ht, Hr; cbn [startsWith];
      rewrite Hq1; reflexivity. }
  destruct (byteEq (byteAt (input l) (pos l)) "'") eqn:Hq2.
  { destruct (scanString_head "'" (setExpectingValue l false) Hlt)
      as [r Hr].
    cbn [input pos setExpectingValue] in Hr.
    destruct (scanString "'" (setExpectingValue l false)) as [t l'] eqn:Es.
    cbn [fst] in *.
    assert (Ht : Type_ t = TokenString)
      by (unfold scanString in Es; inversion Es; reflexivity).
    destruct (expectingValue l); unfold wellFormed;
      cbn [withType Type_ Value]; rewrite ?Ht, Hr; cbn [startsWith];
      rewrite Hq2, orb_true_r; reflexivity. }
  destruct (isWhitespace (byteAt (input l) (pos l))) eqn:Hw.
  { unfold scanWhitespace, wellFormed. cbn [fst Type_ Value].
    apply scanned_forallb. }
  assert (Hwc : isWordChar (byteAt (input l) (pos l)) = true)
    by (unfold isWordChar; rewrite Hw, Hq1, Hq2; reflexivity).
  destruct (expectingValue l).
  { destruct (scanValue_fits (setExpectingValue l false) Hlt) as [r [Hr Hall]].
    { cbn [input pos setExpectingValue]. apply (isWhitespace_LF _ Hw). }
    unfold wellFormed. rewrite scanValue_type, Hall, Hr.
    cbn [startsWith input pos setExpectingValue]. rewrite Hwc.
    apply orb_true_r. }
  unfold scanWord.
  match goal with
  | |- context [classifyWord ?a ?b] =>
      pose proof (classifyWord_type a b) as Hty;
      destruct (classifyWord a b) as [ty l2]
  end.
  cbn [fst] in *. unfold wellFormed. cbn [Type_ Value].
  pose proof (scanned_forallb isWordChar l) as Hall.
  destruct ty; try discriminate; exact Hall.
Qed.

(** X10. On the scanning path a token's value fits its type: a Text token
    is blanks only, a Comment token starts with [!] and holds no LF, a
    String token starts with its quote, a Value token is a quoted string
    or text without LF that starts with a word byte, and every classified
    word is free of blanks and quotes; no prompt token arises. *)
Theorem token_values_fit_types : forall l tokens,
  FindStringSubmatch_prompt (input l) = None ->
  Tokenize l = Some tokens ->
  Forall (fun t => wellFormed t = true) tokens.
Proof.
  intros l tokens Hn H. unfold Tokenize in H. cbn [TokenizeDepth] in H.
  rewrite tryTokenizePrompt_no_match in H by exact Hn.
  inversion H; subst tokens.
  apply scanTokens_Forall; [apply nextToken_wellFormed | constructor].
Qed.

Lemma token_values_fit_types_witness :
  Forall (fun t => wellFormed t = true)
         (tokensOf (lexer.New (bytes "description Uplink to ISP"))).
Proof.
  apply (token_values_fit_types (lexer.New (bytes "description Uplink to ISP")));
    vm_compute; reflexivity.
Defined.

(** ** Token types by mode *)

(** The rules a lexer classifies words with: its mode after the
    resolution of Auto. *)
Definition rules (l : Lexer) : ParseMode := parseMode (resolveMode l).

(** Types only the configuration rules give.  Value and Community need
    the context the configuration keywords set. *)
Definition configTypes : list TokenType :=
  [TokenCommand; TokenSection; TokenProtocol; TokenAction; TokenOperator;
   TokenKeyword; TokenNegation; TokenASN; TokenValue; TokenCommunity].

(** Types only the show rules give. *)
Definition showTypes : list TokenType :=
  [TokenStateGood; TokenStateBad; TokenStateWarning; TokenStateNeutral;
   TokenColumnHeader; TokenStatusSymbol; TokenTimeDuration; TokenPercentage;
   TokenByteSize; TokenRouteProtocol].

Definition typeIn (tys : list TokenType) (t : Token) : bool :=
  existsb (tokenTypeEq (Type_ t)) tys.

Lemma rules_modeStep : forall l l', modeStep l l' -> rules l' = rules l.
Proof.
  intros l l' [Hi H]. unfold rules, resolveMode.
  rewrite (detectParseMode_input l l' Hi).
  destruct H as [[Hp Hd] | (Hp & Hd & Hp' & Hd')].
  - rewrite Hp, Hd.
    destruct (parseModeEq (parseMode l) ParseModeAuto && negb (detectedMode l));
      [reflexivity | exact Hp].
  - rewrite Hp, Hd, Hp', Hd'. cbn [parseModeEq negb andb].
    rewrite andb_false_r. cbn [parseMode setMode]. exact Hp'.
Qed.

Lemma rules_not_auto : forall l, rules l = ParseModeAuto ->
  parseMode l = ParseModeAuto /\ detectedMode l = true.
Proof.
  intros l. unfold rules, resolveMode.
  destruct (parseMode l) eqn:Hp; cbn [parseModeEq andb];
    try (intros H; rewrite Hp in H; discriminate).
  destruct (detectedMode l); cbn [negb].
  - intros _. split; reflexivity.
  - intros H. cbn [parseMode setMode] in H.
    exfalso. exact (detectParseMode_not_auto l H).
Qed.

Lemma classifySharedPatterns_plain : forall l word,
  streq (lastToken l) (bytes "community") = false ->
  existsb (tokenTypeEq (classifySharedPatterns l word))
          (configTypes ++ showTypes) = false.
Proof.
  intros l word H. unfold classifySharedPatterns. rewrite H.
  cbn [andb]. split_ifs; reflexivity.
Qed.

Lemma classifySharedPatterns_no_show : forall l word,
  existsb (tokenTypeEq (classifySharedPatterns l word)) showTypes = false.
Proof.
  intros l word. unfold classifySharedPatterns. split_ifs; reflexivity.
Qed.

Lemma classifyShowWord_types : forall l word lower,
  streq (lastToken l) (bytes "community") = false ->
  existsb (tokenTypeEq (fst (classifyShowWord l word lower))) configTypes
  = false.
Proof.
  intros l word lower H. unfold classifyShowWord.
  split_ifs; cbn [fst]; try reflexivity.
  pose proof (classifySharedPatterns_plain l word H) as Hs.
  rewrite existsb_app in Hs. apply orb_false_iff in Hs. apply Hs.
Qed.

Lemma classifyConfigWord_types : forall l word lower,
  existsb (tokenTypeEq (fst (classifyConfigWord l word lower))) showTypes
  = false.
Proof.
  intros l word lower. unfold classifyConfigWord.
  split_ifs; cbn [fst]; try reflexivity.
  apply classifySharedPatterns_no_show.
Qed.

Lemma resolveMode_context : forall l,
  input (resolveMode l) = input l
  /\ expectingValue (resolveMode l) = expectingValue l
  /\ lastToken (resolveMode l) = lastToken l.
Proof.
  intros l. unfold resolveMode.
  destruct (parseModeEq (parseMode l) ParseModeAuto && negb (detectedMode l));
    repeat split.
Qed.

(** What the show rules keep between two tokens. *)
Definition showState (l : Lexer) : Prop :=
  rules l = ParseModeShow /\ expectingValue l = false
  /\ streq (lastToken l) (bytes "community") = false.

Lemma sameContext_showState : forall l l',
  sameContext l l' -> showState l -> showState l'.
Proof.
  intros l l' Hc (Hr & He & Hl).
  pose proof (rules_modeStep l l' (sameContext_modeStep l l' Hc)) as Hr'.
  destruct Hc as (_ & _ & _ & He' & Hl').
  unfold showState. rewrite Hr', He', Hl'. auto.
Qed.

Lemma scanWord_classify : forall l,
  exists l1 word,
    sameContext l l1
    /\ scanWord l
       = (mkToken (fst (classifyWord l1 word)) word (line l) (col l),
          snd (classifyWord l1 word)).
Proof.
  intros l.
  set (l1 := advanceWhile
               (fun ch => negb (isWhitespace ch || byteEq ch DQUOTE
                                || byteEq ch "'"))
               (remaining l) l).
  exists l1, (slice (input l) (pos l) (pos l1)).
  split; [apply advanceWhile_context|].
  unfold scanWord. fold l1.
  destruct (classifyWord l1 (slice (input l) (pos l) (pos l1))); reflexivity.
Qed.

Lemma nextToken_show : forall l,
  showState l -> pos l < length (input l) ->
  showState (snd (nextToken l))
  /\ typeIn configTypes (fst (nextToken l)) = false.
Proof.
  intros l Hs Hlt. pose proof Hs as (Hr & He & Hl). unfold nextToken.
  assert (Hge : (length (input l) <=? pos l) = false)
    by (apply Nat.leb_gt; exact Hlt).
  rewrite Hge, He.
  assert (Hsame : setExpectingValue l false = l)
    by (destruct l; cbn in He |- *; rewrite He; reflexivity).
  rewrite Hsame.
  destruct (byteEq (byteAt (input l) (pos l)) "!" && (col l =? 1)).
  { unfold scanComment. cbn [fst snd]. split; [|reflexivity].
    eapply sameContext_showState; [apply advanceWhile_context | exact Hs]. }
  destruct (byteEq (byteAt (input l) (pos l)) DQUOTE).
  { unfold scanString. cbn [fst snd]. split; [|reflexivity].
    eapply sameContext_showState; [|exact Hs].
    eapply sameContext_trans;
      [apply advance_context | apply scanStringLoop_context]. }
  destruct (byteEq (byteAt (input l) (pos l)) "'").
  { unfold scanString. cbn [fst snd]. split; [|reflexivity].
    eapply sameContext_showState; [|exact Hs].
    eapply sameContext_trans;
      [apply advance_context | apply scanStringLoop_context]. }
  destruct (isWhitespace (byteAt (input l) (pos l))).
  { unfold scanWhitespace. cbn [fst snd]. split; [|reflexivity].
    eapply sameContext_showState; [apply advanceWhile_context | exact Hs]. }
  destruct (scanWord_classify l) as (l1 & word & Hc & ->). cbn [fst snd].
  pose proof (sameContext_showState l l1 Hc Hs) as Hs1.
  unfold typeIn. cbn [Type_].
  destruct Hs1 as (Hr1 & He1 & Hl1).
  pose proof (resolveMode_context l1) as (_ & Hre & Hrl).
  rewrite classifyWord_unfold. unfold rules in Hr1. rewrite Hr1.
  cbn [parseModeEq].
  pose proof (classifyShowWord_types (resolveMode l1) word
                (strings.ToLower word)) as Hty.
  rewrite Hrl in Hty. specialize (Hty Hl1).
  pose proof (classifyShowWord_context (resolveMode l1) word
                (strings.ToLower word)) as Hctx.
  rewrite Hctx. split.
  - unfold showState. rewrite Hre, Hrl. repeat split; try assumption.
    rewrite (rules_modeStep l1 (resolveMode l1) (resolveMode_modeStep l1)).
    exact Hr1.
  - exact Hty.
Qed.

Lemma nextToken_config : forall l,
  rules l <> ParseModeShow -> pos l < length (input l) ->
  rules (snd (nextToken l)) <> ParseModeShow
  /\ typeIn showTypes (fst (nextToken l)) = false.
Proof.
  intros l Hr Hlt. split.
  { rewrite (rules_modeStep l _ (nextToken_modeStep l)). exact Hr. }
  unfold nextToken.
  assert (Hge : (length (input l) <=? pos l) = false)
    by (apply Nat.leb_gt; exact Hlt).
  rewrite Hge.
  destruct (byteEq (byteAt (input l) (pos l)) "!" && (col l =? 1));
    [reflexivity|].
  destruct (byteEq (byteAt (input l) (pos l)) DQUOTE).
  { unfold scanString. destruct (expectingValue l); reflexivity. }
  destruct (byteEq (byteAt (input l) (pos l)) "'").
  { unfold scanString. destruct (expectingValue l); reflexivity. }
  destruct (isWhitespace (byteAt (input l) (pos l))); [reflexivity|].
  destruct (expectingValue l); [reflexivity|].
  destruct (scanWord_classify l) as (l1 & word & Hc & ->). cbn [fst snd].
  assert (Hr1 : rules l1 <> ParseModeShow)
    by (rewrite (rules_modeStep l l1 (sameContext_modeStep l l1 Hc));
        exact Hr).
  unfold typeIn. cbn [Type_].
  rewrite classifyWord_unfold. unfold rules in Hr1.
  destruct (parseModeEq (parseMode (resolveMode l1)) ParseModeShow) eqn:E.
  { exfalso. apply Hr1. destruct (parseMode (resolveMode l1));
      try discriminate. reflexivity. }
  pose proof (classifyConfigWord_types (resolveMode l1) word
                (strings.ToLower word)) as Hty.
  exact Hty.
Qed.

(** X11. With the show rules (mode Show, or Auto where the detector
    answers Show), a lexer that starts without pending context gives no
    token of a configuration type on the scanning path: no Command,
    Section, Protocol, Action, Operator, Keyword, Negation, ASN, Value or
    Community. *)
Theorem show_rules_no_config_types : forall l tokens,
  rules l = ParseModeShow ->
  expectingValue l = false ->
  lastToken l = [] ->
  FindStringSubmatch_prompt (input l) = None ->
  Tokenize l = Some tokens ->
  Forall (fun t => typeIn configTypes t = false) tokens.
Proof.
  intros l tokens Hr He Hl Hn H. unfold Tokenize in H.
  cbn [TokenizeDepth] in H.
  rewrite tryTokenizePrompt_no_match in H by exact Hn.
  inversion H; subst tokens.
  apply (scanTokens_invariant showState); [apply nextToken_show | | constructor].
  unfold showState. rewrite Hl. auto.
Qed.

Lemma show_rules_no_config_types_witness :
  Forall (fun t => typeIn configTypes t = false)
         (tokensOf (SetParseMode (lexer.New (bytes "no shutdown"))
                                 ParseModeShow)).
Proof.
  apply (show_rules_no_config_types
           (SetParseMode (lexer.New (bytes "no shutdown")) ParseModeShow));
    vm_compute; reflexivity.
Defined.

(** X12. With the configuration rules (mode Config, or Auto where the
    detector answers Config) the scanning path gives no token of a show
    type: no state, column header, status symbol, duration, percentage,
    byte size or route protocol code. *)
Theorem config_rules_no_show_types : forall l tokens,
  rules l <> ParseModeShow ->
  FindStringSubmatch_prompt (input l) = None ->
  Tokenize l = Some tokens ->
  Forall (fun t => typeIn showTypes t = false) tokens.
Proof.
  intros l tokens Hr Hn H. unfold Tokenize in H. cbn [TokenizeDepth] in H.
  rewrite tryTokenizePrompt_no_match in H by exact Hn.
  inversion H; subst tokens.
  apply (scanTokens_invariant (fun l => rules l <> ParseModeShow));
    [apply nextToken_config | exact Hr | constructor].
Qed.

Lemma config_rules_no_show_types_witness :
  Forall (fun t => typeIn showTypes t = false)
         (tokensOf (SetParseMode (lexer.New (bytes "line protocol is up"))
                                 ParseModeConfig)).
Proof.
  apply (config_rules_no_show_types
           (SetParseMode (lexer.New (bytes "line protocol is up"))
                         ParseModeConfig));
    vm_compute; try reflexivity; discriminate.
Defined.

(** ** The mode fields and the tokens *)

(** The scanning functions neither read nor write the two mode fields. *)
Lemma advance_setMode : forall l m d,
  advance (setMode l m d) = setMode (advance l) m d.
Proof.
  intros l m d. unfold advance. cbn [input pos setMode].
  destruct (pos l <? length (input l)); [|reflexivity].
  destruct (byteEq (byteAt (input l) (pos l)) LF); reflexivity.
Qed.

Lemma advanceWhile_setMode : forall cond fuel l m d,
  advanceWhile cond fuel (setMode l m d)
  = setMode (advanceWhile cond fuel l) m d.
Proof.
  intros cond fuel. induction fuel as [|fuel IH]; intros l m d;
    [reflexivity|].
  cbn [advanceWhile]. cbn [input pos setMode].
  destruct ((pos l <? length (input l)) && cond (byteAt (input l) (pos l)));
    [|reflexivity].
  rewrite advance_setMode. apply IH.
Qed.

Lemma scanStringLoop_setMode : forall quote fuel l m d,
  scanStringLoop quote fuel (setMode l m d)
  = setMode (scanStringLoop quote fuel l) m d.
Proof.
  intros quote fuel. induction fuel as [|fuel IH]; intros l m d;
    [reflexivity|].
  cbn [scanStringLoop]. cbn [input pos setMode].
  destruct (pos l <? length (input l)); [|reflexivity].
  destruct (byteEq (byteAt (input l) (pos l)) quote);
    [apply advance_setMode|].
  destruct (byteEq (byteAt (input l) (pos l)) BACKSLASH
            && (pos l + 1 <? length (input l)));
    rewrite ?advance_setMode; apply IH.
Qed.

Lemma classifyConfigWord_setMode : forall l m d word lower,
  classifyConfigWord (setMode l m d) word lower
  = (fst (classifyConfigWord l word lower),
     setMode (snd (classifyConfigWord l word lower)) m d).
Proof.
  intros l m d word lower. unfold classifyConfigWord. split_ifs; reflexivity.
Qed.

Lemma classifyShowWord_setMode : forall l m d word lower,
  classifyShowWord (setMode l m d) word lower
  = (fst (classifyShowWord l word lower),
     setMode (snd (classifyShowWord l word lower)) m d).
Proof.
  intros l m d word lower. unfold classifyShowWord. split_ifs; reflexivity.
Qed.

Lemma resolveMode_setMode : forall l,
  exists d, resolveMode l = setMode l (rules l) d.
Proof.
  intros l. unfold rules, resolveMode.
  destruct (parseModeEq (parseMode l) ParseModeAuto && negb (detectedMode l)).
  - exists true. reflexivity.
  - exists (detectedMode l). destruct l; reflexivity.
Qed.

(** Two lexers that differ in the mode fields only. *)
Definition modeVariant (a b : Lexer) : Prop :=
  exists m d, b = setMode a m d.

Lemma modeVariant_setMode : forall a b m d,
  modeVariant a b -> modeVariant (setMode a m d) b.
Proof.
  intros a b m d (m' & d' & ->). exists m', d'. reflexivity.
Qed.

Lemma classifyWord_modeVariant : forall a b word,
  modeVariant a b -> rules b = rules a ->
  fst (classifyWord b word) = fst (classifyWord a word)
  /\ modeVariant (snd (classifyWord a word)) (snd (classifyWord b word)).
Proof.
  intros a b word (m & d & ->) Hr.
  rewrite !classifyWord_unfold. fold (rules (setMode a m d)). fold (rules a).
  rewrite Hr.
  destruct (resolveMode_setMode (setMode a m d)) as [d1 H1].
  destruct (resolveMode_setMode a) as [d2 H2].
  rewrite H1, H2, Hr.
  change (setMode (setMode a m d) (rules a) d1) with (setMode a (rules a) d1).
  destruct (parseModeEq (rules a) ParseModeShow).
  - rewrite !classifyShowWord_setMode. cbn [fst snd]. split; [reflexivity|].
    exists (rules a), d1. reflexivity.
  - rewrite !classifyConfigWord_setMode. cbn [fst snd]. split; [reflexivity|].
    exists (rules a), d1. reflexivity.
Qed.

Lemma nextToken_modeVariant : forall a b,
  modeVariant a b -> rules b = rules a ->
  fst (nextToken b) = fst (nextToken a)
  /\ modeVariant (snd (nextToken a)) (snd (nextToken b)).
Proof.
  intros a b Hv Hr. pose proof Hv as (m & d & ->). unfold nextToken.
  cbn [input pos line col expectingValue setMode].
  destruct (length (input a) <=? pos a); [split; [reflexivity | exact Hv]|].
  destruct (byteEq (byteAt (input a) (pos a)) "!" && (col a =? 1)).
  { unfold scanComment, remaining. cbn [input pos line col setMode].
    change (length (input a) - pos a) with (remaining a).
    rewrite advanceWhile_setMode. cbn [fst snd pos setMode].
    split; [reflexivity | exists m, d; reflexivity]. }
  assert (Hstr : forall q,
    fst (let (token, l') := scanString q (setExpectingValue (setMode a m d) false) in
         (if expectingValue a then withType token TokenValue else token, l'))
    = fst (let (token, l') := scanString q (setExpectingValue a false) in
           (if expectingValue a then withType token TokenValue else token, l'))
    /\ modeVariant
         (snd (let (token, l') := scanString q (setExpectingValue a false) in
           (if expectingValue a then withType token TokenValue else token, l')))
         (snd (let (token, l') := scanString q (setExpectingValue (setMode a m d) false) in
         (if expectingValue a then withType token TokenValue else token, l')))).
  { intros q. unfold scanString.
    change (setExpectingValue (setMode a m d) false)
      with (setMode (setExpectingValue a false) m d).
    rewrite advance_setMode.
    change (remaining (setMode (advance (setExpectingValue a false)) m d))
      with (remaining (advance (setExpectingValue a false))).
    rewrite scanStringLoop_setMode. cbn [fst snd input pos line col setMode].
    split; [reflexivity | exists m, d; reflexivity]. }
  destruct (byteEq (byteAt (input a) (pos a)) DQUOTE); [apply Hstr|].
  destruct (byteEq (byteAt (input a) (pos a)) "'"); [apply Hstr|].
  clear Hstr.
  destruct (isWhitespace (byteAt (input a) (pos a))).
  { unfold scanWhitespace, remaining. cbn [input pos line col setMode].
    change (length (input a) - pos a) with (remaining a).
    rewrite advanceWhile_setMode. cbn [fst snd pos setMode].
    split; [reflexivity | exists m, d; reflexivity]. }
  destruct (expectingValue a).
  { unfold scanValueToEndOfLine.
    change (setExpectingValue (setMode a m d) false)
      with (setMode (setExpectingValue a false) m d).
    change (remaining (setMode (setExpectingValue a false) m d))
      with (remaining (setExpectingValue a false)).
    rewrite advanceWhile_setMode. cbn [fst snd input pos line col setMode].
    split; [reflexivity | exists m, d; reflexivity]. }
  unfold scanWord.
  change (remaining (setMode a m d)) with (remaining a).
  rewrite advanceWhile_setMode. cbn [input pos line col setMode].
  set (l1 := advanceWhile
               (fun ch => negb (isWhitespace ch || byteEq ch DQUOTE
                                || byteEq ch "'"))
               (remaining a) a).
  set (word := slice (input a) (pos a) (pos l1)).
  assert (Hr1 : rules (setMode l1 m d) = rules l1).
  { assert (Ha : modeStep a l1)
      by (apply sameContext_modeStep, advanceWhile_context).
    assert (Hb : modeStep (setMode a m d) (setMode l1 m d)).
    { unfold l1. rewrite <- advanceWhile_setMode.
      change (remaining a) with (remaining (setMode a m d)).
      apply sameContext_modeStep, advanceWhile_context. }
    rewrite (rules_modeStep _ _ Ha), (rules_modeStep _ _ Hb). exact Hr. }
  destruct (classifyWord_modeVariant l1 (setMode l1 m d) word
              (ex_intro _ m (ex_intro _ d eq_refl)) Hr1) as [Hf Hs].
  destruct (classifyWord (setMode l1 m d) word) as [ty2 l2].
  destruct (classifyWord l1 word) as [ty1 l1'].
  cbn [fst snd] in *. subst ty2. split; [reflexivity | exact Hs].
Qed.

Lemma scanTokens_modeVariant : forall fuel a b tokens,
  modeVariant a b -> rules b = rules a ->
  fst (scanTokens fuel b tokens) = fst (scanTokens fuel a tokens).
Proof.
  induction fuel as [|fuel IH]; intros a b tokens Hv Hr; [reflexivity|].
  cbn [scanTokens].
  assert (Hp : (pos b <? length (input b)) = (pos a <? length (input a)))
    by (destruct Hv as (m & d & ->); reflexivity).
  rewrite Hp. destruct (pos a <? length (input a)); [|reflexivity].
  destruct (nextToken_modeVariant a b Hv Hr) as [Hf Hs].
  pose proof (rules_modeStep _ _ (nextToken_modeStep a)) as Ra.
  pose proof (rules_modeStep _ _ (nextToken_modeStep b)) as Rb.
  destruct (nextToken a) as [ta a'], (nextToken b) as [tb b'].
  cbn [fst snd] in *. subst tb. apply IH; [exact Hs | congruence].
Qed.

Lemma Tokenize_modeVariant : forall a b,
  modeVariant a b -> rules b = rules a -> Tokenize b = Tokenize a.
Proof.
  intros a b Hv Hr. unfold Tokenize.
  assert (Hi : input b = input a) by (destruct Hv as (m & d & ->); reflexivity).
  assert (Hrem : remaining b = remaining a)
    by (destruct Hv as (m & d & ->); reflexivity).
  rewrite Hi. cbn [TokenizeDepth]. rewrite Hi, Hrem.
  destruct (tryTokenizePrompt (TokenizeDepth (length (input a))) (input a));
    [reflexivity|].
  rewrite (scanTokens_modeVariant _ a b [] Hv Hr). reflexivity.
Qed.

(** X13. The automatic mode is the detector's answer applied once: a
    new lexer gives the tokens of the same lexer set to the mode that
    [detectParseMode] answers on its input, and a lexer set to a mode
    gives the same tokens whether or not it passed through Auto before. *)
Theorem auto_is_detected_mode : forall input,
  Tokenize (lexer.New input)
  = Tokenize (SetParseMode (lexer.New input)
                           (detectParseMode (lexer.New input))).
Proof.
  intros inp. symmetry. apply Tokenize_modeVariant.
  - exists (detectParseMode (lexer.New inp)), true. reflexivity.
  - unfold rules, resolveMode, SetParseMode.
    cbn [parseMode detectedMode setMode lexer.New parseModeEq negb andb].
    rewrite andb_false_r. reflexivity.
Qed.

(** X14. On input without escape bytes for which the detector answers
    Show, the forced entry point and the show entry point write the same
    output. *)
Theorem forced_is_show_output : forall h input,
  ~ In ESC input ->
  detectParseMode (lexer.New input) = ParseModeShow ->
  HighlightForced h input = HighlightShowOutput h input.
Proof.
  intros h inp He Hd. unfold HighlightForced, HighlightShowOutput.
  destruct (negb (IsEnabled h) || isEmpty inp) eqn:E; [reflexivity|].
  unfold highlightTokens. rewrite extractSegments_plain by exact He.
  destruct inp as [|c inp']; [rewrite orb_true_r in E; discriminate|].
  cbn [highlightLoop isEscape text app]. unfold highlightTokensCleaned, tokensOf.
  rewrite <- Hd.
  rewrite (Tokenize_modeVariant (lexer.New (c :: inp'))
             (SetParseMode (lexer.New (c :: inp'))
                           (detectParseMode (lexer.New (c :: inp'))))).
  - reflexivity.
  - exists (detectParseMode (lexer.New (c :: inp'))), true. reflexivity.
  - unfold rules, resolveMode, SetParseMode.
    cbn [parseMode detectedMode setMode lexer.New parseModeEq negb andb].
    rewrite andb_false_r. reflexivity.
Qed.

Lemma forced_is_show_output_witness :
  HighlightForced highlighter.New
    (bytes "line protocol is up, 5 minute input rate 0 bits/sec")
  = HighlightShowOutput highlighter.New
      (bytes "line protocol is up, 5 minute input rate 0 bits/sec").
Proof.
  apply (forced_is_show_output highlighter.New
           (bytes "line protocol is up, 5 minute input rate 0 bits/sec")).
  - intros H. vm_compute in H.
    repeat (destruct H as [H|H]; [discriminate|]). exact H.
  - vm_compute. reflexivity.
Defined.

(** ** IsPrompt and the prompt tokens *)

Lemma hasType_summary : forall ty tokens,
  hasType ty tokens
  = existsb (fun p => tokenTypeEq (fst p) ty) (summary tokens).
Proof.
  intros ty tokens. unfold hasType, summary.
  induction tokens as [|t tokens IH]; [reflexivity|].
  cbn [existsb map fst]. rewrite IH. reflexivity.
Qed.

Lemma wellFormed_no_prompt_host : forall tokens,
  Forall (fun t => wellFormed t = true) tokens ->
  hasType TokenPromptHost tokens = false.
Proof.
  intros tokens H. unfold hasType.
  induction H as [|t tokens Ht _ IH]; [reflexivity|].
  cbn [existsb]. rewrite IH, orb_false_r.
  unfold wellFormed in Ht. destruct (Type_ t); try reflexivity; discriminate.
Qed.

Lemma prompt_tokens_iff_match : forall l,
  hasType TokenPromptHost (tokensOf l) = MatchString promptPattern (input l).
Proof.
  intros l.
  destruct (FindStringSubmatch_prompt (input l)) as [m|] eqn:E.
  - assert (Hm : MatchString promptPattern (input l) = true)
      by (apply prompt_matchers_agree; exists m; exact E).
    rewrite Hm, hasType_summary, (Tokenize_prompt_summary l m E).
    unfold promptSummary. rewrite existsb_app.
    replace (existsb _ ([(TokenPromptHost, host m)] ++ _)) with true
      by reflexivity.
    apply orb_true_r.
  - assert (Hm : MatchString promptPattern (input l) = false).
    { destruct (MatchString promptPattern (input l)) eqn:M; [|reflexivity].
      apply prompt_matchers_agree in M. destruct M as [m M]. congruence. }
    rewrite Hm. apply wellFormed_no_prompt_host.
    pose proof (tokensOf_Some l) as H. unfold Tokenize in H.
    cbn [TokenizeDepth] in H.
    rewrite tryTokenizePrompt_no_match in H by exact E.
    injection H as H'. first [rewrite <- H' | rewrite H'].
    apply scanTokens_Forall; [apply nextToken_wellFormed | constructor].
Qed.

(** X15. [Tokenize] gives a PromptHost token exactly when its input
    matches the prompt pattern, so [IsPrompt] answers whether lexing the
    trimmed input gives prompt tokens. *)
Theorem IsPrompt_iff_prompt_tokens :
  (forall l, hasType TokenPromptHost (tokensOf l)
             = MatchString promptPattern (lexer.input l))
  /\ (forall input,
        IsPrompt input
        = hasType TokenPromptHost
            (tokensOf (lexer.New (strings.TrimSpace input)))).
Proof.
  split; [exact prompt_tokens_iff_match|].
  intros inp. unfold IsPrompt. rewrite prompt_tokens_iff_match. reflexivity.
Qed.

(** ** The themes *)










Lemma tokenTypeEq_refl : forall ty, tokenTypeEq ty ty = true.
Proof.
  intros ty. unfold tokenTypeEq.
  destruct (TokenType_eq_dec ty ty); [reflexivity | contradiction].
Qed.

Lemma tokenTypeEq_neq : forall a b, a <> b -> tokenTypeEq a b = false.
Proof.
  intros a b H. unfold tokenTypeEq.
  destruct (TokenType_eq_dec a b); [contradiction | reflexivity].
Qed.

(** X17. [SetColor] then [GetColor]: the type that was set reads the new
    colour, every other type reads what it read before, and of two
    settings of one type the later one is read.  A type set to the empty
    string is then written without a colour and without the reset. *)
Theorem SetColor_GetColor : forall th ty color,
  GetColor (SetColor th ty color) ty = color
  /\ (forall ty', ty' <> ty ->
        GetColor (SetColor th ty color) ty' = GetColor th ty')
  /\ (forall color',
        GetColor (SetColor (SetColor th ty color') ty color) ty = color)
  /\ (forall value ln cl,
        renderTokens (NewWithTheme (SetColor th ty []))
                     [mkToken ty value ln cl] = value).
Proof.
  intros th ty color. unfold GetColor, SetColor. cbn [colors lookupColor].
  rewrite tokenTypeEq_refl. repeat split.
  - intros ty' Hne. rewrite tokenTypeEq_neq by congruence. reflexivity.
  - intros value ln cl. unfold renderTokens, NewWithTheme.
    cbn [theme renderLoop Type_ Value]. unfold GetColor.
    cbn [colors lookupColor]. rewrite tokenTypeEq_refl. reflexivity.
Qed.

(** ** StripANSI and the segments *)

(** The text of the segments that are no escape sequences. *)
Definition textOfSegments (segments : list segment) : gostring :=
  concat (map text (filter (fun seg => negb (isEscape seg)) segments)).

Definition dropESC (x : gostring) : gostring :=
  filter (fun c => negb (byteEq c ESC)) x.

Lemma textOfSegments_app : forall a b,
  textOfSegments (a ++ b) = textOfSegments a ++ textOfSegments b.
Proof.
  intros a b. unfold textOfSegments.
  rewrite filter_app, map_app, concat_app. reflexivity.
Qed.

Lemma textOfSegments_flush : forall segments textBuf,
  textOfSegments (flushText segments textBuf)
  = textOfSegments segments ++ textBuf.
Proof.
  intros segments [|c textBuf]; cbn [flushText].
  - rewrite app_nil_r. reflexivity.
  - rewrite textOfSegments_app. unfold textOfSegments at 2.
    cbn [filter isEscape negb map concat text]. rewrite app_nil_r.
    reflexivity.
Qed.

Lemma textOfSegments_escape : forall segments x,
  textOfSegments (segments ++ [mkSegment x true]) = textOfSegments segments.
Proof.
  intros segments x. rewrite textOfSegments_app.
  unfold textOfSegments at 2. cbn [filter isEscape negb map concat].
  apply app_nil_r.
Qed.

Lemma dropESC_snoc : forall x c,
  dropESC (x ++ [c])
  = if byteEq c ESC then dropESC x else dropESC x ++ [c].
Proof.
  intros x c. unfold dropESC. rewrite filter_app. cbn [filter].
  destruct (byteEq c ESC); cbn [negb]; [apply app_nil_r | reflexivity].
Qed.

Lemma skipOtherEscapeSequence_at_end : forall input i,
  length input <= i -> skipOtherEscapeSequence input i = i.
Proof.
  intros inp i H. unfold skipOtherEscapeSequence.
  replace (length inp - i) with 0 by lia. cbn [skipWhile].
  destruct (Nat.ltb_spec i (length inp)); [lia | reflexivity].
Qed.

Lemma stripLoop_extractLoop : forall fuel input i segments textBuf buf,
  buf = dropESC (textOfSegments segments ++ textBuf) ->
  stripLoop fuel input i buf
  = dropESC (textOfSegments
               (flushText (fst (extractLoop fuel input i segments textBuf))
                          (snd (extractLoop fuel input i segments textBuf)))).
Proof.
  induction fuel as [|fuel IH]; intros inp i segs tb buf Hb.
  - cbn [stripLoop extractLoop fst snd]. rewrite textOfSegments_flush.
    exact Hb.
  - cbn [stripLoop extractLoop].
    destruct (i <? length inp) eqn:Hi;
      [|cbn [fst snd]; rewrite textOfSegments_flush; exact Hb].
    destruct (byteEq (byteAt inp i) escapeChar) eqn:He; cbn [andb].
    + destruct (i + 1 <? length inp) eqn:Hn; cbn [andb].
      * destruct (byteEq (byteAt inp (i + 1)) csiBracket).
        -- apply IH. rewrite textOfSegments_escape, textOfSegments_flush.
           rewrite app_nil_r. exact Hb.
        -- apply IH. rewrite textOfSegments_escape, textOfSegments_flush.
           rewrite app_nil_r. exact Hb.
      * apply Nat.ltb_ge in Hn.
        rewrite skipOtherEscapeSequence_at_end by lia.
        replace (i + 1) with (S i) by lia.
        apply IH. rewrite app_assoc, dropESC_snoc.
        change escapeChar with ESC in He. rewrite He. exact Hb.
    + apply IH. rewrite app_assoc, dropESC_snoc.
      change escapeChar with ESC in He. rewrite He, Hb. reflexivity.
Qed.

(** X18. [StripANSI] keeps what [extractSegments] puts into its text
    segments: the stripped input is the text of the segments that are no
    escape sequences, without the ESC byte a text segment may end with. *)
Theorem StripANSI_is_segment_text : forall input,
  StripANSI input = dropESC (textOfSegments (extractSegments input)).
Proof.
  intros inp. unfold StripANSI, extractSegments.
  rewrite (stripLoop_extractLoop (length inp) inp 0 [] [] []) by reflexivity.
  destruct (extractLoop (length inp) inp 0 [] []); reflexivity.
Qed.

(** ** Inputs of one token *)

Lemma advanceWhile_to_end : forall cond fuel l,
  remaining l <= fuel -> pos l <= length (input l) ->
  (forall k, pos l <= k < length (input l) ->
             cond (byteAt (input l) k) = true) ->
  pos (advanceWhile cond fuel l) = length (input l).
Proof.
  intros cond fuel l Hf Hle Hall.
  pose proof (advanceWhile_exit cond fuel l Hf) as Hex. cbv zeta in Hex.
  destruct (advanceWhile_range cond fuel l) as [H1 H2]. specialize (H2 Hle).
  rewrite advanceWhile_input in Hex.
  destruct (Nat.eq_dec (pos (advanceWhile cond fuel l)) (length (input l)))
    as [E|E]; [exact E|].
  assert (Hlt : pos (advanceWhile cond fuel l) < length (input l)) by lia.
  specialize (Hex Hlt). rewrite Hall in Hex by lia. discriminate.
Qed.

Lemma scanTokens_at_end : forall fuel l tokens,
  length (input l) <= pos l -> scanTokens fuel l tokens = (tokens, l).
Proof.
  intros [|fuel] l tokens H; [reflexivity|]. cbn [scanTokens].
  apply Nat.ltb_ge in H. rewrite H. reflexivity.
Qed.

Lemma forallb_byteAt : forall (p : ascii -> bool) (x : gostring) k,
  forallb p x = true -> k < length x -> p (byteAt x k) = true.
Proof.
  intros p x k H Hk. rewrite forallb_forall in H. apply H.
  unfold byteAt. apply nth_In. exact Hk.
Qed.

Lemma whitespace_is_lead : forall c, isWhitespace c = true -> isLeadByte c = true.
Proof.
  intros c H. unfold isWhitespace in H.
  repeat (apply orb_true_iff in H; destruct H as [H|H]);
    apply byteEq_eq in H; subst c; reflexivity.
Qed.

Lemma blank_is_no_prompt : forall x,
  forallb isWhitespace x = true -> FindStringSubmatch_prompt x = None.
Proof.
  intros x H. unfold FindStringSubmatch_prompt.
  assert (Hs : span isLeadByte x = (x, [])).
  { rewrite <- (app_nil_r x) at 1. apply span_run; [|exact I].
    apply forallb_forall. intros c Hc. apply whitespace_is_lead.
    rewrite forallb_forall in H. apply H, Hc. }
  rewrite Hs. reflexivity.
Qed.

Lemma one_token : forall l t l',
  pos l = 0 -> input l <> [] ->
  FindStringSubmatch_prompt (input l) = None ->
  nextToken l = (t, l') ->
  pos l' = length (input l) -> input l' = input l ->
  negb (tokenTypeEq (Type_ t) TokenText) || negb (streq (Value t) []) = true ->
  Tokenize l = Some [t].
Proof.
  intros l t l' Hp Hne Hn Ht Hend Hin Hkeep. unfold Tokenize.
  cbn [TokenizeDepth]. rewrite tryTokenizePrompt_no_match by exact Hn.
  unfold remaining. rewrite Hp, Nat.sub_0_r.
  destruct (input l) as [|c x] eqn:E; [contradiction|].
  cbn [length scanTokens]. rewrite E, Hp. cbn [length Nat.ltb Nat.leb].
  rewrite Ht, Hkeep. rewrite scanTokens_at_end; [reflexivity|].
  rewrite Hin, Hend. cbn [length]. lia.
Qed.

(** X19. Two inputs that are one token whatever they hold: an input of
    blanks only is one Text token, and an input that starts with [!] and
    holds no LF is one Comment token, in every mode; the token is at the
    lexer's line, column 1. *)
Theorem one_token_inputs : forall l,
  pos l = 0 -> col l = 1 -> input l <> [] ->
  (forallb isWhitespace (input l) = true ->
   Tokenize l = Some [mkToken TokenText (input l) (line l) 1])
  /\ (startsWith (byteEq "!") (input l) = true ->
      forallb notLF (input l) = true ->
      Tokenize l = Some [mkToken TokenComment (input l) (line l) 1]).
Proof.
  intros l Hp Hc Hne. split.
  - intros Hw.
    assert (H0 : 0 < length (input l))
      by (destruct (input l); [contradiction | cbn; lia]).
    pose proof (forallb_byteAt _ _ 0 Hw H0) as Hw0.
    apply (one_token l _ (advanceWhile isWhitespace (remaining l) l));
      try assumption.
    + apply blank_is_no_prompt, Hw.
    + unfold nextToken. rewrite Hp, Hc.
      assert (Hge : (length (input l) <=? 0) = false) by (apply Nat.leb_gt; lia).
      rewrite Hge.
      assert (Hb : byteEq (byteAt (input l) 0) "!" = false).
      { destruct (byteEq (byteAt (input l) 0) "!") eqn:E; [|reflexivity].
        apply byteEq_eq in E. rewrite E in Hw0. discriminate. }
      assert (Hq1 : byteEq (byteAt (input l) 0) DQUOTE = false).
      { destruct (byteEq (byteAt (input l) 0) DQUOTE) eqn:E; [|reflexivity].
        apply byteEq_eq in E. rewrite E in Hw0. discriminate. }
      assert (Hq2 : byteEq (byteAt (input l) 0) "'" = false).
      { destruct (byteEq (byteAt (input l) 0) "'") eqn:E; [|reflexivity].
        apply byteEq_eq in E. rewrite E in Hw0. discriminate. }
      rewrite Hb, Hq1, Hq2, Hw0. cbn [andb]. unfold scanWhitespace.
      rewrite Hp, Hc.
      rewrite (advanceWhile_to_end isWhitespace (remaining l) l);
        [rewrite slice_full; reflexivity | lia | lia |].
      intros k Hk. apply forallb_byteAt; [exact Hw | lia].
    + apply advanceWhile_to_end; [lia | lia |].
      intros k Hk. apply forallb_byteAt; [exact Hw | lia].
    + apply advanceWhile_input.
    + cbn [Type_ Value]. destruct (input l); [contradiction | reflexivity].
  - intros Hb Hl.
    destruct (input l) as [|c rest] eqn:E; [contradiction|].
    cbn [startsWith] in Hb. apply byteEq_eq in Hb. subst c.
    rewrite <- E in *.
    assert (H0 : 0 < length (input l)) by (rewrite E; cbn; lia).
    assert (Hb0 : byteAt (input l) 0 = "!"%char) by (rewrite E; reflexivity).
    apply (one_token l _
             (advanceWhile (fun ch => negb (byteEq ch LF)) (remaining l) l));
      try assumption.
    + rewrite E. vm_compute. reflexivity.
    + unfold nextToken. rewrite Hp, Hc.
      assert (Hge : (length (input l) <=? 0) = false) by (apply Nat.leb_gt; lia).
      rewrite Hge, Hb0. cbn [byteEq andb Nat.eqb]. unfold scanComment.
      rewrite Hp, Hc.
      change (byteEq "!" "!" && true) with true. cbv iota.
      rewrite (advanceWhile_to_end (fun ch => negb (byteEq ch LF))
                 (remaining l) l);
        [rewrite slice_full; reflexivity | lia | lia |].
      intros k Hk. apply (forallb_byteAt notLF); [exact Hl | lia].
    + apply advanceWhile_to_end; [lia | lia |].
      intros k Hk. apply (forallb_byteAt notLF); [exact Hl | lia].
    + apply advanceWhile_input.
    + reflexivity.
Qed.

Lemma one_token_inputs_witness :
  Tokenize (lexer.New (bytes "! interface 10.0.0.1 is down"))
  = Some [mkToken TokenComment (bytes "! interface 10.0.0.1 is down") 1 1].
Proof.
  apply (one_token_inputs (lexer.New (bytes "! interface 10.0.0.1 is down")));
    try reflexivity.
  discriminate.
Defined.

(** ** Quoted strings *)

Definition isQuote (c : ascii) : bool := byteEq c DQUOTE || byteEq c "'".

(** A value that starts with a quote ends with the same quote, two bytes
    at least. *)
Definition closedValue (v : gostring) : bool :=
  match v with
  | q :: rest =>
      negb (isQuote q)
      || match rev rest with
         | c :: _ => byteEq c q
         | [] => false
         end
  | [] => true
  end.

(** [P] on every element but the last. *)
Fixpoint allButLast {A : Type} (P : A -> Prop) (xs : list A) : Prop :=
  match xs with
  | [] => True
  | x :: rest =>
      match rest with
      | [] => True
      | _ => P x /\ allButLast P rest
      end
  end.

Lemma Forall_allButLast : forall (A : Type) (P : A -> Prop) xs,
  Forall P xs -> allButLast P xs.
Proof.
  intros A P xs H. induction H as [|x xs Hx Hxs IH]; [exact I|].
  cbn [allButLast]. destruct xs; [exact I | split; assumption].
Qed.

Lemma Forall_allButLast_snoc : forall (A : Type) (P : A -> Prop) xs x,
  Forall P xs -> allButLast P (xs ++ [x]).
Proof.
  intros A P xs x H. induction H as [|y ys Hy Hys IH]; [exact I|].
  cbn [app allButLast]. destruct (ys ++ [x]) eqn:E.
  - destruct ys; discriminate.
  - split; assumption.
Qed.

Lemma scanStringLoop_exit : forall quote fuel l,
  remaining l <= fuel -> pos l <= length (input l) ->
  let l' := scanStringLoop quote fuel l in
  pos l' = length (input l)
  \/ (pos l < pos l' /\ byteAt (input l) (pos l' - 1) = quote).
Proof.
  intros quote fuel. induction fuel as [|fuel IH]; intros l Hf Hle;
    cbv zeta.
  - cbn [scanStringLoop]. left. unfold remaining in Hf. lia.
  - cbn [scanStringLoop].
    destruct (pos l <? length (input l)) eqn:Hp;
      [|apply Nat.ltb_ge in Hp; left; lia].
    apply Nat.ltb_lt in Hp.
    destruct (byteEq (byteAt (input l) (pos l)) quote) eqn:Hq.
    + right. rewrite advance_pos by exact Hp.
      replace (S (pos l) - 1) with (pos l) by lia.
      split; [lia | apply byteEq_eq, Hq].
    + set (l1 := if byteEq (byteAt (input l) (pos l)) BACKSLASH
                    && (pos l + 1 <? length (input l))
                 then advance l else l).
      assert (H1 : input l1 = input l /\ pos l <= pos l1
                   /\ pos l1 < length (input l)).
      { unfold l1.
        destruct (byteEq (byteAt (input l) (pos l)) BACKSLASH); cbn [andb];
          [|repeat split; [lia | exact Hp]].
        destruct (pos l + 1 <? length (input l)) eqn:Hn;
          [|repeat split; [lia | exact Hp]].
        apply Nat.ltb_lt in Hn. rewrite advance_input, advance_pos by exact Hp.
        repeat split; lia. }
      destruct H1 as (Hi1 & Hp1 & Hlt1).
      assert (Hlt1' : pos l1 < length (input l1)) by (rewrite Hi1; exact Hlt1).
      pose proof (advance_pos l1 Hlt1') as Ha.
      pose proof (advance_input l1) as Hai.
      destruct (IH (advance l1)) as [He|[Hlt Hb]].
      * unfold remaining in *. rewrite Hai, Ha, Hi1. lia.
      * rewrite Hai, Ha, Hi1. lia.
      * left. rewrite He, Hai, Hi1. reflexivity.
      * right. rewrite Hai, Hi1 in Hb. split; [lia | exact Hb].
Qed.

Lemma closedValue_slice : forall (s : gostring) i j,
  i + 2 <= j -> j <= length s -> byteAt s (j - 1) = byteAt s i ->
  closedValue (slice s i j) = true.
Proof.
  intros s i j Hij Hj Hb.
  rewrite <- (slice_app s i (S i) j) by lia.
  rewrite slice_one by lia.
  replace j with (S (j - 1)) at 1 by lia.
  rewrite <- slice_snoc by lia.
  cbn [app closedValue]. rewrite rev_app_distr. cbn [rev app].
  rewrite Hb.
  assert (Hr : byteEq (byteAt s i) (byteAt s i) = true)
    by apply Ascii.eqb_refl.
  rewrite Hr. apply orb_true_r.
Qed.

Lemma closedValue_plain : forall (s : gostring) i j,
  i < j -> j <= length s -> isQuote (byteAt s i) = false ->
  closedValue (slice s i j) = true.
Proof.
  intros s i j Hij Hj Hq. destruct (slice_head s i j Hij Hj) as [r ->].
  cbn [closedValue]. rewrite Hq. reflexivity.
Qed.

Lemma scanString_closed : forall quote l,
  pos l < length (input l) -> byteAt (input l) (pos l) = quote ->
  closedValue (Value (fst (scanString quote l))) = true
  \/ length (input l) <= pos (snd (scanString quote l)).
Proof.
  intros quote l Hlt Hq. unfold scanString. cbn [fst snd Value].
  pose proof (advance_pos l Hlt) as Ha. pose proof (advance_input l) as Hai.
  destruct (scanStringLoop_exit quote (remaining (advance l)) (advance l))
    as [He|[Hm Hb]].
  - lia.
  - rewrite Hai, Ha. lia.
  - right. rewrite He, Hai. lia.
  - left. rewrite Hai in Hb. rewrite Ha in Hm.
    apply closedValue_slice; [lia | | congruence].
    destruct (scanStringLoop_range quote (remaining (advance l)) (advance l))
      as [_ Hr].
    rewrite Hai, Ha in Hr. apply Hr. lia.
Qed.

Lemma nextToken_quoted : forall l q,
  pos l < length (input l) -> q = DQUOTE \/ q = "'"%char ->
  byteAt (input l) (pos l) = q ->
  Value (fst (nextToken l))
  = Value (fst (scanString q (setExpectingValue l false)))
  /\ snd (nextToken l) = snd (scanString q (setExpectingValue l false)).
Proof.
  intros l q Hlt Hq Hb. unfold nextToken.
  assert (Hge : (length (input l) <=? pos l) = false)
    by (apply Nat.leb_gt; exact Hlt).
  rewrite Hge, Hb.
  destruct Hq as [-> | ->].
  - change (byteEq DQUOTE "!") with false.
    change (byteEq DQUOTE DQUOTE) with true. cbn [andb]. cbv iota.
    destruct (scanString DQUOTE (setExpectingValue l false)) as [t l'].
    destruct (expectingValue l); split; reflexivity.
  - change (byteEq "'" "!") with false.
    change (byteEq "'" DQUOTE) with false.
    change (byteEq "'" "'") with true. cbn [andb]. cbv iota.
    destruct (scanString "'" (setExpectingValue l false)) as [t l'].
    destruct (expectingValue l); split; reflexivity.
Qed.

Lemma nextToken_closed : forall l,
  pos l < length (input l) ->
  closedValue (Value (fst (nextToken l))) = true
  \/ length (input l) <= pos (snd (nextToken l)).
Proof.
  intros l Hlt.
  destruct (isQuote (byteAt (input l) (pos l))) eqn:Hq.
  - assert (Hq' : byteAt (input l) (pos l) = DQUOTE
                  \/ byteAt (input l) (pos l) = "'"%char).
    { unfold isQuote in Hq. apply orb_true_iff in Hq.
      destruct Hq as [H|H]; apply byteEq_eq in H; auto. }
    destruct (nextToken_quoted l _ Hlt Hq' eq_refl) as [Hv Hs].
    rewrite Hv, Hs.
    apply (scanString_closed _ (setExpectingValue l false) Hlt eq_refl).
  - left. destruct (nextToken_spec l Hlt) as (_ & Hr & ->).
    apply closedValue_plain; [lia | lia | exact Hq].
Qed.

Lemma scanTokens_closed : forall fuel l tokens,
  pos l <= length (input l) ->
  Forall (fun t => closedValue (Value t) = true) tokens
  \/ (length (input l) <= pos l
      /\ allButLast (fun t => closedValue (Value t) = true) tokens) ->
  allButLast (fun t => closedValue (Value t) = true)
             (fst (scanTokens fuel l tokens)).
Proof.
  induction fuel as [|fuel IH]; intros l tokens Hle J.
  - cbn [scanTokens fst].
    destruct J as [J|[_ J]]; [apply Forall_allButLast, J | exact J].
  - cbn [scanTokens]. destruct (pos l <? length (input l)) eqn:Hp.
    + apply Nat.ltb_lt in Hp.
      destruct J as [J|[J _]]; [|lia].
      pose proof (nextToken_closed l Hp) as Hc.
      destruct (nextToken_spec l Hp) as (Hi & Hr & _).
      destruct (nextToken l) as [t l']. cbn [fst snd] in *.
      apply IH; [rewrite Hi; lia|].
      destruct (negb (tokenTypeEq (Type_ t) TokenText)
                || negb (streq (Value t) [])); [|left; exact J].
      destruct Hc as [Hc|Hc].
      * left. apply Forall_app. split; [exact J|].
        constructor; [exact Hc | constructor].
      * right. split; [rewrite Hi; exact Hc|].
        apply Forall_allButLast_snoc. exact J.
    + cbn [fst].
      destruct J as [J|[_ J]]; [apply Forall_allButLast, J | exact J].
Qed.

(** X20. On the scanning path a token that starts with a quote ends with
    the same quote, two bytes at least, unless it is the last token: a
    string that is never closed takes the rest of the input, line ends
    included. *)
Theorem open_string_is_last : forall l tokens,
  pos l <= length (input l) ->
  FindStringSubmatch_prompt (input l) = None ->
  Tokenize l = Some tokens ->
  allButLast (fun t => closedValue (Value t) = true) tokens.
Proof.
  intros l tokens Hle Hn H. unfold Tokenize in H. cbn [TokenizeDepth] in H.
  rewrite tryTokenizePrompt_no_match in H by exact Hn.
  injection H as H. rewrite <- H.
  apply scanTokens_closed; [exact Hle | left; constructor].
Qed.

Lemma open_string_is_last_witness :
  allButLast (fun t => closedValue (Value t) = true)
    (tokensOf (lexer.New (joinLines ["banner motd 'ok' x"; "hostname R1"]))).
Proof.
  apply (open_string_is_last
           (lexer.New (joinLines ["banner motd 'ok' x"; "hostname R1"])));
    vm_compute; try reflexivity. lia.
Defined.

(** ** The automatic entry point *)

(** X21. [Highlight] is the forced entry point behind the gate: when the
    highlighter is enabled, the input is not empty and its stripped text
    looks like Cisco output, the result is what [HighlightForced] writes
    for the stripped text; otherwise the input comes back as it is, its
    control sequences included. *)
Theorem Highlight_is_gated_forced : forall h input,
  Highlight h input
  = if IsEnabled h && negb (isEmpty input)
       && looksLikeCisco h (StripANSI input)
    then HighlightForced h (StripANSI input)
    else input.
Proof.
  intros h inp. unfold Highlight, HighlightForced.
  destruct (IsEnabled h); cbn [negb orb andb]; [|reflexivity].
  destruct (isEmpty inp); cbn [negb]; [reflexivity|].
  destruct (looksLikeCisco h (StripANSI inp)); cbn [negb]; [|reflexivity].
  unfold highlightTokens.
  rewrite extractSegments_plain by apply StripANSI_no_escape.
  destruct (StripANSI inp) as [|c x] eqn:E.
  - cbn [isEmpty]. reflexivity.
  - cbn [isEmpty highlightLoop isEscape text app]. reflexivity.
Qed.

(** ** The separator count of the gate *)

(** The lines of a text: the pieces between its LF bytes. *)
Fixpoint linesOf (s : gostring) : list gostring :=
  match s with
  | [] => [[]]
  | c :: s' =>
      if byteEq c LF then [] :: linesOf s'
      else match linesOf s' with
           | line :: rest => (c :: line) :: rest
           | [] => [[c]]
           end
  end.

(** A line that is a lone [!] between blanks. *)
Definition isSeparatorLine (line : gostring) : bool :=
  streq (strings.TrimSpace line) (bytes "!").

Definition separatorCount (s : gostring) : nat :=
  length (filter isSeparatorLine (linesOf s)).

Lemma IndexByte_None_lines : forall s,
  strings.IndexByte s LF = None -> linesOf s = [s].
Proof.
  induction s as [|c s IH]; intros H; [reflexivity|].
  cbn [strings.IndexByte] in H. cbn [linesOf].
  destruct (byteEq c LF); [discriminate|].
  destruct (strings.IndexByte s LF); [discriminate|].
  rewrite (IH eq_refl). reflexivity.
Qed.

Lemma IndexByte_Some_lines : forall s e,
  strings.IndexByte s LF = Some e ->
  e < length s /\ linesOf s = firstn e s :: linesOf (skipn (S e) s).
Proof.
  induction s as [|c s IH]; intros e H; [discriminate|].
  cbn [strings.IndexByte] in H. cbn [linesOf].
  destruct (byteEq c LF).
  - injection H as <-. cbn [length firstn skipn]. split; [lia | reflexivity].
  - destruct (strings.IndexByte s LF) as [e'|]; [|discriminate].
    injection H as <-. destruct (IH e' eq_refl) as [Hlt Hl].
    rewrite Hl. cbn [length firstn skipn]. split; [lia | reflexivity].
Qed.

Lemma separatorLoop_count : forall fuel input i bangCount,
  length input - i <= fuel -> i <= length input -> bangCount < 2 ->
  separatorLoop fuel input i bangCount
  = (2 <=? bangCount
           + (if i <? length input then separatorCount (skipn i input)
              else 0)).
Proof.
  induction fuel as [|fuel IH]; intros inp i c Hf Hi Hc.
  - cbn [separatorLoop].
    destruct (Nat.ltb_spec i (length inp)); [lia|].
    rewrite Nat.add_0_r. symmetry. apply Nat.leb_gt. exact Hc.
  - cbn [separatorLoop].
    destruct (Nat.ltb_spec i (length inp)) as [Hlt|Hge].
    2:{ rewrite Nat.add_0_r. symmetry. apply Nat.leb_gt. exact Hc. }
    unfold separatorCount.
    destruct (strings.IndexByte (skipn i inp) LF) as [e|] eqn:E.
    + destruct (IndexByte_Some_lines _ _ E) as [He Hl].
      rewrite length_skipn in He.
      rewrite Hl. cbn [filter]. unfold isSeparatorLine at 1.
      unfold slice. replace (i + e - i) with e by lia.
      rewrite skipn_skipn.
      replace (S e + i) with (i + e + 1) by lia.
      assert (Hnext : forall c', c' < 2 ->
                separatorLoop fuel inp (i + e + 1) c'
                = (2 <=? c' + (if i + e + 1 <? length inp
                               then separatorCount (skipn (i + e + 1) inp)
                               else 0)))
        by (intros c' Hc'; apply IH; lia).
      assert (Hlast : (i + e + 1 <? length inp) = false ->
                      filter isSeparatorLine (linesOf (skipn (i + e + 1) inp))
                      = []).
      { intros Hx. apply Nat.ltb_ge in Hx.
        rewrite skipn_all2 by lia. reflexivity. }
      destruct (streq (strings.TrimSpace (firstn e (skipn i inp)))
                      (bytes "!")).
      * cbn [length].
        destruct (Nat.leb_spec 2 (S c)) as [H2|H2].
        -- symmetry. apply Nat.leb_le. lia.
        -- rewrite Hnext by lia. unfold separatorCount.
           destruct (i + e + 1 <? length inp) eqn:Hx.
           ++ f_equal. lia.
           ++ rewrite (Hlast eq_refl). cbn [length]. f_equal. lia.
      * rewrite Hnext by lia. unfold separatorCount.
        destruct (i + e + 1 <? length inp) eqn:Hx; [reflexivity|].
        rewrite (Hlast eq_refl). reflexivity.
    + rewrite (IndexByte_None_lines _ E). cbn [filter].
      unfold isSeparatorLine. unfold slice.
      rewrite firstn_all2 by (rewrite length_skipn; lia).
      assert (Hend : forall c', separatorLoop fuel inp (length inp) c' = false).
      { intros c'. destruct fuel; [reflexivity|]. cbn [separatorLoop].
        rewrite Nat.ltb_irrefl. reflexivity. }
      destruct (streq (strings.TrimSpace (skipn i inp)) (bytes "!")).
      * cbn [length]. destruct (Nat.leb_spec 2 (S c)) as [H2|H2].
        -- symmetry. apply Nat.leb_le. lia.
        -- rewrite Hend. symmetry. apply Nat.leb_gt. lia.
      * cbn [length]. rewrite Hend, Nat.add_0_r. symmetry.
        apply Nat.leb_gt. exact Hc.
Qed.

(** X22. [hasCiscoSeparators] answers whether at least two lines of the
    input are a lone [!] between blanks. *)
Theorem hasCiscoSeparators_counts_lines : forall input,
  hasCiscoSeparators input = (2 <=? separatorCount input).
Proof.
  intros inp. unfold hasCiscoSeparators.
  rewrite separatorLoop_count by lia. cbn [Nat.add skipn].
  destruct (Nat.ltb_spec 0 (length inp)) as [H|H]; [reflexivity|].
  destruct inp; [reflexivity | cbn [length] in H; lia].
Qed.

(** ** Stripping the output of the forced entry point *)

Lemma skipWhile_all : forall p fuel input i m,
  i <= m < skipWhile p fuel input i -> p (byteAt input m) = true.
Proof.
  intros p fuel inp. induction fuel as [|fuel IH]; intros i m Hm.
  - cbn [skipWhile] in Hm. lia.
  - cbn [skipWhile] in Hm.
    destruct (i <? length inp); cbn [andb] in Hm; [|lia].
    destruct (p (byteAt inp i)) eqn:Ep; [|lia].
    destruct (Nat.eq_dec m i) as [->|Hne]; [exact Ep|].
    apply (IH (S i)). lia.
Qed.

Lemma skipWhile_unique : forall p fuel input i k,
  length input - i <= fuel -> i <= k <= length input ->
  (forall m, i <= m < k -> p (byteAt input m) = true) ->
  (k = length input \/ p (byteAt input k) = false) ->
  skipWhile p fuel input i = k.
Proof.
  intros p fuel inp i k Hf Hk Hall Hstop.
  destruct (skipWhile_range p fuel inp i) as [H1 H2].
  specialize (H2 ltac:(lia)).
  pose proof (skipWhile_exit p fuel inp i Hf) as Hex.
  pose proof (skipWhile_all p fuel inp i k) as Hal.
  destruct (Nat.lt_trichotomy (skipWhile p fuel inp i) k) as [Hlt|[E|Hgt]];
    [|exact E|].
  - specialize (Hex ltac:(lia)). rewrite Hall in Hex by lia. discriminate.
  - specialize (Hal ltac:(lia)).
    destruct Hstop as [Hs|Hs]; [lia | congruence].
Qed.

(** What follows a segment in the output starts as what follows it in
    the input, or with the escape character of a colour. *)
Definition sameStart (a b : gostring) : Prop :=
  match a, b with
  | [], [] => True
  | c :: _, d :: _ => d = c \/ d = ESC
  | _, _ => False
  end.

Lemma byteAt_app_l : forall (a b : gostring) m,
  m < length a -> byteAt (a ++ b) m = byteAt a m.
Proof. intros a b m H. unfold byteAt. apply app_nth1. exact H. Qed.

Lemma byteAt_skipn : forall (s : gostring) j m,
  byteAt (skipn j s) m = byteAt s (j + m).
Proof. intros s j m. unfold byteAt. apply nth_skipn. Qed.

Lemma skipn_head : forall (s : gostring) j c r,
  skipn j s = c :: r -> j < length s /\ byteAt s j = c.
Proof.
  intros s j c r H. split.
  - destruct (Nat.lt_ge_cases j (length s)) as [Hlt|Hge]; [exact Hlt|].
    rewrite skipn_all2 in H by exact Hge. discriminate.
  - pose proof (byteAt_skipn s j 0) as Hb. rewrite H, Nat.add_0_r in Hb.
    symmetry. exact Hb.
Qed.

Lemma ESC_not_param : isCSIParamByte ESC = false.
Proof. reflexivity. Qed.

Lemma ESC_not_final : isCSIFinalByte ESC = false.
Proof. reflexivity. Qed.

(** The sequence read at the start of a text is read in the same way
    when what follows it is replaced by something with the same start. *)
Lemma controlSequenceAt_transfer : forall s j y,
  controlSequenceAt s 0 = Some j ->
  sameStart (skipn j s) y ->
  controlSequenceAt (firstn j s ++ y) 0 = Some j.
Proof.
  intros s j y H Hy.
  pose proof (controlSequenceAt_range _ _ _ H) as Hj.
  destruct (skipn j s) as [|c a] eqn:Ea.
  { destruct y; [|contradiction]. rewrite app_nil_r.
    assert (length s <= j).
    { destruct (Nat.lt_ge_cases j (length s)) as [Hlt|Hge]; [|exact Hge].
      apply (f_equal (@length ascii)) in Ea. rewrite length_skipn in Ea.
      cbn [length] in Ea. lia. }
    rewrite firstn_all2 by lia. exact H. }
  destruct y as [|d y']; [contradiction|]. cbn [sameStart] in Hy.
  destruct (skipn_head _ _ _ _ Ea) as [Hjl Hc].
  set (E := firstn j s).
  assert (HE : length E = j) by (unfold E; rewrite length_firstn; lia).
  assert (Hsame : forall m, m < j -> byteAt (E ++ d :: y') m = byteAt s m).
  { intros m Hm.
    transitivity (byteAt (firstn j s ++ skipn j s) m);
      [|rewrite firstn_skipn; reflexivity].
    fold E. rewrite !byteAt_app_l by lia. reflexivity. }
  assert (Hd : byteAt (E ++ d :: y') j = d)
    by (rewrite <- HE; apply byteAt_length).
  assert (Hlen : length (E ++ d :: y') = j + S (length y'))
    by (rewrite length_app, HE; reflexivity).
  unfold controlSequenceAt in *. cbn [Nat.add] in *.
  rewrite !Hsame by lia.
  destruct (byteEq (byteAt s 0) escapeChar); [|discriminate].
  destruct (1 <? length s) eqn:H1; [|discriminate].
  assert (H1' : (1 <? length (E ++ d :: y')) = true)
    by (apply Nat.ltb_lt; lia).
  rewrite H1'. cbn [andb] in *.
  destruct (byteEq (byteAt s 1) csiBracket).
  - injection H as H. f_equal. unfold skipCSISequence in *.
    set (k := skipWhile isCSIParamByte (length s - 2) s 2) in *.
    assert (Hk : 2 <= k <= length s).
    { destruct (skipWhile_range isCSIParamByte (length s - 2) s 2)
        as [A B]. fold k in A, B. lia. }
    assert (Hall : forall m, 2 <= m < k -> isCSIParamByte (byteAt s m) = true)
      by (intros m Hm; apply (skipWhile_all _ _ _ _ _ Hm)).
    pose proof (skipWhile_exit isCSIParamByte (length s - 2) s 2
                  (Nat.le_refl _)) as Hex. fold k in Hex.
    destruct (k <? length s) eqn:Hkl; cbn [andb] in H.
    + apply Nat.ltb_lt in Hkl. specialize (Hex Hkl).
      destruct (isCSIFinalByte (byteAt s k)) eqn:Hf.
      * (* complete: the final byte is inside the segment *)
        assert (Hk' : skipWhile isCSIParamByte
                        (length (E ++ d :: y') - 2) (E ++ d :: y') 2
                      = k).
        { apply skipWhile_unique; [lia | lia | |].
          - intros m Hm. rewrite Hsame by lia. apply Hall, Hm.
          - right. rewrite Hsame by lia. exact Hex. }
        rewrite Hk'.
        assert (Hkl' : (k <? length (E ++ d :: y')) = true)
          by (apply Nat.ltb_lt; lia).
        rewrite Hkl', Hsame, Hf by lia. cbn [andb]. exact H.
      * (* open: the next byte ends the parameters *)
        subst j.
        assert (Hcd : isCSIParamByte d = false /\ isCSIFinalByte d = false).
        { destruct Hy as [->| ->];
            [rewrite <- Hc; auto | split; reflexivity]. }
        assert (Hk' : skipWhile isCSIParamByte
                        (length (E ++ d :: y') - 2) (E ++ d :: y') 2
                      = k).
        { apply skipWhile_unique; [lia | lia | |].
          - intros m Hm. rewrite Hsame by lia. apply Hall, Hm.
          - right. rewrite Hd. apply Hcd. }
        rewrite Hk'.
        assert (Hkl' : (k <? length (E ++ d :: y')) = true)
          by (apply Nat.ltb_lt; lia).
        rewrite Hkl', Hd. destruct Hcd as [_ ->]. reflexivity.
    + apply Nat.ltb_ge in Hkl. lia.
  - injection H as H. f_equal. unfold skipOtherEscapeSequence in *.
    set (k := skipWhile isCSIIntermediateByte (length s - 1) s 1)
      in *.
    assert (Hk : 1 <= k <= length s).
    { destruct (skipWhile_range isCSIIntermediateByte (length s - 1) s
                  1) as [A B]. fold k in A, B. lia. }
    assert (Hall : forall m, 1 <= m < k ->
                             isCSIIntermediateByte (byteAt s m) = true)
      by (intros m Hm; apply (skipWhile_all _ _ _ _ _ Hm)).
    pose proof (skipWhile_exit isCSIIntermediateByte (length s - 1) s
                  1 (Nat.le_refl _)) as Hex. fold k in Hex.
    destruct (k <? length s) eqn:Hkl.
    + apply Nat.ltb_lt in Hkl. specialize (Hex Hkl).
      assert (Hk' : skipWhile isCSIIntermediateByte
                      (length (E ++ d :: y') - 1) (E ++ d :: y') 1
                    = k).
      { apply skipWhile_unique; [lia | lia | |].
        - intros m Hm. rewrite Hsame by lia. apply Hall, Hm.
        - right. rewrite Hsame by lia. exact Hex. }
      rewrite Hk'.
      assert (Hkl' : (k <? length (E ++ d :: y')) = true)
        by (apply Nat.ltb_lt; lia).
      rewrite Hkl'. exact H.
    + apply Nat.ltb_ge in Hkl. lia.
Qed.

Lemma controlSequenceAt_shift : forall (pre s : gostring) i,
  controlSequenceAt (pre ++ s) (length pre + i)
  = match controlSequenceAt s i with
    | Some j => Some (length pre + j)
    | None => None
    end.
Proof.
  intros pre s i. unfold controlSequenceAt.
  rewrite byteAt_app_r.
  replace (length pre + i + 1) with (length pre + (i + 1)) by lia.
  replace (length pre + i + 2) with (length pre + (i + 2)) by lia.
  rewrite ltb_shift, byteAt_app_r.
  destruct (byteEq (byteAt s i) escapeChar && (i + 1 <? length s));
    [|reflexivity].
  destruct (byteEq (byteAt s (i + 1)) csiBracket).
  - rewrite skipCSISequence_shift. reflexivity.
  - rewrite skipOtherEscapeSequence_shift. reflexivity.
Qed.

Lemma controlSequenceAt_skipn : forall input i j,
  i <= length input ->
  controlSequenceAt input i = Some j ->
  controlSequenceAt (skipn i input) 0 = Some (j - i).
Proof.
  intros inp i j Hi H.
  assert (Hp : length (firstn i inp) = i) by (rewrite length_firstn; lia).
  pose proof (controlSequenceAt_shift (firstn i inp) (skipn i inp) 0) as Hs.
  rewrite firstn_skipn, Hp, Nat.add_0_r, H in Hs.
  destruct (controlSequenceAt (skipn i inp) 0) as [j'|]; [|discriminate].
  injection Hs as Hs. f_equal. lia.
Qed.

Lemma StripANSI_sequence : forall s j,
  controlSequenceAt s 0 = Some j -> StripANSI s = StripANSI (skipn j s).
Proof.
  intros s j H. pose proof (controlSequenceAt_range _ _ _ H) as Hj.
  unfold StripANSI at 1.
  destruct (length s) as [|n] eqn:En; [lia|].
  rewrite stripLoop_S. rewrite En.
  change (0 <? S n) with true. cbv iota.
  unfold controlSequenceAt in H. rewrite En in H.
  assert (Hgo : forall k, k <= S n -> k = j ->
                  stripLoop n s k [] = StripANSI (skipn j s)).
  { intros k Hk ->.
    assert (Hl : length (firstn j s) = j) by (rewrite length_firstn; lia).
    pose proof (stripLoop_suffix n (firstn j s) (skipn j s)) as Hx.
    rewrite firstn_skipn, Hl in Hx. apply Hx.
    rewrite length_skipn. lia. }
  cbn [Nat.add] in *.
  destruct (byteEq (byteAt s 0) escapeChar); [|discriminate].
  destruct (1 <? S n); [|discriminate]. cbn [andb] in *.
  destruct (byteEq (byteAt s 1) csiBracket);
    injection H as H; apply Hgo; lia.
Qed.

Lemma strip_pieces_app : forall th tokens y,
  themeClean th ->
  Forall (fun t => ~ In ESC (Value t)) tokens ->
  StripANSI (concat (map (piece th) tokens) ++ y)
  = concatValues tokens ++ StripANSI y.
Proof.
  intros th tokens y Hth H. induction H as [|t rest Ht Hrest IH].
  - reflexivity.
  - cbn [map concat]. unfold concatValues. cbn [map concat].
    fold (concatValues rest). rewrite <- !app_assoc, <- IH.
    unfold piece at 1. pose proof (Hth (Type_ t)) as Hc.
    destruct (GetColor th (Type_ t)) as [|c0 color].
    + apply StripANSI_text. exact Ht.
    + rewrite <- !app_assoc. rewrite Hc.
      rewrite StripANSI_text by exact Ht.
      destruct style_codes_clean as [Hr _]. rewrite Hr. reflexivity.
Qed.

Lemma cleanCode_head : forall c code, cleanCode (c :: code) -> c = ESC.
Proof.
  intros c code H. specialize (H []). rewrite app_nil_r in H.
  destruct (Ascii.eqb_spec c ESC) as [E|E]; [exact E|].
  rewrite StripANSI_plain in H by exact E. discriminate.
Qed.

(** The output for a text starts with the first byte of the text, or
    with the escape character of a colour. *)
Lemma pieces_start : forall th tokens c r y,
  themeClean th ->
  Forall (fun t => Value t <> []) tokens ->
  concatValues tokens = c :: r ->
  exists d r', concat (map (piece th) tokens) ++ y = d :: r'
               /\ (d = c \/ d = ESC).
Proof.
  intros th [|t rest] c r y Hth Hne Hc; [discriminate|].
  inversion Hne as [|? ? Hv _]; subst.
  unfold concatValues in Hc. cbn [map concat] in Hc. cbn [map concat].
  unfold piece at 1. pose proof (Hth (Type_ t)) as Hcl.
  destruct (GetColor th (Type_ t)) as [|c0 color].
  - destruct (Value t) as [|v0 v]; [contradiction|].
    cbn [app] in Hc. injection Hc as -> _.
    eexists _, _. split; [reflexivity | left; reflexivity].
  - apply cleanCode_head in Hcl. subst c0.
    eexists _, _. split; [reflexivity | right; reflexivity].
Qed.

Lemma forced_strip_segments : forall h input,
  themeClean (theme h) ->
  (forall pre, input <> pre ++ [ESC]) ->
  forall i segs,
    Segmented input i segs ->
    Forall (fun seg => isEscape seg = false ->
                       FindStringSubmatch_prompt (text seg) = None) segs ->
    StripANSI (concat (map (emit h) segs)) = StripANSI (skipn i input)
    /\ sameStart (skipn i input) (concat (map (emit h) segs)).
Proof.
  intros h inp Hth Hlast i segs HS.
  induction HS as [|i j rest Hcs HS IH|i j rest Hr Hn Hb HS IH]; intros Hp.
  - rewrite skipn_all2 by lia. split; [reflexivity | exact I].
  - inversion Hp as [|? ? _ Hp']; subst.
    destruct (IH Hp') as [IH1 IH2].
    pose proof (controlSequenceAt_range _ _ _ Hcs) as Hj.
    assert (Hi : i <= length inp) by lia.
    pose proof (controlSequenceAt_skipn _ _ _ Hi Hcs) as Hcs0.
    assert (HE : slice inp i j = firstn (j - i) (skipn i inp)) by reflexivity.
    assert (Hsk : skipn (j - i) (skipn i inp) = skipn j inp).
    { rewrite skipn_skipn. f_equal. lia. }
    cbn [map concat]. unfold emit at 1 3. cbn [isEscape text].
    rewrite HE.
    assert (Hcs1 : controlSequenceAt
                     (firstn (j - i) (skipn i inp)
                      ++ concat (map (emit h) rest)) 0 = Some (j - i)).
    { apply controlSequenceAt_transfer; [exact Hcs0|].
      rewrite Hsk. exact IH2. }
    split.
    + rewrite (StripANSI_sequence _ _ Hcs1), (StripANSI_sequence _ _ Hcs0).
      rewrite Hsk, skipn_app.
      assert (Hl : length (firstn (j - i) (skipn i inp)) = j - i)
        by (rewrite length_firstn, length_skipn; lia).
      rewrite Hl, Nat.sub_diag. rewrite skipn_all2 by lia.
      cbn [skipn app]. exact IH1.
    + destruct (skipn i inp) as [|c a] eqn:Ea.
      { apply (f_equal (@length ascii)) in Ea. rewrite length_skipn in Ea.
        cbn [length] in Ea. lia. }
      replace (j - i) with (S (j - i - 1)) by lia.
      cbn [firstn app sameStart]. left. reflexivity.
  - inversion Hp as [|? ? Hp0 Hp']; subst.
    destruct (IH Hp') as [IH1 IH2]. specialize (Hp0 eq_refl).
    cbn [text] in Hp0.
    assert (Hplain : ~ In ESC (slice inp i j)).
    { intros Hin. apply In_slice in Hin. destruct Hin as (k & Hk & Hkl & Hbk).
      destruct (controlSequenceAt_none _ _ (Hn k Hk)) as [Hne|Hend];
        [contradiction|].
      apply (Hlast (firstn k inp)). rewrite <- Hbk.
      apply last_byte_split. lia. }
    pose proof (tokensOf_lossless (lexer.New (slice inp i j)) eq_refl Hp0)
      as Hloss. cbn [input lexer.New] in Hloss.
    pose proof (lossless_values_plain _ _ Hloss Hplain) as Hvals.
    assert (Hsplit : skipn i inp = slice inp i j ++ skipn j inp).
    { rewrite <- (firstn_skipn (j - i) (skipn i inp)) at 1.
      rewrite skipn_skipn. replace (j - i + i) with j by lia. reflexivity. }
    cbn [map concat]. unfold emit at 1 3. cbn [isEscape text].
    unfold highlightTokensCleaned, renderTokens.
    rewrite renderLoop_pieces. cbn [app].
    split.
    + rewrite strip_pieces_app by assumption.
      rewrite Hloss, Hsplit, StripANSI_text by exact Hplain.
      rewrite IH1. reflexivity.
    + rewrite Hsplit.
      destruct (slice_head inp i j ltac:(lia) ltac:(lia)) as [r Hsl].
      assert (Hne : Forall (fun t => Value t <> [])
                           (tokensOf (lexer.New (slice inp i j)))).
      { apply (TokenizeDepth_nonempty _ _ _ (tokensOf_Some _)). }
      destruct (pieces_start (theme h) _ (byteAt inp i) r
                  (concat (map (emit h) rest)) Hth Hne (eq_trans Hloss Hsl))
        as (d & r' & Hout & Hd).
      rewrite Hout, Hsl. cbn [app sameStart]. exact Hd.
Qed.

(** X23. The forced entry point changes the colours only: for a theme of
    codes that [StripANSI] removes and an input that does not end in the
    escape character and has no text segment that is a prompt line,
    stripping the output gives what stripping the input gives, whatever
    control sequences the input holds. *)
Theorem forced_output_strips_to_input : forall h input,
  themeClean (theme h) ->
  (forall pre, input <> pre ++ [ESC]) ->
  Forall (fun seg => isEscape seg = false ->
                     FindStringSubmatch_prompt (text seg) = None)
         (extractSegments input) ->
  StripANSI (HighlightForced h input) = StripANSI input.
Proof.
  intros h inp Hth Hlast Hp. unfold HighlightForced.
  destruct (negb (IsEnabled h) || isEmpty inp); [reflexivity|].
  unfold highlightTokens. rewrite highlightLoop_emit. cbn [app].
  destruct (forced_strip_segments h inp Hth Hlast 0 _
              (extractSegments_segmented inp) Hp) as [H _].
  exact H.
Qed.

Lemma forced_output_strips_to_input_witness :
  StripANSI (HighlightForced highlighter.New
               (ESC :: bytes "[1minterface Gi0/0" ++ ESC :: bytes "[0m up"))
  = StripANSI (ESC :: bytes "[1minterface Gi0/0" ++ ESC :: bytes "[0m up").
Proof.
  apply (forced_output_strips_to_input highlighter.New
           (ESC :: bytes "[1minterface Gi0/0" ++ ESC :: bytes "[0m up")).
  - exact TokyoNightTheme_clean.
  - intros pre H. apply (f_equal (@rev ascii)) in H.
    rewrite rev_app_distr in H. vm_compute in H. discriminate H.
  - apply Forall_forall. intros seg Hin. vm_compute in Hin.
    repeat (destruct Hin as [<-|Hin];
            [intros H; first [discriminate H | vm_compute; reflexivity]|]).
    contradiction.
Defined.

(** ** Prompt lines that are lexed without loss *)

Lemma concatValues_summary : forall tokens,
  concatValues tokens = concat (map snd (summary tokens)).
Proof.
  intros tokens. unfold concatValues, summary. rewrite map_map. reflexivity.
Qed.

Lemma promptSummary_concat : forall m cmdTokens endsLF,
  concat (map snd (promptSummary m cmdTokens endsLF))
  = lead m ++ host m ++ mode m ++ [promptChar m]
    ++ (match command m with
        | [] => []
        | _ => bytes " " ++ concatValues cmdTokens
        end)
    ++ (if endsLF then [LF] else []).
Proof.
  intros m cmdTokens endsLF. unfold promptSummary.
  rewrite !map_app, !concat_app.
  assert (Hl : concat (map snd (match lead m with
                                | [] => []
                                | _ => [(TokenText, lead m)]
                                end)) = lead m)
    by (destruct (lead m); [reflexivity | cbn [map concat snd]; apply app_nil_r]).
  assert (Hm : concat (map snd (match mode m with
                                | [] => []
                                | _ => [(TokenPromptMode, mode m)]
                                end)) = mode m)
    by (destruct (mode m); [reflexivity | cbn [map concat snd]; apply app_nil_r]).
  rewrite Hl, Hm. cbn [map concat snd]. rewrite !app_nil_r.
  f_equal. f_equal. f_equal. f_equal. f_equal.
  - destruct (command m); [reflexivity|].
    cbn [map concat snd]. rewrite <- concatValues_summary. reflexivity.
  - destruct endsLF; reflexivity.
Qed.

Lemma HasSuffix_last : forall x c,
  strings.HasSuffix (x ++ [c]) [LF] = byteEq c LF.
Proof.
  intros x c. unfold strings.HasSuffix. rewrite rev_app_distr.
  cbn [rev app strings.HasPrefix].
  destruct (rev x); apply andb_true_r.
Qed.

Lemma prompt_line_ends : forall pre c ws cmd tl,
  isPromptChar c = true -> forallb isDot cmd = true ->
  forallb isSpaceByte ws = true ->
  (cmd = [] -> ws = []) ->
  tl = [] \/ tl = [LF] ->
  (if strings.HasSuffix (pre ++ c :: ws ++ cmd ++ tl) [LF] then [LF] else [])
  = tl.
Proof.
  intros pre c ws cmd tl Hc Hcmd Hws Hw [-> | ->].
  - rewrite app_nil_r.
    destruct (exists_last (l := c :: ws ++ cmd) ltac:(discriminate))
      as (x & z & Hx).
    rewrite Hx, app_assoc, HasSuffix_last.
    assert (Hz : byteEq z LF = false).
    { destruct cmd as [|b0 cmd0] eqn:Ecmd.
      - rewrite (Hw eq_refl) in Hx. cbn [app] in Hx.
        change [c] with ([] ++ [c]) in Hx. apply app_inj_tail in Hx.
        destruct Hx as [_ <-]. revert Hc. clear. all_bytes c.
      - destruct (exists_last (l := b0 :: cmd0) ltac:(discriminate))
          as (u & v & Hu).
        rewrite Hu in Hx, Hcmd.
        assert (Hr : c :: ws ++ u ++ [v] = (c :: ws ++ u) ++ [v])
          by (cbn [app]; rewrite <- app_assoc; reflexivity).
        rewrite Hr in Hx. apply app_inj_tail in Hx. destruct Hx as [_ <-].
        rewrite forallb_app in Hcmd. apply andb_true_iff in Hcmd.
        destruct Hcmd as [_ Hb]. cbn [forallb] in Hb.
        rewrite andb_true_r in Hb. unfold isDot in Hb.
        apply negb_true_iff in Hb. exact Hb. }
    rewrite Hz. reflexivity.
  - replace (pre ++ c :: ws ++ cmd ++ [LF])
      with ((pre ++ c :: ws ++ cmd) ++ [LF])
      by (rewrite <- !app_assoc; cbn [app]; rewrite <- !app_assoc;
          reflexivity).
    rewrite HasSuffix_last. reflexivity.
Qed.

(** X24. A prompt line in its plain form is lexed without loss: with the
    command, if there is one, one blank after the prompt character, free
    of blanks at its ends and itself no prompt, and with nothing after
    the prompt character if there is none, the values of the tokens
    concatenate to the input. *)
Theorem canonical_prompt_lossless : forall l l0 h mo c cmd tl,
  promptShape l0 h mo c (match cmd with [] => [] | _ => bytes " " end) cmd tl ->
  match cmd with [] => True | b :: _ => isSpaceByte b = false end ->
  strings.TrimSpace cmd = cmd ->
  FindStringSubmatch_prompt cmd = None ->
  input l = l0 ++ h ++ mo
            ++ c :: (match cmd with [] => [] | _ => bytes " " end)
            ++ cmd ++ tl ->
  concatValues (tokensOf l) = input l.
Proof.
  intros l l0 h mo c cmd tl Hs Hb Ht Hn Hi.
  destruct (FindStringSubmatch_prompt_complete _ _ _ _ _ _ _ Hs)
    as (m & Hm & Hl & Hh & Hmo & Hc & Hcmd).
  specialize (Hcmd Hb).
  assert (Hm' : FindStringSubmatch_prompt (input l) = Some m)
    by (rewrite Hi; exact Hm).
  rewrite concatValues_summary, (Tokenize_prompt_summary l m Hm').
  rewrite promptSummary_concat, Hl, Hh, Hmo, Hc, Hcmd, Ht.
  pose proof (tokensOf_lossless (lexer.New cmd) eq_refl Hn) as Hloss.
  cbn [input lexer.New] in Hloss. rewrite Hloss.
  destruct Hs as (_ & _ & _ & Hpc & Hws & Hdot & Htl).
  assert (He : (if strings.HasSuffix (input l) [LF] then [LF] else []) = tl).
  { rewrite Hi.
    replace (l0 ++ h ++ mo
             ++ c :: (match cmd with [] => [] | _ => bytes " " end)
             ++ cmd ++ tl)
      with ((l0 ++ h ++ mo)
            ++ c :: (match cmd with [] => [] | _ => bytes " " end)
            ++ cmd ++ tl)
      by (rewrite <- !app_assoc; reflexivity).
    apply prompt_line_ends; try assumption.
    intros ->. reflexivity. }
  rewrite He, Hi. destruct cmd; reflexivity.
Qed.

Lemma canonical_prompt_lossless_witness :
  concatValues
    (tokensOf (lexer.New (joinLines ["Router(config-if)# no shutdown"; ""])))
  = joinLines ["Router(config-if)# no shutdown"; ""].
Proof.
  apply (canonical_prompt_lossless
           (lexer.New (joinLines ["Router(config-if)# no shutdown"; ""]))
           [] (bytes "Router") (bytes "(config-if)") "#"%char
           (bytes "no shutdown") [LF]).
  - unfold promptShape. repeat split; try (vm_compute; reflexivity).
    + discriminate.
    + right. exists (bytes "config-if"). repeat split;
        try (vm_compute; reflexivity). discriminate.
    + right. reflexivity.
  - reflexivity.
  - vm_compute. reflexivity.
  - vm_compute. reflexivity.
  - vm_compute. reflexivity.
Defined.

(** ** Positions on the prompt path *)

(** Tokens on line 1 at running columns: each one starts where the value
    of the one before it ends. *)
Fixpoint flatFrom (col : nat) (tokens : list Token) : Prop :=
  match tokens with
  | [] => True
  | t :: rest =>
      Line t = 1 /\ Column t = col /\ flatFrom (col + length (Value t)) rest
  end.

Lemma concatValues_cons : forall t tokens,
  concatValues (t :: tokens) = Value t ++ concatValues tokens.
Proof. reflexivity. Qed.

Lemma concatValues_single : forall t, concatValues [t] = Value t.
Proof. intros t. unfold concatValues. cbn [map concat]. apply app_nil_r. Qed.

Lemma flatFrom_app : forall a b col,
  flatFrom col a -> flatFrom (col + length (concatValues a)) b ->
  flatFrom col (a ++ b).
Proof.
  induction a as [|t a IH]; intros b col Ha Hb.
  - cbn [app]. unfold concatValues in Hb. cbn in Hb.
    rewrite Nat.add_0_r in Hb. exact Hb.
  - cbn [app flatFrom] in *. destruct Ha as (Hl & Hc & Ha).
    repeat split; try assumption. apply IH; [exact Ha|].
    rewrite concatValues_cons, length_app in Hb.
    rewrite <- Nat.add_assoc. exact Hb.
Qed.

Lemma flatFrom_lines : forall tokens col,
  flatFrom col tokens -> Forall (fun t => Line t = 1) tokens.
Proof.
  induction tokens as [|t tokens IH]; intros col H; [constructor|].
  cbn [flatFrom] in H. destruct H as (Hl & _ & H).
  constructor; [exact Hl | apply (IH _ H)].
Qed.

Lemma appendCommandTokens_flat : forall cmdTokens tokens col c0,
  Forall (fun t => Line t = 1) cmdTokens ->
  flatFrom c0 tokens -> col = c0 + length (concatValues tokens) ->
  flatFrom c0 (fst (appendCommandTokens cmdTokens tokens col))
  /\ snd (appendCommandTokens cmdTokens tokens col)
     = c0 + length (concatValues
                      (fst (appendCommandTokens cmdTokens tokens col))).
Proof.
  induction cmdTokens as [|t cmdTokens IH]; intros tokens col c0 Hl Hf Hc.
  - cbn [appendCommandTokens fst snd]. split; assumption.
  - cbn [appendCommandTokens]. inversion Hl as [|? ? Ht Hl']; subst.
    apply IH; [exact Hl' | |].
    + apply flatFrom_app; [exact Hf|]. cbn [flatFrom Line Column Value].
      repeat split. exact Ht.
    + rewrite concatValues_app, length_app, concatValues_single.
      cbn [Value]. lia.
Qed.

Lemma tryTokenizePrompt_flat : forall tk input m tokens,
  FindStringSubmatch_prompt input = Some m ->
  (forall cmdTokens,
     tk (lexer.New (strings.TrimSpace (command m))) = Some cmdTokens ->
     Forall (fun t => Line t = 1) cmdTokens) ->
  tryTokenizePrompt tk input = Some (Some tokens) ->
  flatFrom 1 tokens.
Proof.
  intros tk inp m tokens Hm Hcmd H. unfold tryTokenizePrompt in H.
  rewrite Hm in H.
  set (t0 := match lead m with
             | [] => ([], 1)
             | _ => ([] ++ [mkToken TokenText (lead m) 1 1],
                     1 + length (lead m))
             end) in H.
  assert (H0 : flatFrom 1 (fst t0)
               /\ snd t0 = 1 + length (concatValues (fst t0))).
  { unfold t0. destruct (lead m); cbn [fst snd app flatFrom Line Column];
      [split; [exact I | reflexivity]|].
    rewrite concatValues_single. repeat split. }
  destruct t0 as [toks0 col0]. cbn [fst snd] in H0. destruct H0 as [F0 C0].
  set (toks1 := toks0 ++ [mkToken TokenPromptHost (host m) 1 col0]) in H.
  assert (F1 : flatFrom 1 toks1).
  { unfold toks1. apply flatFrom_app; [exact F0|].
    cbn [flatFrom Line Column]. repeat split. exact C0. }
  assert (C1 : col0 + length (host m) = 1 + length (concatValues toks1)).
  { unfold toks1. rewrite concatValues_app, length_app, concatValues_single.
    cbn [Value]. lia. }
  set (col1 := col0 + length (host m)) in *.
  set (t2 := match mode m with
             | [] => (toks1, col1)
             | _ => (toks1 ++ [mkToken TokenPromptMode (mode m) 1 col1],
                     col1 + length (mode m))
             end) in H.
  assert (H2 : flatFrom 1 (fst t2)
               /\ snd t2 = 1 + length (concatValues (fst t2))).
  { unfold t2. destruct (mode m) as [|c0 md] eqn:Emd; cbn [fst snd];
      [split; assumption|].
    split.
    - apply flatFrom_app; [exact F1|]. cbn [flatFrom Line Column].
      repeat split. exact C1.
    - rewrite concatValues_app, length_app, concatValues_single.
      cbn [Value]. lia. }
  destruct t2 as [toks2 col2]. cbn [fst snd] in H2. destruct H2 as [F2 C2].
  set (pt := if byteEq (promptChar m) "#" then TokenPromptConf
             else TokenPromptOper) in H.
  set (toks3 := toks2 ++ [mkToken pt [promptChar m] 1 col2]) in H.
  assert (F3 : flatFrom 1 toks3).
  { unfold toks3. apply flatFrom_app; [exact F2|].
    cbn [flatFrom Line Column]. repeat split. exact C2. }
  assert (C3 : S col2 = 1 + length (concatValues toks3)).
  { unfold toks3. rewrite concatValues_app, length_app.
    rewrite concatValues_single. cbn [Value length]. lia. }
  assert (Hfin : forall toks col,
            flatFrom 1 toks -> col = 1 + length (concatValues toks) ->
            Some (if strings.HasSuffix inp [LF]
                  then Some (toks ++ [mkToken TokenText [LF] 1 col])
                  else Some toks) = Some (Some tokens) ->
            flatFrom 1 tokens).
  { intros toks col F C E. destruct (strings.HasSuffix inp [LF]);
      injection E as <-; [|exact F].
    apply flatFrom_app; [exact F|]. cbn [flatFrom Line Column].
    repeat split. exact C. }
  destruct (command m) as [|b cmd] eqn:Ecmd.
  - apply (Hfin toks3 (S col2) F3 C3). exact H.
  - set (toks4 := toks3 ++ [mkToken TokenText (bytes " ") 1 (S col2)]) in H.
    assert (F4 : flatFrom 1 toks4).
    { unfold toks4. apply flatFrom_app; [exact F3|].
      cbn [flatFrom Line Column]. repeat split. exact C3. }
    assert (C4 : S (S col2) = 1 + length (concatValues toks4)).
    { unfold toks4. rewrite concatValues_app, length_app.
      rewrite concatValues_single. cbn [Value]. change (length (bytes " ")) with 1.
      lia. }
    destruct (tk (lexer.New (strings.TrimSpace (b :: cmd)))) as [cmdTokens|]
      eqn:Etk; [|discriminate].
    destruct (appendCommandTokens_flat cmdTokens toks4 (S (S col2)) 1
                (Hcmd cmdTokens eq_refl) F4 C4) as [F5 C5].
    destruct (appendCommandTokens cmdTokens toks4 (S (S col2)))
      as [toks5 col5].
    cbn [fst snd] in F5, C5.
    apply (Hfin toks5 col5 F5 C5). exact H.
Qed.

Lemma positionAfter_noLF : forall x line col,
  ~ In LF x -> positionAfter x line col = (line, col + length x).
Proof.
  induction x as [|c x IH]; intros line col H.
  - cbn [positionAfter length]. rewrite Nat.add_0_r. reflexivity.
  - cbn [positionAfter length].
    destruct (byteEq c LF) eqn:E.
    + exfalso. apply H. left. apply byteEq_eq in E. exact E.
    + rewrite IH by (intros Hin; apply H; right; exact Hin).
      f_equal. lia.
Qed.

Lemma positioned_lines : forall tokens pre,
  positioned pre tokens -> ~ In LF (pre ++ concatValues tokens) ->
  Forall (fun t => Line t = 1) tokens.
Proof.
  induction tokens as [|t tokens IH]; intros pre H Hn; [constructor|].
  cbn [positioned] in H. destruct H as [Hp H].
  rewrite concatValues_cons in Hn.
  constructor.
  - rewrite positionAfter_noLF in Hp
      by (intros Hin; apply Hn, in_or_app; left; exact Hin).
    injection Hp as Hl _. exact Hl.
  - apply (IH (pre ++ Value t) H). rewrite <- app_assoc. exact Hn.
Qed.

Lemma In_skipn : forall (n : nat) (s : gostring) c, In c (skipn n s) -> In c s.
Proof.
  intros n s c H. rewrite <- (firstn_skipn n s). apply in_or_app. right.
  exact H.
Qed.

Lemma trimLeft_incl : forall fuel s c,
  In c (strings.trimLeft fuel s) -> In c s.
Proof.
  induction fuel as [|fuel IH]; intros s c H; [exact H|].
  rewrite trimLeft_S in H.
  destruct (strings.leadingSpace s) as [n|]; [|exact H].
  apply (In_skipn n). apply IH. exact H.
Qed.

Lemma trimRightRev_incl : forall fuel s c,
  In c (strings.trimRightRev fuel s) -> In c s.
Proof.
  induction fuel as [|fuel IH]; intros s c H; [exact H|].
  rewrite trimRightRev_S in H.
  destruct (strings.trailingSpace s) as [n|]; [|exact H].
  apply (In_skipn n). apply IH. exact H.
Qed.

Lemma TrimSpace_incl : forall s c, In c (strings.TrimSpace s) -> In c s.
Proof.
  intros s c H. unfold strings.TrimSpace in H.
  apply in_rev in H. apply trimRightRev_incl in H. apply in_rev in H.
  apply trimLeft_incl in H. exact H.
Qed.

Lemma prompt_command_noLF : forall input m,
  FindStringSubmatch_prompt input = Some m -> ~ In LF (command m).
Proof.
  intros inp m H Hin.
  destruct (FindStringSubmatch_prompt_sound _ _ H) as (ws & tl & Hs & _).
  destruct Hs as (_ & _ & _ & _ & _ & Hdot & _).
  rewrite forallb_forall in Hdot. specialize (Hdot LF Hin). discriminate.
Qed.

Lemma tryTokenizePrompt_match : forall tk input m,
  FindStringSubmatch_prompt input = Some m ->
  tryTokenizePrompt tk input <> None.
Proof.
  intros tk inp m H E. unfold tryTokenizePrompt in E. rewrite H in E.
  destruct (lead m); destruct (mode m); cbv beta iota zeta in E;
    discriminate E.
Qed.

Lemma TokenizeDepth_lines : forall depth s tokens,
  ~ In LF s ->
  TokenizeDepth depth (lexer.New s) = Some tokens ->
  Forall (fun t => Line t = 1) tokens.
Proof.
  induction depth as [|depth IH]; intros s tokens Hn H; [discriminate|].
  cbn [TokenizeDepth input lexer.New] in H.
  destruct (FindStringSubmatch_prompt s) as [m|] eqn:Em.
  - destruct (tryTokenizePrompt (TokenizeDepth depth) s) as [p|] eqn:Ep.
    + subst p. apply (flatFrom_lines tokens 1).
      apply (tryTokenizePrompt_flat (TokenizeDepth depth) s m tokens Em);
        [|exact Ep].
      intros cmdTokens Hc.
      apply (IH (strings.TrimSpace (command m)) cmdTokens); [|exact Hc].
      intros Hin. apply TrimSpace_incl in Hin.
      apply (prompt_command_noLF _ _ Em Hin).
    + exfalso. exact (tryTokenizePrompt_match _ _ _ Em Ep).
  - rewrite tryTokenizePrompt_no_match in H by exact Em.
    injection H as <-.
    apply (positioned_lines _ []).
    + apply scanTokens_positioned; [reflexivity | cbn; lia | reflexivity | exact I].
    + destruct (scanTokens_spec (remaining (lexer.New s)) (lexer.New s) [])
        as (_ & _ & Hc); [lia | cbn; lia |].
      cbn [app]. rewrite Hc. cbn [app input lexer.New pos].
      rewrite slice_full. exact Hn.
Qed.

(** X25. On a prompt line every token is on line 1 and its column is 1
    plus the length of the values of the tokens before it: the position in
    the line as the tokens spell it, also where the leading blanks of the
    input hold a line end. *)
Theorem prompt_path_positions : forall l m tokens,
  FindStringSubmatch_prompt (input l) = Some m ->
  Tokenize l = Some tokens ->
  flatFrom 1 tokens.
Proof.
  intros l m tokens Hm H. unfold Tokenize in H. cbn [TokenizeDepth] in H.
  destruct (tryTokenizePrompt (TokenizeDepth (length (input l))) (input l))
    as [p|] eqn:Ep.
  - subst p.
    apply (tryTokenizePrompt_flat (TokenizeDepth (length (input l)))
             (input l) m tokens Hm); [|exact Ep].
    intros cmdTokens Hc.
    apply (TokenizeDepth_lines (length (input l))
             (strings.TrimSpace (command m)) cmdTokens); [|exact Hc].
    intros Hin. apply TrimSpace_incl in Hin.
    apply (prompt_command_noLF _ _ Hm Hin).
  - exfalso. exact (tryTokenizePrompt_match _ _ _ Hm Ep).
Qed.

Lemma prompt_path_positions_witness :
  flatFrom 1 (tokensOf (lexer.New (LF :: bytes "Router#   show ip route"))).
Proof.
  pose proof (tokensOf_Some (lexer.New (LF :: bytes "Router#   show ip route")))
    as Ht.
  destruct (FindStringSubmatch_prompt (LF :: bytes "Router#   show ip route"))
    as [m|] eqn:Em; [|vm_compute in Em; discriminate Em].
  exact (prompt_path_positions
           (lexer.New (LF :: bytes "Router#   show ip route")) m _ Em Ht).
Defined.

(** ** The segmenter against the control sequences of the specification *)

Lemma skipOtherEscapeSequence_whole : forall run t rest,
  forallb isCSIIntermediateByte run = true ->
  isCSIIntermediateByte t = false ->
  skipOtherEscapeSequence (run ++ t :: rest) 0 = S (length run).
Proof.
  intros run t rest Hr Ht. unfold skipOtherEscapeSequence.
  rewrite (skipWhile_run isCSIIntermediateByte run (t :: rest));
    [|exact Hr | exact Ht | rewrite length_app; cbn [length]; lia].
  replace (length run <? length (run ++ t :: rest)) with true; [reflexivity|].
  symmetry. apply Nat.ltb_lt. rewrite length_app. cbn [length]. lia.
Qed.

Lemma skipOtherEscapeSequence_open : forall run,
  forallb isCSIIntermediateByte run = true ->
  skipOtherEscapeSequence run 0 = length run.
Proof.
  intros run Hr. unfold skipOtherEscapeSequence.
  pose proof (skipWhile_run isCSIIntermediateByte run [] (length run - 0)
                Hr I) as H.
  rewrite app_nil_r in H. rewrite H by lia.
  rewrite Nat.ltb_irrefl. reflexivity.
Qed.

Lemma skipCSISequence_open : forall ps rest,
  forallb isCSIParamByte ps = true ->
  match rest with
  | [] => True
  | c :: _ => isCSIParamByte c = false /\ isCSIFinalByte c = false
  end ->
  skipCSISequence (ps ++ rest) 0 = length ps.
Proof.
  intros ps rest Hp Hr. unfold skipCSISequence.
  rewrite (skipWhile_run isCSIParamByte ps rest);
    [|exact Hp | destruct rest; [exact I | apply Hr]
     |rewrite length_app; lia].
  destruct rest as [|c rest].
  - rewrite app_nil_r, Nat.ltb_irrefl. reflexivity.
  - rewrite byteAt_length. destruct Hr as [_ ->].
    rewrite andb_false_r. reflexivity.
Qed.

(** The sequence the code reads at the start of [e :: b :: body], by the
    form of the text. *)
Lemma controlSequenceAt_bracket : forall body,
  controlSequenceAt (ESC :: csiBracket :: body) 0
  = Some (2 + skipCSISequence body 0).
Proof.
  intros body. unfold controlSequenceAt.
  change (byteAt (ESC :: csiBracket :: body) 0) with ESC.
  change (byteAt (ESC :: csiBracket :: body) (0 + 1)) with csiBracket.
  change (byteEq ESC escapeChar) with true.
  change (byteEq csiBracket csiBracket) with true.
  change (0 + 1 <? length (ESC :: csiBracket :: body)) with true.
  cbn [andb]. cbv iota. f_equal.
  apply (skipCSISequence_shift [ESC; csiBracket] body 0).
Qed.

Lemma controlSequenceAt_other : forall b body,
  byteEq b csiBracket = false ->
  controlSequenceAt (ESC :: b :: body) 0
  = Some (1 + skipOtherEscapeSequence (b :: body) 0).
Proof.
  intros b body Hb. unfold controlSequenceAt.
  change (byteAt (ESC :: b :: body) 0) with ESC.
  change (byteAt (ESC :: b :: body) (0 + 1)) with b.
  change (byteEq ESC escapeChar) with true.
  change (0 + 1 <? length (ESC :: b :: body)) with true.
  cbn [andb]. cbv iota. rewrite Hb. f_equal.
  apply (skipOtherEscapeSequence_shift [ESC] (b :: body) 0).
Qed.

(** A control sequence of the specification at the start of a text is
    read by the code as a whole, whatever follows it. *)
Lemma specControlSequence_read : forall cs rest,
  specControlSequence cs = true ->
  controlSequenceAt (cs ++ rest) 0 = Some (length cs).
Proof.
  intros cs rest H. unfold specControlSequence in H.
  destruct cs as [|e [|b body]]; try discriminate.
  apply andb_true_iff in H. destruct H as [He H].
  apply byteEq_eq in He. subst e. cbn [app].
  destruct (byteEq b "[") eqn:Hb.
  - apply byteEq_eq in Hb. subst b.
    destruct (span isCSIParamByte body) as [ps r] eqn:Es.
    destruct r as [|f [|]]; try discriminate.
    pose proof (span_app _ _ _ _ Es) as ->.
    destruct (span_forallb _ _ _ _ Es) as [Hp _].
    change "["%char with csiBracket. rewrite controlSequenceAt_bracket.
    rewrite <- app_assoc. cbn [app].
    rewrite skipCSISequence_whole by assumption.
    cbn [length]. rewrite length_app. cbn [length]. f_equal. lia.
  - destruct (span isCSIIntermediateByte (b :: body)) as [run r] eqn:Es.
    destruct r as [|t [|]]; try discriminate.
    pose proof (span_app _ _ _ _ Es) as Hbody.
    destruct (span_forallb _ _ _ _ Es) as [Hr Ht].
    rewrite controlSequenceAt_other by exact Hb.
    change (b :: body ++ rest) with ((b :: body) ++ rest).
    rewrite Hbody, <- app_assoc. cbn [app].
    rewrite skipOtherEscapeSequence_whole by assumption.
    cbn [length]. rewrite length_app. cbn [length]. f_equal. lia.
Qed.

Lemma firstn_cons2 : forall (n : nat) (a b : ascii) (l : gostring),
  firstn (S (S n)) (a :: b :: l) = a :: b :: firstn n l.
Proof. reflexivity. Qed.

Lemma firstn_cons1 : forall (n : nat) (a : ascii) (l : gostring),
  firstn (S n) (a :: l) = a :: firstn n l.
Proof. reflexivity. Qed.

Lemma firstn_exact : forall (a b : gostring), firstn (length a) (a ++ b) = a.
Proof.
  intros a b. rewrite firstn_app, Nat.sub_diag, firstn_all. cbn [firstn].
  apply app_nil_r.
Qed.

Lemma firstn_exact_S : forall (a : gostring) c b,
  firstn (S (length a)) (a ++ c :: b) = a ++ [c].
Proof.
  intros a c b. change (c :: b) with ([c] ++ b). rewrite app_assoc.
  replace (S (length a)) with (length (a ++ [c]))
    by (rewrite length_app; cbn [length]; lia).
  apply firstn_exact.
Qed.

(** What the code reads at the start of a text is a control sequence of
    the specification, or one cut short. *)
Lemma controlSequenceAt_shape : forall s j,
  controlSequenceAt s 0 = Some j ->
  specControlSequence (firstn j s) = true
  \/ specTruncated (firstn j s) = true.
Proof.
  intros s j H.
  pose proof (controlSequenceAt_range _ _ _ H) as Hj.
  destruct s as [|e [|b body]]; try (cbn [length] in Hj; lia).
  assert (He : e = ESC).
  { unfold controlSequenceAt in H.
    destruct (byteEq (byteAt (e :: b :: body) 0) escapeChar) eqn:E;
      [|discriminate].
    apply byteEq_eq in E. exact E. }
  subst e. clear Hj.
  destruct (byteEq b csiBracket) eqn:Hb.
  - apply byteEq_eq in Hb. subst b.
    rewrite controlSequenceAt_bracket in H. injection H as <-.
    cbn [Nat.add]. rewrite firstn_cons2.
    destruct (span isCSIParamByte body) as [ps r] eqn:Es.
    pose proof (span_app _ _ _ _ Es) as ->.
    destruct (span_forallb _ _ _ _ Es) as [Hp Hr]. clear Es.
    unfold specControlSequence, specTruncated.
    change (byteEq ESC ESC) with true.
    change (byteEq csiBracket "[") with true. cbn [andb].
    destruct r as [|f r'].
    + right. rewrite (skipCSISequence_open ps [] Hp I), firstn_exact.
      exact Hp.
    + destruct (isCSIFinalByte f) eqn:Hf.
      * left. rewrite skipCSISequence_whole by assumption.
        rewrite firstn_exact_S.
        rewrite (span_run isCSIParamByte ps [f] Hp Hr). exact Hf.
      * right. rewrite (skipCSISequence_open ps (f :: r')) by auto.
        rewrite firstn_exact. exact Hp.
  - rewrite controlSequenceAt_other in H by exact Hb. injection H as <-.
    cbn [Nat.add]. rewrite firstn_cons1.
    destruct (span isCSIIntermediateByte (b :: body)) as [run r] eqn:Es.
    pose proof (span_app _ _ _ _ Es) as Hbody.
    destruct (span_forallb _ _ _ _ Es) as [Hr Ht]. clear Es.
    rewrite Hbody.
    assert (Hhead : forall n,
              0 < n ->
              exists body', firstn n (run ++ r) = b :: body').
    { intros n Hn. rewrite <- Hbody. destruct n as [|n]; [lia|].
      cbn [firstn]. eexists. reflexivity. }
    change csiBracket with "["%char in Hb.
    destruct r as [|t r'].
    + right. rewrite skipOtherEscapeSequence_open
        by (rewrite app_nil_r; exact Hr).
      rewrite firstn_all.
      destruct (Hhead (length (run ++ []))) as [body' Hf].
      { rewrite <- Hbody. cbn [length]. lia. }
      rewrite firstn_all in Hf.
      unfold specTruncated. rewrite Hf.
      change (byteEq ESC ESC) with true. rewrite Hb. cbn [andb].
      rewrite <- Hf, app_nil_r. exact Hr.
    + left. rewrite skipOtherEscapeSequence_whole by assumption.
      destruct (Hhead (S (length run))) as [body' Hf]; [lia|].
      rewrite firstn_exact_S in Hf |- *.
      unfold specControlSequence. rewrite Hf.
      change (byteEq ESC ESC) with true. rewrite Hb. cbn [andb].
      rewrite <- Hf.
      rewrite (span_run isCSIIntermediateByte run [t] Hr Ht). reflexivity.
Qed.

Lemma skipn_slice : forall (input : gostring) i j,
  i <= j -> skipn i input = slice input i j ++ skipn j input.
Proof.
  intros inp i j Hij. rewrite <- (firstn_skipn (j - i) (skipn i inp)) at 1.
  rewrite skipn_skipn. replace (j - i + i) with j by lia. reflexivity.
Qed.

(** A control sequence of the specification that stands at [i] in the
    input is what the code reads at [i]. *)
Lemma specControlSequence_at : forall input i j,
  i < j <= length input ->
  specControlSequence (slice input i j) = true ->
  controlSequenceAt input i = Some j.
Proof.
  intros inp i j Hij H.
  pose proof (controlSequenceAt_shift (firstn i inp) (skipn i inp) 0) as Hs.
  rewrite firstn_skipn in Hs.
  assert (Hl : length (firstn i inp) = i) by (rewrite length_firstn; lia).
  rewrite Hl, Nat.add_0_r in Hs. rewrite Hs.
  rewrite (skipn_slice inp i j) by lia.
  rewrite (specControlSequence_read _ _ H).
  rewrite slice_length by lia. f_equal. lia.
Qed.

(** Where the segments lie, and what the code read there. *)
Lemma Segmented_located : forall input p segs,
  Segmented input p segs ->
  forall start seg,
    In (start, seg) (located p segs) ->
    p <= start
    /\ start + length (text seg) <= length input
    /\ text seg = slice input start (start + length (text seg))
    /\ (if isEscape seg
        then controlSequenceAt input start
             = Some (start + length (text seg))
        else forall k, start <= k < start + length (text seg) ->
                       controlSequenceAt input k = None).
Proof.
  intros inp p segs H.
  induction H as [|i j rest Hcs H IH|i j rest Hr Hn Hb H IH];
    intros start seg Hin.
  - contradiction.
  - pose proof (controlSequenceAt_range _ _ _ Hcs) as Hj.
    assert (Hl : i + length (slice inp i j) = j)
      by (rewrite slice_length by lia; lia).
    cbn [located text] in Hin. rewrite Hl in Hin.
    destruct Hin as [Hin|Hin].
    + injection Hin as <- <-. cbn [text isEscape]. rewrite Hl.
      repeat split; try lia. exact Hcs.
    + destruct (IH _ _ Hin) as (A & B). split; [lia | exact B].
  - assert (Hl : i + length (slice inp i j) = j)
      by (rewrite slice_length by lia; lia).
    cbn [located text] in Hin. rewrite Hl in Hin.
    destruct Hin as [Hin|Hin].
    + injection Hin as <- <-. cbn [text isEscape]. rewrite Hl.
      repeat split; try lia. exact Hn.
    + destruct (IH _ _ Hin) as (A & B). split; [lia | exact B].
Qed.

Lemma located_In : forall segs p seg,
  In seg segs -> exists start, In (start, seg) (located p segs).
Proof.
  induction segs as [|s segs IH]; intros p seg Hin; [contradiction|].
  destruct Hin as [->|Hin].
  - exists p. left. reflexivity.
  - destruct (IH (p + length (text s)) seg Hin) as [start Hs].
    exists start. right. exact Hs.
Qed.

(** One control sequence of the specification, then plain text. *)
Lemma sequence_then_text : forall cs txt,
  specControlSequence cs = true -> txt <> [] -> ~ In ESC txt ->
  extractSegments (cs ++ txt)
  = [ mkSegment cs true; mkSegment txt false ]
  /\ StripANSI (cs ++ txt) = txt.
Proof.
  intros cs txt Hcs Hne Hplain.
  pose proof (specControlSequence_read cs txt Hcs) as Hread.
  assert (Hlen : length (cs ++ txt) = length cs + length txt)
    by apply length_app.
  assert (Ht : 0 < length txt) by (destruct txt; [contradiction | cbn; lia]).
  split.
  - rewrite (escape_then_text (cs ++ txt) (length cs) Hread).
    + f_equal; [|f_equal]; f_equal.
      * rewrite slice_prefix. apply firstn_exact.
      * unfold slice. rewrite skipn_app, Nat.sub_diag, skipn_all.
        cbn [skipn app]. apply firstn_all2. lia.
    + lia.
    + intros k Hk Hb. apply Hplain.
      replace k with (length cs + (k - length cs)) in Hb by lia.
      rewrite byteAt_app_r in Hb. rewrite <- Hb.
      unfold byteAt. apply nth_In. lia.
  - rewrite (StripANSI_sequence _ _ Hread).
    rewrite skipn_app, Nat.sub_diag, skipn_all. cbn [skipn app].
    apply StripANSI_id. exact Hplain.
Qed.

Lemma ESC_not_intermediate : isCSIIntermediateByte ESC = false.
Proof. reflexivity. Qed.

Lemma nth_forallb_ESC : forall (p : ascii -> bool) (run : gostring) k,
  p ESC = false -> forallb p run = true -> k < length run ->
  nth k run zero <> ESC.
Proof.
  intros p run k Hp Hr Hk Hn. rewrite forallb_forall in Hr.
  specialize (Hr (nth k run zero) (nth_In _ _ Hk)).
  rewrite Hn, Hp in Hr. discriminate.
Qed.

(** Inside a control sequence, whole or cut short, the escape character
    stands after the first byte only as the byte that ends the short
    form. *)
Lemma escape_inside_sequence : forall x k,
  specControlSequence x = true \/ specTruncated x = true ->
  0 < k < length x -> byteAt x k = ESC ->
  S k = length x /\ specControlSequence x = true.
Proof.
  intros x k Hx Hk Hb. unfold byteAt in Hb.
  destruct x as [|e [|b body]];
    try (destruct Hx as [Hx|Hx]; discriminate Hx).
  destruct k as [|k]; [lia|].
  change (nth (S k) (e :: b :: body) zero) with (nth k (b :: body) zero) in Hb.
  cbn [length] in Hk.
  unfold specControlSequence, specTruncated in Hx.
  destruct (byteEq e ESC) eqn:Ee; cbn [andb] in Hx;
    [|destruct Hx as [Hx|Hx]; discriminate Hx].
  apply byteEq_eq in Ee. subst e.
  destruct (byteEq b "[") eqn:Ebr.
  - exfalso. apply byteEq_eq in Ebr. subst b.
    destruct k as [|k]; [discriminate Hb|].
    change (nth (S k) ("["%char :: body) zero) with (nth k body zero) in Hb.
    assert (Hall : forallb (fun c => isCSIParamByte c || isCSIFinalByte c)
                           body = true).
    { destruct Hx as [Hx|Hx].
      - destruct (span isCSIParamByte body) as [ps r] eqn:Es.
        destruct r as [|f [|]]; try discriminate.
        pose proof (span_app _ _ _ _ Es) as ->.
        destruct (span_forallb _ _ _ _ Es) as [Hp _].
        rewrite forallb_app. cbn [forallb]. rewrite Hx, orb_true_r.
        rewrite andb_true_r. apply forallb_forall. intros c Hc.
        rewrite forallb_forall in Hp. rewrite (Hp c Hc). reflexivity.
      - apply forallb_forall. intros c Hc.
        rewrite forallb_forall in Hx. rewrite (Hx c Hc). reflexivity. }
    apply (nth_forallb_ESC _ body k (eq_refl : _ ESC = false) Hall);
      [lia | exact Hb].
  - destruct Hx as [Hx|Hx].
    + destruct (span isCSIIntermediateByte (b :: body)) as [run r] eqn:Es.
      destruct r as [|t [|]]; try discriminate.
      pose proof (span_app _ _ _ _ Es) as Hbody.
      destruct (span_forallb _ _ _ _ Es) as [Hr _].
      assert (Hlen : length (b :: body) = S (length run))
        by (rewrite Hbody, length_app; cbn [length]; lia).
      cbn [length] in Hlen.
      split.
      * destruct (Nat.lt_ge_cases k (length run)) as [Hlt|Hge];
          [|cbn [length]; lia].
        exfalso. rewrite Hbody in Hb. rewrite app_nth1 in Hb by exact Hlt.
        apply (nth_forallb_ESC _ run k ESC_not_intermediate Hr Hlt Hb).
      * unfold specControlSequence. change (byteEq ESC ESC) with true.
        rewrite Ebr, Es. reflexivity.
    + exfalso.
      apply (nth_forallb_ESC _ (b :: body) k ESC_not_intermediate Hx);
        [cbn [length]; lia | exact Hb].
Qed.

Lemma byteAt_slice : forall (s : gostring) lo hi k,
  k < hi - lo -> byteAt (slice s lo hi) k = byteAt s (lo + k).
Proof.
  intros s lo hi k Hk. unfold byteAt, slice.
  rewrite nth_firstn. apply Nat.ltb_lt in Hk. rewrite Hk.
  apply nth_skipn.
Qed.

(** C7, as the code has it, against control sequences written from the
    specification's rule ([specControlSequence]).  The texts of the
    segments concatenate to the input, each segment is not empty and is
    the slice of the input at its offset.  A text segment holds the
    escape character only where it is the last byte of the input.  An escape
    segment is a control sequence, or one cut short.  A control sequence
    that stands in the input never starts inside a text segment, and where
    a segment starts at its first byte that segment is the sequence, no
    less and no more.  After its first byte an escape segment holds the
    escape character only as the byte that ends a sequence of the short
    form: only there is the control sequence that starts with that
    escape character split ([segmenter_splits_sequence]), so the claim's
    words, that no control sequence is ever split, do not hold.  A control
    sequence followed by plain text gives the two segments in order, and
    stripping gives the plain text. *)
Theorem segmenter_correct : forall input,
  concat (map text (extractSegments input)) = input
  /\ Forall (fun seg => text seg <> []) (extractSegments input)
  /\ (forall start seg,
        In (start, seg) (located 0 (extractSegments input)) ->
        start + length (text seg) <= length input
        /\ text seg = slice input start (start + length (text seg)))
  /\ (forall i start seg,
        In (start, seg) (located 0 (extractSegments input)) ->
        isEscape seg = false ->
        start <= i < start + length (text seg) ->
        byteAt input i = ESC ->
        S i = length input)
  /\ (forall seg,
        In seg (extractSegments input) -> isEscape seg = true ->
        specControlSequence (text seg) = true
        \/ specTruncated (text seg) = true)
  /\ (forall i j start seg,
        i < j <= length input ->
        specControlSequence (slice input i j) = true ->
        In (start, seg) (located 0 (extractSegments input)) ->
        start <= i < start + length (text seg) ->
        isEscape seg = true
        /\ (i = start -> text seg = slice input i j))
  /\ (forall i start seg,
        In (start, seg) (located 0 (extractSegments input)) ->
        isEscape seg = true ->
        start < i < start + length (text seg) ->
        byteAt input i = ESC ->
        S i = start + length (text seg)
        /\ specControlSequence (text seg) = true)
  /\ (forall cs txt,
        specControlSequence cs = true -> txt <> [] -> ~ In ESC txt ->
        extractSegments (cs ++ txt)
        = [ mkSegment cs true; mkSegment txt false ]
        /\ StripANSI (cs ++ txt) = txt)
  /\ extractSegments (ESC :: bytes "[Khello")
     = [ mkSegment (ESC :: bytes "[K") true; mkSegment (bytes "hello") false ]
  /\ StripANSI (ESC :: bytes "[Khello") = bytes "hello".
Proof.
  intros inp. pose proof (extractSegments_segmented inp) as H.
  assert (Hshape : forall start seg,
            In (start, seg) (located 0 (extractSegments inp)) ->
            isEscape seg = true ->
            specControlSequence (text seg) = true
            \/ specTruncated (text seg) = true).
  { intros start seg Hs He.
    destruct (Segmented_located _ _ _ H _ _ Hs) as (_ & A & B & C).
    rewrite He in C.
    assert (Hstart : start <= length inp) by lia.
    pose proof (controlSequenceAt_skipn _ _ _ Hstart C) as C0.
    replace (start + length (text seg) - start) with (length (text seg))
      in C0 by lia.
    pose proof (controlSequenceAt_shape _ _ C0) as Hsh.
    assert (Hseg : firstn (length (text seg)) (skipn start inp) = text seg).
    { rewrite B at 2. unfold slice. f_equal. lia. }
    rewrite Hseg in Hsh. exact Hsh. }
  split; [rewrite (Segmented_concat _ _ _ H); apply slice_full|].
  split; [apply (Segmented_nonempty _ _ _ H)|].
  split.
  { intros start seg Hin.
    destruct (Segmented_located _ _ _ H _ _ Hin) as (_ & A & B & _).
    split; assumption. }
  split.
  { intros i start seg Hin He Hpos Hb.
    destruct (Segmented_located _ _ _ H _ _ Hin) as (_ & A & _ & C).
    rewrite He in C.
    destruct (controlSequenceAt_none _ _ (C i Hpos)) as [Hne|Hend];
      [contradiction | lia]. }
  split.
  { intros seg Hin He.
    destruct (located_In _ 0 _ Hin) as [start Hs].
    exact (Hshape start seg Hs He). }
  split.
  { intros i j start seg Hij Hcs Hin Hpos.
    pose proof (specControlSequence_at _ _ _ Hij Hcs) as Hat.
    destruct (Segmented_located _ _ _ H _ _ Hin) as (_ & A & B & C).
    destruct (isEscape seg).
    - split; [reflexivity|]. intros ->. rewrite Hat in C.
      injection C as C. rewrite B. f_equal. lia.
    - rewrite (C i Hpos) in Hat. discriminate. }
  split.
  { intros i start seg Hin He Hpos Hb.
    destruct (Segmented_located _ _ _ H _ _ Hin) as (_ & A & B & _).
    destruct (escape_inside_sequence (text seg) (i - start)
                (Hshape start seg Hin He)) as [Hl Hc].
    - lia.
    - rewrite B, byteAt_slice by lia.
      replace (start + (i - start)) with i by lia. exact Hb.
    - split; [lia | exact Hc]. }
  split; [apply sequence_then_text|].
  split; vm_compute; reflexivity.
Qed.

(** Against C7 as stated.  In the input of two escape characters and
    [[Khello] the control sequence escape, bracket, [K] stands at offset
    1; the code reads the two escape characters as one sequence, itself a
    control sequence of the specification's rule, and the bracket and [K]
    go to the text segment, where [StripANSI] leaves them too.  And an
    escape character that ends the input stays in the text segment, while
    [StripANSI] removes it. *)
Lemma segmenter_splits_sequence :
  slice (ESC :: ESC :: bytes "[Khello") 1 4 = ESC :: bytes "[K"
  /\ specControlSequence (ESC :: bytes "[K") = true
  /\ specControlSequence [ESC; ESC] = true
  /\ extractSegments (ESC :: ESC :: bytes "[Khello")
     = [ mkSegment [ESC; ESC] true; mkSegment (bytes "[Khello") false ]
  /\ StripANSI (ESC :: ESC :: bytes "[Khello") = bytes "[Khello"
  /\ extractSegments (bytes "a" ++ [ESC])
     = [ mkSegment (bytes "a" ++ [ESC]) false ]
  /\ StripANSI (bytes "a" ++ [ESC]) = bytes "a"
  /\ StripANSI (bytes "a" ++ [ESC])
     <> concat (map text (filter (fun seg => negb (isEscape seg))
                                 (extractSegments (bytes "a" ++ [ESC])))).
Proof.
  repeat split; try (vm_compute; reflexivity).
  vm_compute. discriminate.
Qed.
